(** * newspaper/outputformatters.py: the output formatter, embedded and verified

    The module turns the "top node" of an article (an lxml element chosen
    upstream) into plain text.  The embedding follows the three classes of
    the module:

    - [NodeTextExclusion]: the per-node veto [is_excluded];
    - [NodeTextExtractor]: the generator [extract_text];
    - [OutputFormatter]: the cleanup passes of [get_formatted] and
      [convert_to_text].

    Python strings are sequences of code points, lxml elements are trees
    with [text] and [tail], and the in-place mutation of the tree is state
    passing on the tree, with elements addressed by their identity. *)

From Stdlib Require Import Ascii String.
From Stdlib Require Import List NArith ZArith Arith Bool Lia.
Import ListNotations.

Set Implicit Arguments.

(** ** Python strings *)

Module PyStr.

(** A [str] is a sequence of Unicode code points. *)
Definition pystr := list N.

(** An ASCII literal as a [str]. *)
Definition py (s : string) : pystr := map N_of_ascii (list_ascii_of_string s).

Fixpoint str_eqb (a b : pystr) : bool :=
  match a, b with
  | [], [] => true
  | x :: a', y :: b' => N.eqb x y && str_eqb a' b'
  | _, _ => false
  end.

(** [x in {...}] for a set of strings. *)
Definition str_in (x : pystr) (l : list pystr) : bool := existsb (str_eqb x) l.

(** Truth value of a [str]: non-empty. *)
Definition nonempty (s : pystr) : bool :=
  match s with [] => false | _ :: _ => true end.

(** The code points [str.strip], [str.split] and the regex class [\s] treat
    as whitespace (CPython's [_PyUnicode_IsWhitespace]). *)
Definition is_space (c : N) : bool :=
  ((9 <=? c) && (c <=? 13) || (28 <=? c) && (c <=? 32)
   || (c =? 133) || (c =? 160) || (c =? 5760)
   || (8192 <=? c) && (c <=? 8202)
   || (c =? 8232) || (c =? 8233) || (c =? 8239) || (c =? 8287)
   || (c =? 12288))%N.

Fixpoint lstrip (s : pystr) : pystr :=
  match s with
  | [] => []
  | c :: s' => if is_space c then lstrip s' else s
  end.

Definition rstrip (s : pystr) : pystr := rev (lstrip (rev s)).

(** [s.strip()] *)
Definition strip (s : pystr) : pystr := rstrip (lstrip s).

(** [s.split()]: the maximal runs of non-whitespace, [cur] being the run
    read so far (reversed). *)
Fixpoint split_ws_aux (cur : pystr) (s : pystr) : list pystr :=
  match s with
  | [] => match cur with [] => [] | _ => [rev cur] end
  | c :: s' =>
      if is_space c
      then match cur with
           | [] => split_ws_aux [] s'
           | _ => rev cur :: split_ws_aux [] s'
           end
      else split_ws_aux (c :: cur) s'
  end.

Definition split_ws (s : pystr) : list pystr := split_ws_aux [] s.

(** [sep.join(l)] *)
Fixpoint join (sep : pystr) (l : list pystr) : pystr :=
  match l with
  | [] => []
  | x :: l' =>
      match l' with
      | [] => x
      | _ :: _ => x ++ sep ++ join sep l'
      end
  end.

Fixpoint starts_with (p s : pystr) : bool :=
  match p, s with
  | [], _ => true
  | a :: p', b :: s' => N.eqb a b && starts_with p' s'
  | _ :: _, [] => false
  end.

(** [p in s], which is also [re.search] of a literal pattern. *)
Fixpoint contains (p s : pystr) : bool :=
  starts_with p s
  || match s with
     | [] => false
     | _ :: s' => contains p s'
     end.

(** The newline marker [r'\n']: a backslash followed by the letter n. *)
Definition marker : pystr := [92; 110]%N.

Definition cons_first (c : N) (l : list pystr) : list pystr :=
  match l with
  | [] => [[c]]
  | p :: ps => (c :: p) :: ps
  end.

(** [s.split(r'\n')]: the pieces between the occurrences of the marker,
    read left to right, empty pieces included. *)
Fixpoint split_marker (s : pystr) : list pystr :=
  match s with
  | [] => [[]]
  | c :: s' =>
      match s' with
      | [] => [[c]]
      | d :: s'' =>
          if (c =? 92)%N && (d =? 110)%N
          then [] :: split_marker s''
          else cons_first c (split_marker s')
      end
  end.

(** Newspaper's [innerTrim] (newspaper/text.py).
    Modelled from the spec: text.py is not among the sources; the spec says
    "collapse internal whitespace runs to single spaces, trim ends". *)
Definition innerTrim (s : pystr) : pystr := join [32%N] (split_ws s).

End PyStr.
Import PyStr.

(** ** Results of fallible code *)

Inductive exn : Type := ValueError | TypeError | AttributeError.

Inductive result (A : Type) : Type :=
| Ok (a : A)
| Raise (e : exn).
Arguments Ok {A} a.
Arguments Raise {A} e.

Definition bind {A B : Type} (r : result A) (k : A -> result B) : result B :=
  match r with
  | Ok a => k a
  | Raise e => Raise e
  end.

Notation "x <- r ;; k" := (bind r (fun x => k))
  (at level 61, r at next level, right associativity).

(** A [for] loop whose body may raise: the state is threaded through the
    items in order and the first exception ends the loop. *)
Fixpoint for_each {A S : Type} (body : S -> A -> result S) (items : list A) (s : S)
  : result S :=
  match items with
  | [] => Ok s
  | x :: items' => s' <- body s x ;; for_each body items' s'
  end.

(** ** The builtins the module calls

    [float] and [html.unescape] belong to Python, not to the module.  They
    are taken as an interface; the one law is the first line of
    [html.unescape]: a string without an ampersand is returned as it is. *)

Class PyBuiltins : Type := {
  pyfloat : Type;
  (** [float(s)]; [None] is [ValueError]. *)
  float : pystr -> option pyfloat;
  (** [x < 1] for a float [x]. *)
  lt_one : pyfloat -> bool;
  (** [html.unescape(s)] *)
  unescape : pystr -> pystr;
  unescape_plain : forall s, existsb (N.eqb 38) s = false -> unescape s = s
}.

(** ** lxml elements *)

(** An element: its identity, tag, attributes, the text before its first
    child, the text after its end tag, and its children.  lxml's [None] for
    an absent [text] or [tail] is the empty string here: the module reads
    both only through their truth value. *)
Unset Elimination Schemes.
Inductive node : Type :=
| Node (nid : nat) (tag : pystr) (attrib : list (pystr * pystr))
       (text : pystr) (tail : pystr) (children : list node).
Set Elimination Schemes.

Definition nid (n : node) : nat := let 'Node i _ _ _ _ _ := n in i.
Definition tag (n : node) : pystr := let 'Node _ t _ _ _ _ := n in t.
Definition attrib (n : node) : list (pystr * pystr) := let 'Node _ _ a _ _ _ := n in a.
Definition text (n : node) : pystr := let 'Node _ _ _ x _ _ := n in x.
Definition tail (n : node) : pystr := let 'Node _ _ _ _ x _ := n in x.
Definition children (n : node) : list node := let 'Node _ _ _ _ _ cs := n in cs.

Definition set_text (x : pystr) (n : node) : node :=
  let 'Node i t a _ tl cs := n in Node i t a x tl cs.
Definition set_tail (x : pystr) (n : node) : node :=
  let 'Node i t a tx _ cs := n in Node i t a tx x cs.
Definition set_children (cs : list node) (n : node) : node :=
  let 'Node i t a tx tl _ := n in Node i t a tx tl cs.

(** [node.attrib.get(k)] *)
Fixpoint attr_get (k : pystr) (a : list (pystr * pystr)) : option pystr :=
  match a with
  | [] => None
  | (k', v) :: a' => if str_eqb k k' then Some v else attr_get k a'
  end.

(** [node.classes]: the whitespace-separated words of the class attribute. *)
Definition classes (n : node) : list pystr :=
  match attr_get (py "class") (attrib n) with
  | Some v => split_ws v
  | None => []
  end.

(** [node.iter()]: the element and its descendants in document order. *)
Fixpoint iter (n : node) : list node :=
  n :: flat_map iter (children n).

(** The proper descendants, in document order. *)
Definition descendants (n : node) : list node := flat_map iter (children n).

(** [node.iter()] with, for each element, its [getparent()]. *)
Fixpoint iter_from (parent : option node) (n : node) : list (option node * node) :=
  (parent, n) :: flat_map (iter_from (Some n)) (children n).

(** Truth value of an element: lxml's [__bool__] is "has children". *)
Definition elem_bool (n : node) : bool :=
  match children n with [] => false | _ :: _ => true end.

(** The induction principle of the tree: the children satisfy the property. *)
Section NodeInd.
Variable P : node -> Prop.
Hypothesis P_Node : forall i t a tx tl cs,
    Forall P cs -> P (Node i t a tx tl cs).

Fixpoint node_ind (n : node) : P n :=
  match n with
  | Node i t a tx tl cs =>
      P_Node i t a tx tl
        ((fix all (l : list node) : Forall P l :=
            match l with
            | [] => Forall_nil P
            | c :: l' => Forall_cons c (node_ind c) (all l')
            end) cs)
  end.
End NodeInd.

(** ** NodeTextExclusion *)

Module NodeTextExclusion.

Definition EXCLUDED_TAGS : list pystr := [py "figure"; py "figcaption"].

Definition AD_CLASSES : list pystr :=
  [py "js_ad-mobile-dynamic"; py "js_ad-dynamic"; py "ad-mobile-dynamic"; py "movable-ad"].

Definition OBJECT_DESCRIPTIONS : list pystr :=
  [py "bold"; py "detailImageDesc"; py "credits"].

(** The phrase is written with the two guillemets U+00AB and U+00BB. *)
Definition previous_next_phrase : pystr :=
  [171%N] ++ py " previous post | next post " ++ [187%N].

Definition PAGE_NAVIGATION : list pystr := [previous_next_phrase; py "prevnext"].

Definition IGNORED_CLASSES : list pystr := [py "audioplayer_container"; py "postfeedback"].

(** [IGNORED_TEXT.search(s)] for the pattern [Permalink|(Share link)]. *)
Definition IGNORED_TEXT_search (s : pystr) : bool :=
  contains (py "Permalink") s || contains (py "Share link") s.

(** Truth value of [set(node.classes).intersection(names)]. *)
Definition classes_intersect (n : node) (names : list pystr) : bool :=
  existsb (fun c => str_in c names) (classes n).

Definition _has_ignored_class (n : node) : bool :=
  classes_intersect n IGNORED_CLASSES.

Definition _has_ads (n : node) : bool :=
  str_eqb (tag n) (py "div") && classes_intersect n AD_CLASSES.

Definition _looks_like_object_description (n : node) : bool :=
  str_eqb (tag n) (py "span") && classes_intersect n OBJECT_DESCRIPTIONS.

Definition _looks_like_page_navigation (n : node) : bool :=
  if str_in (strip (text n)) PAGE_NAVIGATION then true
  else if str_eqb (tag n) (py "p")
          && match attr_get (py "id") (attrib n) with
             | Some v => str_in v PAGE_NAVIGATION
             | None => false
             end
       then true
       else false.

(** [parent] is [node.getparent()]. *)
Definition _is_tag_excluded (parent : option node) (n : node) : bool :=
  if str_in (tag n) EXCLUDED_TAGS then true
  else match parent with
       | Some p => if elem_bool p && str_in (tag p) EXCLUDED_TAGS then true else false
       | None => false
       end.

Definition _ignored_by_content (n : node) : bool :=
  if nonempty (text n) then IGNORED_TEXT_search (text n) else false.

Definition filter_methods (parent : option node) : list (node -> bool) :=
  [ _is_tag_excluded parent;
    _has_ads;
    _looks_like_object_description;
    _looks_like_page_navigation;
    _has_ignored_class;
    _ignored_by_content ].

(** The loop over the filter methods, returning at the first that holds. *)
Fixpoint first_match (methods : list (node -> bool)) (n : node) : bool :=
  match methods with
  | [] => false
  | method :: rest => if method n then true else first_match rest n
  end.

Definition is_excluded (parent : option node) (n : node) : bool :=
  first_match (filter_methods parent) n.

End NodeTextExclusion.
Import NodeTextExclusion.

(** ** NodeTextExtractor *)

(** What a call can hand back to [convert_to_text]: [None], or a generator
    object, given by the fragments it yields until it is exhausted. *)
Inductive pyvalue : Type :=
| PyNone
| PyGenerator (yielded : list pystr).

(** Truth value, as [filter(None, ...)] tests it: a generator object is
    true whatever it yields. *)
Definition truthy (v : pyvalue) : bool :=
  match v with
  | PyNone => false
  | PyGenerator _ => true
  end.

Definition fragments (v : pyvalue) : list pystr :=
  match v with
  | PyNone => []
  | PyGenerator l => l
  end.

Section Extractor.
Context {B : PyBuiltins}.

(** The inner loop over [parts]: empty parts are filtered out, a part equal
    to a true [title] is skipped. *)
Definition yield_parts (title : option pystr) (text_element : pystr) : list pystr :=
  filter (fun part =>
            negb (match title with
                  | Some t => nonempty t && str_eqb part t
                  | None => false
                  end))
         (filter nonempty (split_marker text_element)).

(** The body of the generator, run until it is exhausted.  On an excluded
    node [return None] ends it before the first [yield]. *)
Definition extract_text_body (parent : option node) (n : node) (title : option pystr)
  : list pystr :=
  if is_excluded parent n then []
  else
    let filtered_nodes :=
      filter (fun pc => negb (is_excluded (fst pc) (snd pc))) (iter_from parent n) in
    let text_elements :=
      map (fun pc => innerTrim (unescape (text (snd pc))))
          (filter (fun pc => nonempty (text (snd pc))) filtered_nodes) in
    flat_map (yield_parts title) text_elements.

(** [extract_text] has a [yield] in its body: every call returns a
    generator object. *)
Definition extract_text (parent : option node) (n : node) (title : option pystr)
  : pyvalue :=
  PyGenerator (extract_text_body parent n title).

(** ** OutputFormatter.convert_to_text *)

(** The fragments of all the children of the top node, chained. *)
Definition flattened_elements (top : node) (title : option pystr) : list pystr :=
  let text_elements :=
    filter truthy (map (fun n => extract_text (Some top) n title) (children top)) in
  flat_map fragments text_elements.

(** [len(first_element.split()) != 1] guarded by the truth of the element. *)
Definition keeps_first (first_element : pystr) : bool :=
  nonempty first_element && negb (length (split_ws first_element) =? 1).

Definition convert_to_text_of (top : node) (title : option pystr) : pystr :=
  let flattened := flattened_elements top title in
  let elements :=
    match flattened with
    | first_element :: _ => if keeps_first first_element then [first_element] else []
    | [] => []
    end in
  join [10; 10]%N (elements ++ tl flattened).

(** Iterating the top node raises [TypeError] when it is [None]. *)
Definition convert_to_text (top_node : option node) (title : option pystr)
  : result pystr :=
  match top_node with
  | None => Raise TypeError
  | Some top => Ok (convert_to_text_of top title)
  end.

End Extractor.

(** ** The tree as a mutable object

    The passes of the formatter hold references to elements and mutate the
    tree through them.  A reference is the identity [nid] of the element;
    a mutation through a reference rewrites the tree at that identity.  An
    element that an earlier step detached is no longer in the tree: a
    mutation through its reference changes the detached part only, so it
    leaves the tree as it is. *)

Section FirstSome.
Variables (A R : Type) (f : A -> option R).

Fixpoint first_some (l : list A) : option R :=
  match l with
  | [] => None
  | x :: l' =>
      match f x with
      | Some r => Some r
      | None => first_some l'
      end
  end.
End FirstSome.

(** The element of identity [i], as it is now in the tree under [n]. *)
Fixpoint find_id (i : nat) (n : node) {struct n} : option node :=
  if nid n =? i then Some n else first_some (find_id i) (children n).

(** Mutate the element of identity [i] with [f]. *)
Fixpoint update_id (i : nat) (f : node -> node) (n : node) {struct n} : node :=
  if nid n =? i then f n
  else set_children (map (update_id i f) (children n)) n.

(** [parent.remove(child)] for the child of identity [i], wherever its
    parent is below [n]: the child leaves with its subtree and its tail. *)
Fixpoint remove_id (i : nat) (n : node) {struct n} : node :=
  set_children
    (flat_map (fun c => if nid c =? i then [] else [remove_id i c]) (children n)) n.

(** Identities are unique: two elements of a tree are two objects. *)
Definition ids (n : node) : list nat := map nid (iter n).
Definition wf (n : node) : Prop := NoDup (ids n).

(** ** The parser facade (newspaper/parsers.py)

    The module reaches the tree through [self.parser]; parsers.py is not
    among the sources, so its operations are modelled from the spec's
    description of the "Tree Access Facade": "read tag/attributes/text/
    children, detach a node, splice a node's children/text into its parent
    (unwrap), serialize a subtree". *)

Module Parser.

(** Modelled from the spec: [css_select(node, "*[gravityScore]")] is missing;
    the spec says "every descendant with a gravityScore attribute". *)
Definition css_select_gravityScore (n : node) : list node :=
  filter (fun d => match attr_get (py "gravityScore") (attrib d) with
                   | Some _ => true
                   | None => false
                   end)
         (descendants n).

(** Modelled from the spec: [getAttribute] is missing; an attribute read. *)
Definition getAttribute (n : node) (attr : pystr) : option pystr :=
  attr_get attr (attrib n).

(** Modelled from the spec: [getElementsByTag(node, tag=...)] is missing; the
    spec speaks of "every forced-break element", "every list container" of
    the top node: the descendants with the tag, in document order. *)
Definition getElementsByTag (n : node) (t : pystr) : list node :=
  filter (fun d => str_eqb (tag d) t) (descendants n).

(** Modelled from the spec: [getElementsByTags(node, ['*'])] is missing; the
    spec's step 7 visits the "descendants". *)
Definition getElementsByTags_all (n : node) : list node := descendants n.

Definition getChildren (n : node) : list node := children n.

Definition getTag (n : node) : pystr := tag n.

(** The texts inside an element in document order: its text, then for each
    child the child's texts and the child's tail. *)
Fixpoint itertext (n : node) : list pystr :=
  text n :: flat_map (fun c => itertext c ++ [tail c]) (children n).

(** Modelled from the spec: [getText] is missing; the spec calls it the
    "accumulated text" of an element: all the text inside it, normalized
    like a fragment. *)
Definition getText (n : node) : pystr := innerTrim (join [32%N] (itertext n)).

(** Modelled from the spec: [remove] is missing; the spec says "detach a
    node", "drop all of the item's children", "remove that last direct
    child". *)
Definition remove (c : node) (top : node) : node := remove_id (nid c) top.

(** The text that follows the children emitted so far: the tail of the last
    of them, or the parent's text when there is none.  The state of a splice
    is the parent's text and the children emitted so far, last first. *)
Definition add_text (x : pystr) (st : pystr * list node) : pystr * list node :=
  match snd st with
  | [] => (fst st ++ x, [])
  | l :: r => (fst st, set_tail (tail l ++ x) l :: r)
  end.

Definition add_child (st : pystr * list node) (c : node) : pystr * list node :=
  (fst st, c :: snd st).

Definition splice (tags : list pystr) (st : pystr * list node) (c : node)
  : pystr * list node :=
  if str_in (tag c) tags
  then add_text (tail c) (fold_left add_child (children c) (add_text (text c) st))
  else add_child st c.

(** Modelled from the spec: [stripTags(node, *tags)] is missing; the spec
    says "unwrap every ... element: replace it with a splice of its own
    children/text at its former position", "remove the node, insert its
    children/text at its former position in the parent, preserving document
    order".  The node the call is made on stays. *)
Fixpoint stripTags (tags : list pystr) (n : node) : node :=
  let st :=
    fold_left (fun st c => splice tags st (stripTags tags c)) (children n) (text n, []) in
  Node (nid n) (tag n) (attrib n) (fst st) (tail n) (rev (snd st)).

End Parser.

(** Modelled from the spec: [clean_article_html] and [nodeToString] are
    missing; the spec says "serialize the current tree to a string".  The
    string is left to the serializer.

    What the parser does when the node it is handed is [None] is not in the
    sources either, and the spec does not say: [absent_node] is [Some e]
    for a parser whose operations raise [e] on [None], and [None] for a
    parser whose operations all return on [None], the reads with nothing
    found and the writes with nothing done. *)
Class Serializer : Type := {
  article_html : node -> pystr;
  absent_node : option exn
}.

(** ** OutputFormatter: the cleanup passes *)

Section Formatter.
Context {B : PyBuiltins} {Sz : Serializer}.

(** [score = float(score) if score else 0], then [score < 1]: the integer
    0 is below 1. *)
Definition score_below_one (score : option pystr) : result bool :=
  match score with
  | Some s =>
      if nonempty s
      then match float s with
           | Some x => Ok (lt_one x)
           | None => Raise ValueError
           end
      else Ok true
  | None => Ok true
  end.

Definition remove_negativescores_nodes (top : node) : result node :=
  let gravity_items := Parser.css_select_gravityScore top in
  for_each
    (fun t item =>
       below <- score_below_one (Parser.getAttribute item (py "gravityScore")) ;;
       Ok (if below then remove_id (nid item) t else t))
    gravity_items top.

Definition convert_to_html (top : node) : pystr := article_html top.

Definition links_to_text (top : node) : node :=
  Parser.stripTags [py "a"] top.

Definition add_newline_to_br (top : node) : node :=
  fold_left (fun t e => update_id (nid e) (set_text marker) t)
            (Parser.getElementsByTag top (py "br")) top.

(** The body of the loop over [li_list[:-1]] for one item. *)
Definition normalize_item (t : node) (li : node) : node :=
  match find_id (nid li) t with
  | None => t
  | Some li_now =>
      let t1 := update_id (nid li) (set_text (Parser.getText li_now ++ marker)) t in
      fold_left (fun t c => Parser.remove c t) (Parser.getChildren li_now) t1
  end.

Definition add_newline_to_li (top : node) : node :=
  fold_left
    (fun t e =>
       match find_id (nid e) t with
       | None => t
       | Some e_now =>
           let li_list := Parser.getElementsByTag e_now (py "li") in
           fold_left normalize_item (removelast li_list) t
       end)
    (Parser.getElementsByTag top (py "ul")) top.

Definition replace_with_text (top : node) : node :=
  Parser.stripTags [py "b"; py "strong"; py "i"; py "br"; py "sup"] top.

(** The condition under which [remove_empty_tags] removes [el]; ['\\r'] is
    a backslash followed by the letter r. *)
Definition is_empty_tag (el : node) : bool :=
  let tag := Parser.getTag el in
  let text := Parser.getText el in
  (negb (str_eqb tag (py "br")) || negb (str_eqb text [92; 114]%N))
  && negb (nonempty text)
  && (length (Parser.getElementsByTag el (py "object")) =? 0)
  && (length (Parser.getElementsByTag el (py "embed")) =? 0).

Definition remove_empty_tags (top : node) : node :=
  let all_nodes := rev (Parser.getElementsByTags_all top) in
  fold_left
    (fun t el =>
       match find_id (nid el) t with
       | None => t
       | Some el_now => if is_empty_tag el_now then Parser.remove el t else t
       end)
    all_nodes top.

(** The loop of [get_depth] over the children, [max_depth] being the
    maximum so far. *)
Section GetDepth.
Variable get_depth_of : node -> nat.

Fixpoint max_over (children : list node) (max_depth : nat) : nat :=
  match children with
  | [] => max_depth
  | c :: rest =>
      let e_depth := get_depth_of c in
      max_over rest (if max_depth <? e_depth then e_depth else max_depth)
  end.
End GetDepth.

Fixpoint get_depth (n : node) (depth : nat) : nat :=
  match Parser.getChildren n with
  | [] => depth
  | children => max_over (fun c => get_depth c (depth + 1)) children 0
  end.

Definition remove_trailing_media_div (top : node) : node :=
  let top_level_nodes := Parser.getChildren top in
  if length top_level_nodes <? 3 then top
  else
    match last (map Some top_level_nodes) None with
    | None => top
    | Some last_node =>
        if 2 <=? get_depth last_node 1 then Parser.remove last_node top else top
    end.

(** [get_formatted].  With a top node the passes run in their order and
    the text is taken from the tree they leave.  With [None] for the top
    node the first statement hands [None] to the parser
    ([self.parser.css_select(self.top_node, ...)]) and every pass after it
    does as well: an exception of the parser leaves [get_formatted] there;
    with a parser that returns on [None] no pass has anything to do and
    [convert_to_text] is reached with [None]. *)
Definition get_formatted (keep_article_html : bool) (top_node : option node)
           (title : option pystr) : result (pystr * pystr) :=
  match top_node with
  | Some top =>
      t1 <- remove_negativescores_nodes top ;;
      let html := if keep_article_html then convert_to_html t1 else [] in
      let t2 := links_to_text t1 in
      let t3 := add_newline_to_br t2 in
      let t4 := add_newline_to_li t3 in
      let t5 := replace_with_text t4 in
      let t6 := remove_empty_tags t5 in
      let t7 := remove_trailing_media_div t6 in
      text <- convert_to_text (Some t7) title ;;
      Ok (text, html)
  | None =>
      match absent_node with
      | Some e => Raise e
      | None =>
          text <- convert_to_text None title ;;
          Ok (text, [])
      end
  end.

(** The cleanup pipeline alone: the passes of [get_formatted] that mutate
    the top node, in their order. *)
Definition cleanup (top : node) : result node :=
  t1 <- remove_negativescores_nodes top ;;
  Ok (remove_trailing_media_div
        (remove_empty_tags
           (replace_with_text
              (add_newline_to_li
                 (add_newline_to_br
                    (links_to_text t1)))))).

End Formatter.

(** ** An instance of the builtins, for the examples

    [float] on the ASCII literals of Python's grammar: optional sign, digits
    with single underscores between them, an optional fraction and exponent,
    or [inf], [infinity], [nan] in any case, surrounded by whitespace.  The
    value is kept as the decimal it denotes.  [html.unescape] on the strings
    without an ampersand, which it returns as they are; the examples of this
    file have no ampersand. *)

Module Builtins.

Inductive float_value : Type :=
| FNan
| FInf (negative : bool)
| FDec (negative : bool) (mantissa : N) (exponent : Z).

Definition digit_val (c : N) : option N :=
  if ((48 <=? c) && (c <=? 57))%N then Some (c - 48)%N else None.

(** A run of digits, single underscores allowed between two digits: the
    value read (continuing [acc]), the number of digits, and the rest. *)
Fixpoint digit_run (acc : N) (cnt : nat) (s : pystr) : N * nat * pystr :=
  match s with
  | [] => (acc, cnt, s)
  | c :: s' =>
      match digit_val c with
      | Some d => digit_run (acc * 10 + d)%N (S cnt) s'
      | None =>
          if (c =? 95)%N && (0 <? cnt)
          then match s' with
               | d :: _ =>
                   match digit_val d with
                   | Some _ => digit_run acc cnt s'
                   | None => (acc, cnt, s)
                   end
               | [] => (acc, cnt, s)
               end
          else (acc, cnt, s)
      end
  end.

Definition lower (c : N) : N :=
  if ((65 <=? c) && (c <=? 90))%N then (c + 32)%N else c.

(** A leading sign: whether it is a minus, and the rest. *)
Definition read_sign (s : pystr) : bool * pystr :=
  match s with
  | 45%N :: s' => (true, s')
  | 43%N :: s' => (false, s')
  | _ => (false, s)
  end.

Definition read_exponent (s : pystr) : option Z :=
  match s with
  | [] => Some 0%Z
  | c :: s' =>
      if (lower c =? 101)%N
      then let '(neg, s1) := read_sign s' in
           match digit_run 0 0 s1 with
           | (_, O, _) => None
           | (x, S _, []) =>
               Some (if neg then Z.opp (Z.of_N x) else Z.of_N x)
           | (_, S _, _ :: _) => None
           end
      else None
  end.

Definition float_of_str (s : pystr) : option float_value :=
  let '(neg, body) := read_sign (strip s) in
  let word := map lower body in
  if str_eqb word (py "inf") || str_eqb word (py "infinity") then Some (FInf neg)
  else if str_eqb word (py "nan") then Some FNan
  else
    let '(i, ni, r1) := digit_run 0 0 body in
    let '(m, nf, r2) :=
      match r1 with
      | 46%N :: r => digit_run i 0 r
      | _ => (i, O, r1)
      end in
    match ni + nf with
    | O => None
    | S _ =>
        match read_exponent r2 with
        | Some e => Some (FDec neg m (e - Z.of_nat nf)%Z)
        | None => None
        end
    end.

(** [x < 1.0] for the double nearest to the decimal: the doubles below 1
    end at 1 - 2^-53, and the decimals that round to them are those below
    1 - 2^-54 (the tie rounds to the even neighbour, 1.0). *)
Definition below_one (x : float_value) : bool :=
  match x with
  | FNan => false
  | FInf negative => negative
  | FDec true _ _ => true
  | FDec false m e =>
      let p := (2 ^ 54)%Z in
      match e with
      | Zneg k => (Z.of_N m * p <? (p - 1) * 10 ^ Zpos k)%Z
      | _ => (Z.of_N m * 10 ^ e * p <? p - 1)%Z
      end
  end.

#[export] Instance ascii_builtins : PyBuiltins := {
  pyfloat := float_value;
  float := float_of_str;
  lt_one := below_one;
  unescape := fun s => s;
  unescape_plain := fun s _ => eq_refl
}.

(** The serializer of the examples writes the tag of the top node; its
    parser raises on [None], as attribute access on [None] does in Python. *)
#[export] Instance tag_serializer : Serializer := {
  article_html := fun n => [60%N] ++ tag n ++ [62%N];
  absent_node := Some AttributeError
}.

(** Modelled from the spec: "serialize a subtree".  The element is written
    as markup: the start tag with the attributes, the text, the children,
    the end tag and the tail; the characters of texts and values are
    written as they are. *)
Fixpoint nodeToString (n : node) : pystr :=
  py "<" ++ tag n
  ++ flat_map (fun kv => py " " ++ fst kv ++ py "=" ++ [34%N] ++ snd kv ++ [34%N])
              (attrib n)
  ++ py ">" ++ text n ++ flat_map nodeToString (children n)
  ++ py "</" ++ tag n ++ py ">" ++ tail n.

Definition markup_serializer : Serializer := {|
  article_html := nodeToString;
  absent_node := Some AttributeError
|}.

End Builtins.


(** ** The properties, in the words of the specification *)

(** An element built from ASCII literals, for the examples. *)
Definition el (i : nat) (t : string) (a : list (string * string))
           (tx : string) (tl : string) (cs : list node) : node :=
  Node i (py t) (map (fun kv => (py (fst kv), py (snd kv))) a) (py tx) (py tl) cs.

Module ExclusionSpec.

(** The six conditions of the exclusion policy. *)
Definition tag_exclusion (parent : option node) (n : node) : Prop :=
  In (tag n) EXCLUDED_TAGS
  \/ exists p, parent = Some p /\ In (tag p) EXCLUDED_TAGS.

Definition ad_container (n : node) : Prop :=
  tag n = py "div" /\ exists c, In c (classes n) /\ In c AD_CLASSES.

Definition object_description_span (n : node) : Prop :=
  tag n = py "span" /\ exists c, In c (classes n) /\ In c OBJECT_DESCRIPTIONS.

(** Page navigation as the claim has it: the text against the phrase, the
    id against the sentinel id. *)
Definition page_navigation_claimed (n : node) : Prop :=
  strip (text n) = previous_next_phrase
  \/ (tag n = py "p" /\ attr_get (py "id") (attrib n) = Some (py "prevnext")).

(** Page navigation as the code has it: the text, and the id, against both
    sentinels. *)
Definition page_navigation (n : node) : Prop :=
  In (strip (text n)) PAGE_NAVIGATION
  \/ (tag n = py "p"
      /\ exists v, attr_get (py "id") (attrib n) = Some v /\ In v PAGE_NAVIGATION).

Definition ignored_class (n : node) : Prop :=
  exists c, In c (classes n) /\ In c IGNORED_CLASSES.

Definition ignored_content (n : node) : Prop :=
  contains (py "Permalink") (text n) = true
  \/ contains (py "Share link") (text n) = true.

Definition excluded_claimed (parent : option node) (n : node) : Prop :=
  tag_exclusion parent n \/ ad_container n \/ object_description_span n
  \/ page_navigation_claimed n \/ ignored_class n \/ ignored_content n.

Definition excluded (parent : option node) (n : node) : Prop :=
  tag_exclusion parent n \/ ad_container n \/ object_description_span n
  \/ page_navigation n \/ ignored_class n \/ ignored_content n.

(** [parent] is what [n.getparent()] gives: nothing, or an element that has
    [n] among its children. *)
Definition is_parent_of (parent : option node) (n : node) : Prop :=
  match parent with
  | Some p => In n (children p)
  | None => True
  end.

(** A [div] whose text is the sentinel id. *)
Definition prevnext_div : node := el 1 "div" [] "prevnext" "" [].

End ExclusionSpec.

(** A string in which the newline marker does not occur. *)
Definition no_marker (s : pystr) : Prop := contains marker s = false.

Section ConvertSpec.
Context {B : PyBuiltins}.

(** What [convert_to_text] joins: the flattened fragments, without the
    first when it is not kept. *)
Definition retained (top : node) (title : option pystr) : list pystr :=
  match flattened_elements top title with
  | [] => []
  | first_element :: rest =>
      if keeps_first first_element then first_element :: rest else rest
  end.

(** The same as the claim has it: the first fragment is kept only when it
    has more than one word. *)
Definition retained_claimed (top : node) (title : option pystr) : list pystr :=
  match flattened_elements top title with
  | [] => []
  | first_element :: rest =>
      if 1 <? length (split_ws first_element) then first_element :: rest else rest
  end.

(** The same by the number of words alone: the first fragment is dropped
    exactly when it is one word. *)
Definition retained_by_words (top : node) (title : option pystr) : list pystr :=
  match flattened_elements top title with
  | [] => []
  | first_element :: rest =>
      if length (split_ws first_element) =? 1 then rest else first_element :: rest
  end.

End ConvertSpec.

(** The nesting depth of a subtree in the words of the spec: "leaf depth = 1
    relative to that child, propagate max+1 upward". *)
Fixpoint nesting_depth (n : node) : nat :=
  S (fold_right (fun c m => Nat.max (nesting_depth c) m) 0 (children n)).

(** The top node without its last direct child. *)
Definition without_last_child (top : node) : node :=
  set_children (removelast (children top)) top.

(** Detaching every element whose identity is in a set. *)
Fixpoint remove_ids (P : nat -> bool) (n : node) : node :=
  set_children
    (flat_map (fun c => if P (nid c) then [] else [remove_ids P c]) (children n)) n.

Section ScoreSpec.
Context {B : PyBuiltins}.

Definition gravityScore (d : node) : option pystr :=
  Parser.getAttribute d (py "gravityScore").

(** The element has a gravityScore whose value, parsed, is less than 1. *)
Definition low_score (d : node) : bool :=
  match gravityScore d with
  | Some s =>
      match score_below_one (Some s) with
      | Ok below => below
      | Raise _ => false
      end
  | None => false
  end.

(** The score of the claim: an unparsable value counts as 0. *)
Definition low_score_claimed (d : node) : bool :=
  match gravityScore d with
  | Some s =>
      match float s with
      | Some x => lt_one x
      | None => true
      end
  | None => false
  end.

(** The element has a gravityScore that is not empty and that [float]
    rejects. *)
Definition unparsable (d : node) : Prop :=
  exists s, gravityScore d = Some s /\ nonempty s = true /\ float s = None.

(** [float] accepts the gravityScore of the element, if it has one that is
    not empty. *)
Definition parsable (d : node) : Prop :=
  forall s, gravityScore d = Some s -> nonempty s = true -> exists x, float s = Some x.

(** The element has a gravityScore that is empty, or that [float] reads as
    a number less than 1. *)
Definition scored_below_one (d : node) : Prop :=
  exists s, gravityScore d = Some s
            /\ (nonempty s = false \/ exists x, float s = Some x /\ lt_one x = true).

(** The body of the loop of [remove_negativescores_nodes]. *)
Definition score_step (t : node) (item : node) : result node :=
  below <- score_below_one (Parser.getAttribute item (py "gravityScore")) ;;
  Ok (if below then remove_id (nid item) t else t).

(** Score pruning in the words of the spec: "detach the node (and
    subtree) if score < 1", for every descendant. *)
Fixpoint prune (low : node -> bool) (n : node) : node :=
  set_children
    (flat_map (fun c => if low c then [] else [prune low c]) (children n)) n.

End ScoreSpec.

(** What a pass never changes in an element that it leaves in the tree:
    its identity, tag and attributes. *)
Definition head (n : node) : nat * pystr * list (pystr * pystr) :=
  (nid n, tag n, attrib n).

Definition all_heads (n : node) : list (nat * pystr * list (pystr * pystr)) :=
  map head (iter n).

(** [subseq l1 l2]: [l1] is [l2] with some elements left out. *)
Inductive subseq {A : Type} : list A -> list A -> Prop :=
| subseq_nil : subseq [] []
| subseq_skip (x : A) (l1 l2 : list A) : subseq l1 l2 -> subseq l1 (x :: l2)
| subseq_keep (x : A) (l1 l2 : list A) : subseq l1 l2 -> subseq (x :: l1) (x :: l2).

(** A pass shrinks the tree: the elements of the result are elements of the
    input, in their order, with their identities, tags and attributes. *)
Definition shrinks (t' t : node) : Prop :=
  head t' = head t /\ subseq (all_heads t') (all_heads t).

(** [j] is one of the identities of [R]. *)
Definition mem (R : list nat) (j : nat) : bool := existsb (Nat.eqb j) R.

(** The body of the loop of [remove_empty_tags], and the identities it has
    removed from [top] after it ran from the identities [R]. *)
Definition empty_step (t : node) (el : node) : node :=
  match find_id (nid el) t with
  | None => t
  | Some el_now => if is_empty_tag el_now then Parser.remove el t else t
  end.

Definition empty_step_ids (top : node) (R : list nat) (el : node) : list nat :=
  match find_id (nid el) (remove_ids (mem R) top) with
  | None => R
  | Some el_now => if is_empty_tag el_now then nid el :: R else R
  end.

(** List-item normalization of one item, in the words of the spec: "set
    the item's text to its accumulated text followed by the newline marker,
    then drop all of the item's children". *)
Definition normalized (li : node) : node :=
  set_children [] (set_text (Parser.getText li ++ marker) li).

(** Every element of [t'] is, by its identity, an element of [t], and has no
    identity below it that the element of [t] has not. *)
Definition within (t' t : node) : Prop :=
  forall x', In x' (iter t') ->
             exists x, In x (iter t) /\ nid x = nid x' /\ incl (ids x') (ids x).

(** The list containers of the top node, the items of a container, and the
    items that the pass normalizes: all the items of each container but its
    last. *)
Definition ul_list (top : node) : list node := Parser.getElementsByTag top (py "ul").
Definition li_list (u : node) : list node := Parser.getElementsByTag u (py "li").
Definition targets (uls : list node) : list node :=
  flat_map (fun u => removelast (li_list u)) uls.

(** The lists of the top node are not nested: no list container is below a
    list container, and no item below an item. *)
Definition unnested_lists (top : node) : Prop :=
  forall u, In u (ul_list top) ->
            Parser.getElementsByTag u (py "ul") = []
            /\ forall li, In li (li_list u) -> Parser.getElementsByTag li (py "li") = [].

Definition update_all (T : list node) (t : node) : node :=
  fold_left (fun t li => update_id (nid li) normalized t) T t.

(** The body of the loop of [add_newline_to_li] over the list containers. *)
Definition outer_step (t e : node) : node :=
  match find_id (nid e) t with
  | None => t
  | Some e_now => fold_left normalize_item (removelast (li_list e_now)) t
  end.


(** Neither element is below the other. *)
Definition unrelated (w li : node) : Prop :=
  ~ In (nid li) (ids w) /\ ~ In (nid w) (ids li).

Section RerunSpec.
Context {B : PyBuiltins}.

(** The gravityScore of an element with this head, if it has one, parses. *)
Definition score_parses (h : nat * pystr * list (pystr * pystr)) : Prop :=
  match attr_get (py "gravityScore") (snd h) with
  | Some s => exists below, score_below_one (Some s) = Ok below
  | None => True
  end.

(** The gravityScore of an element with this head, if it has one, parses
    and is not less than 1. *)
Definition score_kept (h : nat * pystr * list (pystr * pystr)) : Prop :=
  match attr_get (py "gravityScore") (snd h) with
  | Some s => score_below_one (Some s) = Ok false
  | None => True
  end.

(** The trailing media trim has nothing to remove: fewer than three direct
    children, or a last direct child without children. *)
Definition trim_settled (t : node) : Prop :=
  length (children t) < 3
  \/ exists cs l, children t = cs ++ [l] /\ children l = [].

(** No list container has more than one item. *)
Definition lists_settled (t : node) : Prop :=
  forall u, In u (ul_list t) -> length (li_list u) <= 1.

End RerunSpec.

(** What an element leaves in its parent when the parent is stripped of
    [tags]: its children if it has one of the tags, itself otherwise. *)
Definition emitted (tags : list pystr) (c : node) : list node :=
  if str_in (tag c) tags then children c else [c].

(** The heads of the children emitted so far by a splice. *)
Definition state_heads (st : pystr * list node) :
  list (nat * pystr * list (pystr * pystr)) :=
  flat_map all_heads (rev (snd st)).

Module Examples.
Local Open Scope string_scope.

(** A paragraph whose text is a marker, a space, a marker and a letter: its
    first fragment is a single space. *)
Definition blank_first : node :=
  el 0 "div" [] "" "" [el 1 "p" [] "\n \nb" "" []].

(** Two paragraphs with the same single word. *)
Definition breaking_twice : node :=
  el 0 "div" [] "" ""
     [el 1 "p" [] "Breaking" "" []; el 2 "p" [] "Breaking" "" []].

(** An excluded element and an element with nothing in it. *)
Definition figure_caption : node := el 1 "figure" [] "caption" "" [].
Definition empty_div : node := el 2 "div" [] "" "" [].
Definition figure_then_text : node :=
  el 0 "div" [] "" "" [figure_caption; el 3 "p" [] "two words" "" []].

(** Texts with a space next to the marker, and with only a space between
    two markers. *)
Definition space_by_marker : node := el 1 "p" [] "a \n b" "" [].
Definition space_between_markers : node := el 1 "p" [] "a\n \nb" "" [].

(** Texts with runs of spaces at the ends and around the marker, and with
    a run of spaces between two markers. *)
Definition spaces_by_marker : node := el 1 "p" [] "  a   \n   b  " "" [].
Definition spaces_between_markers : node := el 1 "p" [] "a\n   \nb" "" [].

(** Four direct children, the last of nesting depth 3; and two direct
    children, the last as deep. *)
Definition deep_last : node :=
  el 9 "div" [] "" "" [el 10 "div" [] "" "" [el 11 "a" [] "related" "" []]].
Definition four_children : node :=
  el 0 "div" [] "" ""
     [el 1 "p" [] "one" "" []; el 2 "p" [] "two" "" []; el 3 "p" [] "three" "" [];
      deep_last].
Definition two_children : node :=
  el 0 "div" [] "" "" [el 1 "p" [] "one" "" []; deep_last].

(** A paragraph whose gravityScore is not a number, and two with the
    scores of the spec's examples.  In [unparsable_score] and in
    [scored_both] the element has the attribute in two spellings: in lower
    case, as an HTML parser stores the names it reads, and as
    [gravityScore], the name [getAttribute] is called with, set on the
    element after the parse.  Such an element is selected also where the
    selector matches the names in lower case, and its score is the value
    under [gravityScore]. *)
Definition unparsable_score : node :=
  el 0 "div" [] "" ""
     [el 1 "p" [("gravityscore", "abc"); ("gravityScore", "abc")] "some text here" "" [];
      el 2 "p" [] "more text here" "" []].
Definition scored_both : node :=
  el 0 "div" [] "" ""
     [el 1 "p" [("gravityscore", "0.4"); ("gravityScore", "0.4")] "low" ""
         [el 3 "span" [] "inside" "" []];
      el 2 "p" [("gravityscore", "2.5"); ("gravityScore", "2.5")] "high" "" []].
Definition scored : node :=
  el 0 "div" [] "" ""
     [el 1 "p" [("gravityScore", "0.4")] "low" "" [el 3 "span" [] "inside" "" []];
      el 2 "p" [("gravityScore", "2.5")] "high" "" []].

(** The list of the spec's example, alone in the top node and after a
    paragraph; and what the cleanup makes of the first. *)
Definition abc_items : node :=
  el 1 "ul" [] "" "" [el 2 "li" [] "A" "" []; el 3 "li" [] "B" "" []; el 4 "li" [] "C" "" []].
Definition abc_list : node := el 0 "div" [] "" "" [abc_items].
Definition abc_list_cleaned : node :=
  el 0 "div" [] "" ""
     [el 1 "ul" [] "" ""
         [el 2 "li" [] "A\n" "" []; el 3 "li" [] "B\n" "" []; el 4 "li" [] "C" "" []]].
Definition abc_list_cleaned_twice : node :=
  el 0 "div" [] "" ""
     [el 1 "ul" [] "" ""
         [el 2 "li" [] "A\n\n" "" []; el 3 "li" [] "B\n\n" "" []; el 4 "li" [] "C" "" []]].


(** What the cleanup leaves of [scored]. *)
Definition scored_cleaned : node :=
  el 0 "div" [] "" "" [el 2 "p" [("gravityScore", "2.5")] "high" "" []].

(** Five paragraphs, the last two with an element inside. *)
Definition two_deep_last : node :=
  el 0 "div" [] "" ""
     [el 1 "p" [] "one" "" []; el 2 "p" [] "two" "" []; el 3 "p" [] "three" "" [];
      el 4 "p" [] "four" "" [el 5 "span" [] "more" "" []];
      el 6 "p" [] "five" "" [el 7 "span" [] "related" "" []]].
Definition two_deep_last_cleaned : node :=
  el 0 "div" [] "" ""
     [el 1 "p" [] "one" "" []; el 2 "p" [] "two" "" []; el 3 "p" [] "three" "" [];
      el 4 "p" [] "four" "" [el 5 "span" [] "more" "" []]].
Definition two_deep_last_cleaned_twice : node :=
  el 0 "div" [] "" ""
     [el 1 "p" [] "one" "" []; el 2 "p" [] "two" "" []; el 3 "p" [] "three" "" []].

End Examples.

(** ** Further descriptions of the passes and of the extractor *)

Section BelowSpec.
Context {B : PyBuiltins}.

(** What one visited element gives: the parts of its text, unless it is
    excluded or has no text. *)
Definition own_parts (title : option pystr) (parent : option node) (n : node)
  : list pystr :=
  if is_excluded parent n then []
  else if nonempty (text n) then yield_parts title (innerTrim (unescape (text n)))
       else [].

(** The fragments of a subtree, element by element: the parts of the element
    itself, then those of its children's subtrees; an excluded element loses
    its own parts only. *)
Fixpoint below (title : option pystr) (parent : option node) (n : node) {struct n}
  : list pystr :=
  own_parts title parent n ++ flat_map (below title (Some n)) (children n).

End BelowSpec.

(** Setting the text of every element below [n] that satisfies [P]. *)
Fixpoint set_text_where (P : node -> bool) (x : pystr) (n : node) {struct n} : node :=
  set_children
    (map (fun c => let c' := set_text_where P x c in
                   if P c then set_text x c' else c')
         (children n)) n.

Definition is_br (d : node) : bool := str_eqb (tag d) (py "br").

(** All the text inside an element, in document order, as one string. *)
Fixpoint text_of (n : node) {struct n} : pystr :=
  text n ++ flat_map (fun c => text_of c ++ tail c) (children n).

(** The text gathered by a splice: the parent's text and the texts and
    tails of the children emitted so far. *)
Definition state_text (st : pystr * list node) : pystr :=
  fst st ++ flat_map (fun c => text_of c ++ tail c) (rev (snd st)).

(** The tree without any tail. *)
Fixpoint strip_tails (n : node) {struct n} : node :=
  Node (nid n) (tag n) (attrib n) (text n) [] (map strip_tails (children n)).

(** What the extractor reads of a visited element. *)
Definition visit_key (pc : option node * node) : bool * pystr :=
  (is_excluded (fst pc) (snd pc), text (snd pc)).

(** Two parents are the same for the exclusion of a child: both absent, or
    with the same tag and both with or without children. *)
Definition same_parent (p q : option node) : Prop :=
  match p, q with
  | None, None => True
  | Some a, Some b => tag a = tag b /\ elem_bool a = elem_bool b
  | _, _ => False
  end.

Module MoreExamples.
Local Open Scope string_scope.

(** A figure with a caption inside. *)
Definition figure : node :=
  el 1 "figure" [] "" "" [el 2 "p" [] "a caption here" "" []].

(** A paragraph that becomes empty once its empty child is removed, beside
    a paragraph with text. *)
Definition hollow : node :=
  el 0 "div" [] "" ""
     [el 1 "p" [] "" "" [el 2 "span" [] " " "" []]; el 3 "p" [] "some text" "" []].

(** A top node with a single-item list. *)
Definition one_item : node :=
  el 0 "div" [] "" "" [el 1 "ul" [] "" "" [el 2 "li" [] "only" "" []]].

(** Two line breaks, one inside a paragraph. *)
Definition two_breaks : node :=
  el 0 "div" [] "" ""
     [el 1 "p" [] "first" "" [el 2 "br" [] "" "second" []]; el 3 "br" [] "" "" []].

End MoreExamples.

(** * Proofs *)

Unset Implicit Arguments.

(** ** Strings *)

Lemma str_eqb_eq (a b : pystr) : str_eqb a b = true <-> a = b.
Proof.
  revert b; induction a as [|x a IH]; intros [|y b]; simpl; split;
    try congruence; try reflexivity.
  - intros H. apply andb_true_iff in H as [Hx Ha].
    apply N.eqb_eq in Hx. apply IH in Ha. congruence.
  - intros H. injection H as -> ->.
    rewrite N.eqb_refl. simpl. apply IH. reflexivity.
Qed.

Lemma str_in_In (x : pystr) (l : list pystr) : str_in x l = true <-> In x l.
Proof.
  unfold str_in. rewrite existsb_exists. split.
  - intros (y & Hy & E). apply str_eqb_eq in E. subst. exact Hy.
  - intros H. exists x. split; [exact H | apply str_eqb_eq; reflexivity].
Qed.

Lemma classes_intersect_spec (n : node) (names : list pystr) :
  classes_intersect n names = true <-> exists c, In c (classes n) /\ In c names.
Proof.
  unfold classes_intersect. rewrite existsb_exists.
  split; intros (c & Hc & H); exists c; (split; [exact Hc|]); apply str_in_In; exact H.
Qed.

Lemma contains_nil (p : pystr) : nonempty p = true -> contains p [] = false.
Proof. destruct p; simpl; [discriminate | reflexivity]. Qed.

(** ** NodeTextExclusion *)

Section ExclusionProofs.
Import ExclusionSpec.

Lemma _is_tag_excluded_spec parent n :
  is_parent_of parent n ->
  (_is_tag_excluded parent n = true <-> tag_exclusion parent n).
Proof.
  intros Hp. unfold _is_tag_excluded, tag_exclusion.
  destruct (str_in (tag n) EXCLUDED_TAGS) eqn:E.
  - split; [intros _; left; apply str_in_In; exact E | reflexivity].
  - assert (Hn : ~ In (tag n) EXCLUDED_TAGS)
      by (rewrite <- str_in_In; congruence).
    destruct parent as [p|].
    + assert (Hb : elem_bool p = true).
      { unfold elem_bool. simpl in Hp. destruct (children p); [contradiction | reflexivity]. }
      rewrite Hb. cbn [andb].
      destruct (str_in (tag p) EXCLUDED_TAGS) eqn:E'.
      * split; [intros _; right; exists p; split; [reflexivity | apply str_in_In; exact E'] | reflexivity].
      * split; [discriminate|].
        intros [H | (q & Hq & H)]; [contradiction|].
        injection Hq as <-. apply str_in_In in H. congruence.
    + split; [discriminate|].
      intros [H | (q & Hq & _)]; [contradiction | discriminate].
Qed.

Lemma _has_ads_spec n : _has_ads n = true <-> ad_container n.
Proof.
  unfold _has_ads, ad_container.
  rewrite andb_true_iff, str_eqb_eq, classes_intersect_spec. reflexivity.
Qed.

Lemma _looks_like_object_description_spec n :
  _looks_like_object_description n = true <-> object_description_span n.
Proof.
  unfold _looks_like_object_description, object_description_span.
  rewrite andb_true_iff, str_eqb_eq, classes_intersect_spec. reflexivity.
Qed.

Lemma _looks_like_page_navigation_spec n :
  _looks_like_page_navigation n = true <-> page_navigation n.
Proof.
  unfold _looks_like_page_navigation, page_navigation.
  destruct (str_in (strip (text n)) PAGE_NAVIGATION) eqn:E.
  - split; [intros _; left; apply str_in_In; exact E | reflexivity].
  - assert (Hn : ~ In (strip (text n)) PAGE_NAVIGATION)
      by (rewrite <- str_in_In; congruence).
    destruct (str_eqb (tag n) (py "p")) eqn:Et; cbn [andb].
    + apply str_eqb_eq in Et.
      destruct (attr_get (py "id") (attrib n)) as [v|] eqn:Ea.
      * destruct (str_in v PAGE_NAVIGATION) eqn:Ev.
        -- split; [|reflexivity]. intros _. right. split; [exact Et|].
           exists v. split; [reflexivity | apply str_in_In; exact Ev].
        -- split; [discriminate|].
           intros [H | (_ & w & Hw & H)]; [contradiction|].
           injection Hw as <-. apply str_in_In in H. congruence.
      * split; [discriminate|].
        intros [H | (_ & w & Hw & _)]; [contradiction | discriminate].
    + split; [discriminate|].
      intros [H | (Ht & _)]; [contradiction|].
      apply str_eqb_eq in Ht. congruence.
Qed.

Lemma _has_ignored_class_spec n : _has_ignored_class n = true <-> ignored_class n.
Proof. apply classes_intersect_spec. Qed.

Lemma _ignored_by_content_spec n : _ignored_by_content n = true <-> ignored_content n.
Proof.
  unfold _ignored_by_content, ignored_content, IGNORED_TEXT_search.
  destruct (text n) as [|c s] eqn:E.
  - cbn [nonempty]. rewrite !contains_nil by reflexivity.
    split; [discriminate | intros [H|H]; discriminate].
  - cbn [nonempty]. apply orb_true_iff.
Qed.

(** The loop of [is_excluded] is the disjunction of the six methods, taken
    in their order. *)
Lemma is_excluded_orb parent n :
  is_excluded parent n =
    (_is_tag_excluded parent n || _has_ads n || _looks_like_object_description n
     || _looks_like_page_navigation n || _has_ignored_class n || _ignored_by_content n).
Proof.
  unfold is_excluded, filter_methods, first_match.
  destruct (_is_tag_excluded parent n), (_has_ads n),
    (_looks_like_object_description n), (_looks_like_page_navigation n),
    (_has_ignored_class n), (_ignored_by_content n); reflexivity.
Qed.

(** C2, as amended: [is_excluded] holds exactly when one of the six
    conditions does, where the page-navigation condition compares the
    trimmed text, and for a [p] the id, with either of the two sentinels of
    [PAGE_NAVIGATION]; a node matching none of the six is not excluded. *)
Theorem C2_is_excluded_iff (parent : option node) (n : node) :
  is_parent_of parent n ->
  (is_excluded parent n = true <-> excluded parent n)
  /\ (~ excluded parent n -> is_excluded parent n = false).
Proof.
  intros Hp.
  assert (E : is_excluded parent n = true <-> excluded parent n).
  { rewrite is_excluded_orb. unfold excluded.
    rewrite !orb_true_iff.
    rewrite (_is_tag_excluded_spec parent n Hp), _has_ads_spec,
      _looks_like_object_description_spec, _looks_like_page_navigation_spec,
      _has_ignored_class_spec, _ignored_by_content_spec.
    tauto. }
  split; [exact E|].
  intros Hn. destruct (is_excluded parent n); [|reflexivity].
  exfalso. apply Hn, E. reflexivity.
Qed.

Lemma C2_is_excluded_iff_witness :
  is_parent_of None prevnext_div
  /\ (is_excluded None prevnext_div = true <-> excluded None prevnext_div).
Proof.
  split; [exact I|].
  exact (proj1 (C2_is_excluded_iff None prevnext_div I)).
Defined.

(** C2 as stated fails: a [div] whose text is the sentinel id [prevnext]
    is excluded, by the page-navigation method, and meets none of the six
    conditions of the claim. *)
Lemma C2_counterexample :
  is_excluded None prevnext_div = true
  /\ ~ excluded_claimed None prevnext_div.
Proof.
  split; [reflexivity|].
  unfold excluded_claimed, tag_exclusion, ad_container, object_description_span,
    page_navigation_claimed, ignored_class, ignored_content.
  intros [H | [H | [H | [H | [H | H]]]]].
  - destruct H as [H | (p & Hp & _)]; [|discriminate].
    vm_compute in H. intuition discriminate.
  - destruct H as [_ (c & H & _)]. vm_compute in H. exact H.
  - destruct H as [H _]. vm_compute in H. discriminate.
  - destruct H as [H | [H _]]; vm_compute in H; discriminate.
  - destruct H as (c & H & _). vm_compute in H. exact H.
  - destruct H as [H | H]; vm_compute in H; discriminate.
Qed.

End ExclusionProofs.

(** ** Splitting on the newline marker *)

Lemma split_marker_cons2 (c d : N) (s : pystr) :
  split_marker (c :: d :: s)
  = if (c =? 92)%N && (d =? 110)%N
    then [] :: split_marker s
    else cons_first c (split_marker (d :: s)).
Proof. reflexivity. Qed.

Lemma split_marker_not_nil (s : pystr) : split_marker s <> [].
Proof.
  destruct s as [|c [|d s]]; [discriminate | discriminate |].
  rewrite split_marker_cons2.
  destruct ((c =? 92)%N && (d =? 110)%N); [discriminate|].
  unfold cons_first. destruct (split_marker (d :: s)); discriminate.
Qed.

(** The first piece of a split is empty or begins with the first character. *)
Lemma split_marker_head (d : N) (s : pystr) :
  exists p ps, split_marker (d :: s) = p :: ps /\ (p = [] \/ exists q, p = d :: q).
Proof.
  destruct s as [|e s].
  - exists [d], []. split; [reflexivity | right; exists []; reflexivity].
  - rewrite split_marker_cons2.
    destruct ((d =? 92)%N && (e =? 110)%N).
    + exists [], (split_marker s). split; [reflexivity | left; reflexivity].
    + destruct (split_marker (e :: s)) as [|p ps] eqn:E.
      * exists [d], []. split; [reflexivity | right; exists []; reflexivity].
      * exists (d :: p), ps. split; [reflexivity | right; exists p; reflexivity].
Qed.

Lemma contains_marker_cons (c : N) (p : pystr) :
  contains marker (c :: p)
  = ((c =? 92)%N && match p with d :: _ => (d =? 110)%N | [] => false end)
    || contains marker p.
Proof.
  cbn [contains marker starts_with]. rewrite (N.eqb_sym 92 c).
  destruct p as [|d p]; [reflexivity|].
  cbn [starts_with]. rewrite (N.eqb_sym 110 d), andb_true_r. reflexivity.
Qed.

Lemma split_marker_no_marker_len (k : nat) :
  forall s, length s <= k -> Forall no_marker (split_marker s).
Proof.
  induction k as [|k IH]; intros s Hs.
  - destruct s; [|simpl in Hs; lia]. repeat constructor.
  - destruct s as [|c [|d s]].
    + repeat constructor.
    + constructor; [|constructor].
      unfold no_marker. rewrite contains_marker_cons.
      cbn [contains marker starts_with]. rewrite andb_false_r. reflexivity.
    + rewrite split_marker_cons2.
      destruct ((c =? 92)%N && (d =? 110)%N) eqn:E.
      * constructor; [reflexivity|]. apply IH. simpl in Hs. lia.
      * assert (Hr : Forall no_marker (split_marker (d :: s)))
          by (apply IH; simpl in *; lia).
        destruct (split_marker_head d s) as (p & ps & Ep & Hp).
        rewrite Ep in Hr |- *. cbn [cons_first].
        inversion Hr as [|? ? Hp1 Hps]; subst.
        constructor; [|exact Hps].
        unfold no_marker in *. rewrite contains_marker_cons, Hp1, orb_false_r.
        destruct Hp as [-> | (q & ->)]; [apply andb_false_r | exact E].
Qed.

(** No piece of [s.split(r'\n')] contains the marker. *)
Lemma split_marker_no_marker (s : pystr) : Forall no_marker (split_marker s).
Proof. apply (split_marker_no_marker_len (length s)). lia. Qed.

Lemma no_marker_app_sep (a b : pystr) :
  no_marker a -> no_marker b -> no_marker (a ++ 10%N :: 10%N :: b).
Proof.
  unfold no_marker. intros Ha Hb. induction a as [|x a IH].
  - cbn [app]. rewrite !contains_marker_cons.
    change (10 =? 92)%N with false. cbn [andb orb]. exact Hb.
  - rewrite contains_marker_cons in Ha. apply orb_false_iff in Ha as [Hx Ha].
    cbn [app]. rewrite contains_marker_cons, (IH Ha), orb_false_r.
    destruct a as [|y a]; [|exact Hx].
    cbn [app]. change (10 =? 110)%N with false. apply andb_false_r.
Qed.

Lemma no_marker_join (l : list pystr) :
  Forall no_marker l -> no_marker (join [10; 10]%N l).
Proof.
  induction l as [|x l IH]; intros H; [reflexivity|].
  inversion H as [|? ? Hx Hl]; subst. cbn [join].
  destruct l as [|y l]; [exact Hx|].
  apply (no_marker_app_sep x (join [10; 10]%N (y :: l))); [exact Hx | apply IH; exact Hl].
Qed.

(** ** NodeTextExtractor and convert_to_text *)

Section ExtractorProofs.
Context {B : PyBuiltins}.

Lemma yield_parts_no_marker title s : Forall no_marker (yield_parts title s).
Proof.
  unfold yield_parts. apply Forall_forall. intros p Hp.
  apply filter_In in Hp as [Hp _]. apply filter_In in Hp as [Hp _].
  exact (proj1 (Forall_forall _ _) (split_marker_no_marker s) p Hp).
Qed.

Lemma yield_parts_nonempty title s :
  Forall (fun p => nonempty p = true) (yield_parts title s).
Proof.
  unfold yield_parts. apply Forall_forall. intros p Hp.
  apply filter_In in Hp as [Hp _]. apply filter_In in Hp as [_ Hp]. exact Hp.
Qed.

Lemma Forall_flat_map_intro {A C : Type} (P : C -> Prop) (f : A -> list C) (l : list A) :
  (forall x, Forall P (f x)) -> Forall P (flat_map f l).
Proof.
  intros H. induction l as [|x l IH]; cbn [flat_map]; [constructor|].
  apply Forall_app. split; [apply H | exact IH].
Qed.

Lemma extract_text_body_all (P : pystr -> Prop) parent n title :
  (forall s, Forall P (yield_parts title s)) ->
  Forall P (extract_text_body parent n title).
Proof.
  intros H. unfold extract_text_body.
  destruct (is_excluded parent n); [constructor|].
  apply Forall_flat_map_intro. exact H.
Qed.

Lemma flattened_elements_all (P : pystr -> Prop) top title :
  (forall s, Forall P (yield_parts title s)) ->
  Forall P (flattened_elements top title).
Proof.
  intros H. unfold flattened_elements.
  apply Forall_forall. intros p Hp.
  apply in_flat_map in Hp as (v & Hv & Hp).
  apply filter_In in Hv as [Hv _].
  apply in_map_iff in Hv as (c & <- & _).
  cbn [extract_text fragments] in Hp.
  exact (proj1 (Forall_forall _ _) (extract_text_body_all P (Some top) c title H) p Hp).
Qed.

Lemma convert_to_text_of_retained top title :
  convert_to_text_of top title = join [10; 10]%N (retained top title).
Proof.
  unfold convert_to_text_of, retained.
  destruct (flattened_elements top title) as [|f rest]; [reflexivity|].
  cbn [tl]. destruct (keeps_first f); reflexivity.
Qed.

Lemma retained_all (P : pystr -> Prop) top title :
  Forall P (flattened_elements top title) -> Forall P (retained top title).
Proof.
  unfold retained. intros H.
  destruct (flattened_elements top title) as [|f rest]; [constructor|].
  destruct (keeps_first f); [exact H | inversion H; assumption].
Qed.

(** C3: no fragment that [extract_text] yields contains the newline marker,
    so the text of [convert_to_text] is a join of fragments without the
    marker, and the marker does not occur in the joined text either. *)
Theorem C3_no_marker_in_fragments (parent : option node) (n top : node)
        (title : option pystr) :
  Forall (fun part => contains marker part = false)
         (fragments (extract_text parent n title))
  /\ (exists parts,
         convert_to_text (Some top) title = Ok (join [10; 10]%N parts)
         /\ Forall (fun part => contains marker part = false) parts)
  /\ contains marker (convert_to_text_of top title) = false.
Proof.
  assert (Hf : Forall no_marker (retained top title)).
  { apply retained_all, flattened_elements_all, yield_parts_no_marker. }
  split; [|split].
  - cbn [extract_text fragments].
    apply (extract_text_body_all no_marker), yield_parts_no_marker.
  - exists (retained top title). split; [|exact Hf].
    cbn [convert_to_text]. rewrite convert_to_text_of_retained. reflexivity.
  - rewrite convert_to_text_of_retained. apply no_marker_join. exact Hf.
Qed.

Lemma retained_by_words_eq top title :
  retained top title = retained_by_words top title.
Proof.
  unfold retained, retained_by_words.
  pose proof (flattened_elements_all (fun p => nonempty p = true) top title
                (yield_parts_nonempty title)) as H.
  destruct (flattened_elements top title) as [|f rest]; [reflexivity|].
  inversion H as [|? ? Hf _]; subst.
  unfold keeps_first. rewrite Hf. cbn [andb].
  destruct (length (split_ws f) =? 1); reflexivity.
Qed.

(** C5, as amended: [convert_to_text] drops the first fragment exactly when
    it has one whitespace-separated word (a first fragment without any
    word is kept) and joins what it retains with a blank line between
    fragments and nothing after the last; when the first fragment is one
    word the text is the join of the fragments after it. *)
Theorem C5_convert_to_text (top : node) (title : option pystr) :
  convert_to_text (Some top) title
  = Ok (join [10; 10]%N (retained_by_words top title))
  /\ (forall first_element rest,
         flattened_elements top title = first_element :: rest ->
         (length (split_ws first_element) = 1 ->
          convert_to_text (Some top) title = Ok (join [10; 10]%N rest))
         /\ (length (split_ws first_element) <> 1 ->
             convert_to_text (Some top) title
             = Ok (join [10; 10]%N (first_element :: rest)))).
Proof.
  assert (E : convert_to_text (Some top) title
              = Ok (join [10; 10]%N (retained_by_words top title))).
  { cbn [convert_to_text].
    rewrite convert_to_text_of_retained, retained_by_words_eq. reflexivity. }
  split; [exact E|].
  intros f rest Hf. rewrite E. unfold retained_by_words. rewrite Hf.
  split; intros Hw.
  - rewrite Hw. reflexivity.
  - apply Nat.eqb_neq in Hw. rewrite Hw. reflexivity.
Qed.

(** An excluded node makes the generator end before its first [yield]. *)
Lemma extract_text_excluded parent n title :
  is_excluded parent n = true ->
  extract_text parent n title = PyGenerator [].
Proof.
  intros H. unfold extract_text, extract_text_body. rewrite H. reflexivity.
Qed.

(** C7, on the code: for an excluded element [extract_text] yields no
    fragment, and what it returns is the generator object that an element
    with nothing in it gives as well; it is true, so the [filter] of
    [convert_to_text] keeps it. *)
Theorem C7_excluded_is_empty_generator (title : option pystr) :
  is_excluded None Examples.figure_caption = true
  /\ is_excluded None Examples.empty_div = false
  /\ extract_text None Examples.figure_caption title = PyGenerator []
  /\ extract_text None Examples.figure_caption title
     = extract_text None Examples.empty_div title
  /\ truthy (extract_text None Examples.figure_caption title) = true.
Proof.
  repeat split; reflexivity.
Qed.

(** C10: the text of an element is normalized as a whole, after the
    unescaping and before it is split at the markers, and the parts are
    yielded as they are.  The runs of spaces around a marker are collapsed
    to one space, which stays at the end or the start of a fragment; a
    split before the normalization would yield the parts with all their
    spaces, and a normalization of the parts would yield them without any.
    A part that is a single space is yielded, although trimming it would
    leave the empty string. *)
Theorem C10_fragments_keep_spaces :
  (forall parent n title,
      children n = [] -> is_excluded parent n = false -> nonempty (text n) = true ->
      extract_text parent n title
      = PyGenerator (yield_parts title (innerTrim (unescape (text n)))))
  /\ extract_text None Examples.spaces_by_marker None
     = PyGenerator [py "a "; py " b"]
  /\ filter nonempty (split_marker (text Examples.spaces_by_marker))
     = [py "  a   "; py "   b  "]
  /\ map innerTrim (filter nonempty (split_marker (text Examples.spaces_by_marker)))
     = [py "a"; py "b"]
  /\ extract_text None Examples.spaces_between_markers None
     = PyGenerator [py "a"; py " "; py "b"]
  /\ filter nonempty (map innerTrim (split_marker (text Examples.spaces_between_markers)))
     = [py "a"; py "b"]
  /\ extract_text None Examples.space_by_marker None
     = PyGenerator [py "a "; py " b"]
  /\ extract_text None Examples.space_between_markers None
     = PyGenerator [py "a"; py " "; py "b"]
  /\ strip (py " ") = []
  /\ innerTrim (py " ") = [].
Proof.
  split.
  { intros parent [i t a tx tl cs] title Hc Hex Hne. cbn [children text] in *. subst cs.
    unfold extract_text, extract_text_body. rewrite Hex.
    cbn [iter_from children flat_map filter fst snd app].
    rewrite Hex. cbn [negb filter text snd]. rewrite Hne.
    cbn [map flat_map snd text]. rewrite app_nil_r. reflexivity. }
  unfold extract_text, extract_text_body.
  repeat split; try reflexivity.
  all: cbn -[unescape yield_parts]; rewrite unescape_plain by reflexivity; reflexivity.
Qed.

End ExtractorProofs.

(** C5 as stated fails.  A first fragment that is a single space has no
    word: the code keeps it, the claim drops it.  And when the first two
    fragments are the same single word, the text begins with that word. *)
Lemma C5_counterexample :
  flattened_elements (B := Builtins.ascii_builtins) Examples.blank_first None
  = [py " "; py "b"]
  /\ convert_to_text (B := Builtins.ascii_builtins) (Some Examples.blank_first) None
     = Ok [32; 10; 10; 98]%N
  /\ join [10; 10]%N (retained_claimed (B := Builtins.ascii_builtins) Examples.blank_first None)
     = py "b"
  /\ flattened_elements (B := Builtins.ascii_builtins) Examples.breaking_twice None
     = [py "Breaking"; py "Breaking"]
  /\ convert_to_text (B := Builtins.ascii_builtins) (Some Examples.breaking_twice) None
     = Ok (py "Breaking").
Proof. repeat split; reflexivity. Qed.

Lemma C5_convert_to_text_witness :
  flattened_elements (B := Builtins.ascii_builtins) Examples.breaking_twice None
  = [py "Breaking"; py "Breaking"]
  /\ convert_to_text (B := Builtins.ascii_builtins) (Some Examples.breaking_twice) None
     = Ok (join [10; 10]%N [py "Breaking"]).
Proof.
  split; [reflexivity|].
  exact (proj1 (proj2 (C5_convert_to_text (B := Builtins.ascii_builtins)
                         Examples.breaking_twice None)
                 (py "Breaking") [py "Breaking"] eq_refl) eq_refl).
Defined.

(** ** Trees and identities *)

Lemma ids_unfold (n : node) : ids n = nid n :: flat_map ids (children n).
Proof.
  unfold ids. destruct n as [i t a tx tl cs]. cbn [iter children nid map].
  f_equal. induction cs as [|c cs IH]; [reflexivity|].
  cbn [flat_map]. rewrite map_app, IH. reflexivity.
Qed.

Lemma iter_unfold (n : node) : iter n = n :: flat_map iter (children n).
Proof. destruct n; reflexivity. Qed.

Lemma descendants_in_iter (n d : node) : In d (descendants n) -> In d (iter n).
Proof. rewrite iter_unfold. intros H. right. exact H. Qed.

Lemma in_iter_ids (n d : node) : In d (iter n) -> In (nid d) (ids n).
Proof. intros H. unfold ids. apply in_map. exact H. Qed.

Lemma in_ids_iter (n : node) (i : nat) :
  In i (ids n) -> exists d, In d (iter n) /\ nid d = i.
Proof.
  unfold ids. intros H. apply in_map_iff in H as (d & E & H). exists d. split; assumption.
Qed.

Lemma in_children_iter (n c d : node) :
  In c (children n) -> In d (iter c) -> In d (descendants n).
Proof.
  intros Hc Hd. unfold descendants. apply in_flat_map. exists c. split; assumption.
Qed.

Lemma in_descendants (n d : node) :
  In d (descendants n) -> exists c, In c (children n) /\ In d (iter c).
Proof. unfold descendants. intros H. apply in_flat_map in H. exact H. Qed.

Lemma iter_trans (n : node) :
  forall c d, In c (iter n) -> In d (iter c) -> In d (iter n).
Proof.
  induction n as [i t a tx tl cs IH] using node_ind. intros c d Hc Hd.
  rewrite iter_unfold in Hc. destruct Hc as [<- | Hc]; [exact Hd|].
  rewrite iter_unfold. right. cbn [children] in *.
  apply in_flat_map in Hc as (k & Hk & Hc). apply in_flat_map. exists k.
  split; [exact Hk|]. rewrite Forall_forall in IH. exact (IH k Hk c d Hc Hd).
Qed.

Lemma NoDup_app_l {A : Type} (l1 l2 : list A) : NoDup (l1 ++ l2) -> NoDup l1.
Proof.
  induction l1 as [|x l1 IH]; intros H; [constructor|].
  inversion H as [|? ? Hx Hr]; subst. constructor.
  - intros Hin. apply Hx. apply in_or_app. left. exact Hin.
  - apply IH. exact Hr.
Qed.

Lemma NoDup_app_r {A : Type} (l1 l2 : list A) : NoDup (l1 ++ l2) -> NoDup l2.
Proof.
  induction l1 as [|x l1 IH]; intros H; [exact H|].
  inversion H; subst. apply IH. assumption.
Qed.

Lemma NoDup_app_disjoint {A : Type} (l1 l2 : list A) (x : A) :
  NoDup (l1 ++ l2) -> In x l1 -> In x l2 -> False.
Proof.
  induction l1 as [|y l1 IH]; intros H H1 H2; [contradiction|].
  inversion H as [|? ? Hy Hr]; subst. destruct H1 as [-> | H1].
  - apply Hy. apply in_or_app. right. exact H2.
  - exact (IH Hr H1 H2).
Qed.


(** The identities below a well-formed element are unique among its
    children's subtrees. *)
Lemma wf_forest (n : node) : wf n -> NoDup (flat_map ids (children n)).
Proof. unfold wf. rewrite ids_unfold. intros H. inversion H; assumption. Qed.

Lemma wf_root_fresh (n : node) : wf n -> ~ In (nid n) (flat_map ids (children n)).
Proof. unfold wf. rewrite ids_unfold. intros H. inversion H; assumption. Qed.

Lemma NoDup_flat_map_elem {A C : Type} (f : A -> list C) (l : list A) (x : A) :
  NoDup (flat_map f l) -> In x l -> NoDup (f x).
Proof.
  induction l as [|y l IH]; intros H Hx; [contradiction|].
  cbn [flat_map] in H. destruct Hx as [-> | Hx].
  - exact (NoDup_app_l _ _ H).
  - apply IH; [exact (NoDup_app_r _ _ H) | exact Hx].
Qed.

Lemma wf_child (n c : node) : wf n -> In c (children n) -> wf c.
Proof. intros H Hc. exact (NoDup_flat_map_elem ids _ c (wf_forest n H) Hc). Qed.

(** An identity that is not below [n] is not removed from it. *)
Lemma remove_id_absent (i : nat) (n : node) :
  ~ In i (flat_map ids (children n)) -> remove_id i n = n.
Proof.
  induction n as [j t a tx tl cs IH] using node_ind. cbn [children]. intros H.
  cbn [remove_id children set_children]. f_equal.
  induction cs as [|c cs IHcs]; [reflexivity|].
  inversion IH as [|? ? Hc Hcs]; subst.
  cbn [flat_map] in H |- *.
  assert (Hi : ~ In i (ids c)) by (intros Hin; apply H, in_or_app; left; exact Hin).
  assert (Hr : ~ In i (flat_map ids cs)) by (intros Hin; apply H, in_or_app; right; exact Hin).
  rewrite ids_unfold in Hi.
  destruct (nid c =? i) eqn:E.
  - apply Nat.eqb_eq in E. exfalso. apply Hi. left. exact E.
  - cbn [app]. rewrite Hc by (intros Hin; apply Hi; right; exact Hin).
    f_equal. apply IHcs; assumption.
Qed.

(** Removing by identity the last child of a well-formed element removes
    that child and nothing else. *)
Lemma remove_id_last_child (n l : node) (cs : list node) :
  wf n -> children n = cs ++ [l] -> remove_id (nid l) n = set_children cs n.
Proof.
  intros Hwf Hcs. pose proof (wf_forest n Hwf) as Hnd.
  destruct n as [j t a tx tl cs0]. cbn [children] in *. subst cs0.
  cbn [remove_id children set_children]. f_equal.
  rewrite flat_map_app in Hnd |- *. cbn [flat_map] in Hnd |- *.
  rewrite Nat.eqb_refl. cbn [app]. rewrite !app_nil_r in *.
  assert (Hl : In (nid l) (ids l)) by (rewrite ids_unfold; left; reflexivity).
  clear Hwf. induction cs as [|c cs IH]; [reflexivity|].
  cbn [flat_map app] in Hnd |- *.
  assert (Hc : ~ In (nid l) (ids c)).
  { intros Hin.
    apply (NoDup_app_disjoint (ids c ++ flat_map ids cs) (ids l) (nid l) Hnd);
      [apply in_or_app; left; exact Hin | exact Hl]. }
  rewrite <- app_assoc in Hnd.
  destruct (nid c =? nid l) eqn:E.
  - apply Nat.eqb_eq in E. exfalso. apply Hc. rewrite ids_unfold. left. exact E.
  - cbn [app]. rewrite remove_id_absent.
    + f_equal. apply IH. exact (NoDup_app_r _ _ Hnd).
    + intros Hin. apply Hc. rewrite ids_unfold. right. exact Hin.
Qed.

(** ** Trailing media trim *)

Section TrimProofs.

Lemma max_over_spec (g : node -> nat) (cs : list node) (m : nat) :
  max_over g cs m = Nat.max m (fold_right (fun c r => Nat.max (g c) r) 0 cs).
Proof.
  revert m. induction cs as [|c cs IH]; intros m; cbn [max_over fold_right].
  - lia.
  - rewrite IH. destruct (m <? g c) eqn:E.
    + apply Nat.ltb_lt in E. lia.
    + apply Nat.ltb_ge in E. lia.
Qed.

Lemma fold_max_shift (d : nat) (g h : node -> nat) (cs : list node) :
  cs <> [] ->
  Forall (fun c => g c = d + h c) cs ->
  fold_right (fun c r => Nat.max (g c) r) 0 cs
  = d + fold_right (fun c r => Nat.max (h c) r) 0 cs.
Proof.
  induction cs as [|c cs IH]; intros Hne H; [congruence|].
  inversion H as [|? ? Hc Hcs]; subst. cbn [fold_right]. rewrite Hc.
  destruct cs as [|c' cs]; [cbn [fold_right]; lia|].
  rewrite IH by (congruence || assumption). lia.
Qed.

(** [get_depth], which hands the depth down and takes the maximum at the
    leaves, computes the nesting depth of the spec. *)
Lemma get_depth_nesting_depth (n : node) :
  forall depth, get_depth n depth = depth + nesting_depth n - 1.
Proof.
  induction n as [i t a tx tl cs IH] using node_ind. intros depth.
  destruct cs as [|c cs]; [cbn; lia|].
  change (get_depth (Node i t a tx tl (c :: cs)) depth)
    with (max_over (fun k => get_depth k (depth + 1)) (c :: cs) 0).
  rewrite max_over_spec.
  assert (Hs : Forall (fun k => get_depth k (depth + 1) = depth + nesting_depth k) (c :: cs)).
  { apply (Forall_impl _ (P := fun k => forall d, get_depth k d = d + nesting_depth k - 1));
      [|exact IH].
    intros k Hk. rewrite Hk. destruct k; cbn [nesting_depth]. lia. }
  rewrite (fold_max_shift depth _ nesting_depth (c :: cs)); [|discriminate|exact Hs].
  change (nesting_depth (Node i t a tx tl (c :: cs)))
    with (S (fold_right (fun k m => Nat.max (nesting_depth k) m) 0 (c :: cs))).
  lia.
Qed.

Lemma last_map_Some (cs : list node) (l : node) :
  last (map Some (cs ++ [l])) None = Some l.
Proof.
  induction cs as [|c cs IH]; [reflexivity|].
  cbn [map app]. cbn [map app] in IH.
  destruct (map Some (cs ++ [l])) as [|x xs] eqn:E.
  - destruct cs; discriminate.
  - change (last (Some c :: x :: xs) None) with (last (x :: xs) None). exact IH.
Qed.

(** C9: with fewer than three direct children the top node is left as it
    is; otherwise its last direct child is removed, and only that child,
    exactly when the nesting depth of the child's subtree (a leaf has depth
    1, a parent one more than the deepest of its children) is at least 2.
    [get_depth] computes that nesting depth. *)
Theorem C9_trailing_media_trim (top : node) :
  wf top ->
  (forall l, get_depth l 1 = nesting_depth l)
  /\ (length (children top) < 3 -> remove_trailing_media_div top = top)
  /\ (forall cs l,
         children top = cs ++ [l] -> 3 <= length (children top) ->
         remove_trailing_media_div top
         = if 2 <=? nesting_depth l then without_last_child top else top).
Proof.
  intros Hwf. split; [|split].
  - intros l. rewrite get_depth_nesting_depth. destruct l; cbn [nesting_depth]. lia.
  - intros H. unfold remove_trailing_media_div, Parser.getChildren.
    apply Nat.ltb_lt in H. rewrite H. reflexivity.
  - intros cs l Hcs Hlen. unfold remove_trailing_media_div, Parser.getChildren.
    apply Nat.ltb_ge in Hlen. rewrite Hlen, Hcs, last_map_Some.
    rewrite get_depth_nesting_depth.
    replace (1 + nesting_depth l - 1) with (nesting_depth l) by lia.
    destruct (2 <=? nesting_depth l); [|reflexivity].
    unfold Parser.remove, without_last_child.
    rewrite (remove_id_last_child top l cs Hwf Hcs), Hcs, removelast_last.
    reflexivity.
Qed.

Lemma C9_trailing_media_trim_witness :
  wf Examples.four_children
  /\ remove_trailing_media_div Examples.four_children
     = without_last_child Examples.four_children
  /\ remove_trailing_media_div Examples.two_children = Examples.two_children.
Proof.
  assert (Hwf : wf Examples.four_children).
  { unfold wf. cbv. repeat constructor; cbn; intuition discriminate. }
  split; [exact Hwf|]. split.
  - assert (Hlen : 3 <= length (children Examples.four_children)) by (cbn; lia).
    exact (proj2 (proj2 (C9_trailing_media_trim Examples.four_children Hwf))
             (removelast (children Examples.four_children)) Examples.deep_last
             eq_refl Hlen).
  - reflexivity.
Defined.

End TrimProofs.

(** ** Score pruning *)

Lemma remove_ids_ext (P Q : nat -> bool) (n : node) :
  (forall d, In d (descendants n) -> P (nid d) = Q (nid d)) ->
  remove_ids P n = remove_ids Q n.
Proof.
  induction n as [j t a tx tl cs IH] using node_ind. intros H.
  cbn [remove_ids children set_children]. f_equal.
  assert (Hd : forall c d, In c cs -> In d (iter c) -> P (nid d) = Q (nid d)).
  { intros c d Hc Hd. apply H. exact (in_children_iter (Node j t a tx tl cs) c d Hc Hd). }
  clear H. induction cs as [|c cs IHcs]; [reflexivity|].
  inversion IH as [|? ? Hc Hcs]; subst. cbn [flat_map].
  rewrite (Hd c c) by (try (left; reflexivity); rewrite iter_unfold; left; reflexivity).
  rewrite Hc by (intros d Hin; apply (Hd c d); [left; reflexivity | apply descendants_in_iter; exact Hin]).
  f_equal. apply IHcs; [exact Hcs|].
  intros c' d Hc' Hin. apply (Hd c' d); [right; exact Hc' | exact Hin].
Qed.

Lemma remove_ids_none (n : node) : remove_ids (fun _ => false) n = n.
Proof.
  induction n as [j t a tx tl cs IH] using node_ind.
  cbn [remove_ids children set_children]. f_equal.
  induction cs as [|c cs IHcs]; [reflexivity|].
  inversion IH as [|? ? Hc Hcs]; subst. cbn [flat_map app].
  rewrite Hc. f_equal. apply IHcs. exact Hcs.
Qed.

(** Detaching one more identity. *)
Lemma remove_id_remove_ids (i : nat) (P : nat -> bool) (n : node) :
  remove_id i (remove_ids P n) = remove_ids (fun j => P j || (j =? i)) n.
Proof.
  induction n as [j t a tx tl cs IH] using node_ind.
  cbn [remove_ids remove_id children set_children]. f_equal.
  induction cs as [|c cs IHcs]; [reflexivity|].
  inversion IH as [|? ? Hc Hcs]; subst. cbn [flat_map].
  rewrite flat_map_app, (IHcs Hcs).
  destruct (P (nid c)); cbn [orb flat_map app]; [reflexivity|].
  assert (En : nid (remove_ids P c) = nid c) by (destruct c; reflexivity).
  rewrite En. destruct (nid c =? i); cbn [app]; [reflexivity|].
  rewrite Hc. reflexivity.
Qed.

Lemma fold_remove_ids {A : Type} (sel : A -> bool) (key : A -> nat) (items : list A) :
  forall (P : nat -> bool) (n : node),
    fold_left (fun t item => if sel item then remove_id (key item) t else t)
              items (remove_ids P n)
    = remove_ids (fun j => P j || existsb (fun item => sel item && (key item =? j)) items) n.
Proof.
  induction items as [|x items IH]; intros P n; cbn [fold_left existsb].
  - apply remove_ids_ext. intros d _. rewrite orb_false_r. reflexivity.
  - destruct (sel x) eqn:E.
    + rewrite remove_id_remove_ids, IH. apply remove_ids_ext. intros d _.
      cbn [andb]. rewrite (Nat.eqb_sym (key x)), orb_assoc. reflexivity.
    + rewrite IH. apply remove_ids_ext. intros d _. reflexivity.
Qed.

(** In a well-formed tree an identity names one element. *)
Lemma wf_nid_inj (n d1 d2 : node) :
  wf n -> In d1 (iter n) -> In d2 (iter n) -> nid d1 = nid d2 -> d1 = d2.
Proof.
  unfold wf, ids. generalize (iter n). intros l H.
  induction l as [|x l IH]; intros H1 H2 E; [contradiction|].
  cbn [map] in H. inversion H as [|? ? Hx Hl]; subst.
  destruct H1 as [-> | H1], H2 as [-> | H2].
  - reflexivity.
  - exfalso. apply Hx. rewrite E. apply in_map. exact H2.
  - exfalso. apply Hx. rewrite <- E. apply in_map. exact H1.
  - exact (IH Hl H1 H2 E).
Qed.

Lemma prune_remove_ids (low : node -> bool) (P : nat -> bool) (n : node) :
  (forall d, In d (descendants n) -> P (nid d) = low d) ->
  remove_ids P n = prune low n.
Proof.
  induction n as [j t a tx tl cs IH] using node_ind. intros H.
  cbn [remove_ids prune children set_children]. f_equal.
  assert (Hd : forall c d, In c cs -> In d (iter c) -> P (nid d) = low d).
  { intros c d Hc Hd. apply H. exact (in_children_iter (Node j t a tx tl cs) c d Hc Hd). }
  clear H. induction cs as [|c cs IHcs]; [reflexivity|].
  inversion IH as [|? ? Hc Hcs]; subst. cbn [flat_map].
  rewrite (Hd c c) by (try (left; reflexivity); rewrite iter_unfold; left; reflexivity).
  rewrite Hc by (intros d Hin; apply (Hd c d); [left; reflexivity | apply descendants_in_iter; exact Hin]).
  f_equal. apply IHcs; [exact Hcs|].
  intros c' d Hc' Hin. apply (Hd c' d); [right; exact Hc' | exact Hin].
Qed.

Section ScoreProofs.
Context {B : PyBuiltins}.

Lemma low_score_parsed (d : node) (below : bool) :
  gravityScore d <> None ->
  score_below_one (gravityScore d) = Ok below -> low_score d = below.
Proof.
  unfold low_score. intros Hs H. destruct (gravityScore d); [|congruence].
  rewrite H. reflexivity.
Qed.

Lemma for_each_scores_ok (items : list node) :
  Forall (fun d => gravityScore d <> None) items ->
  Forall (fun d => exists below, score_below_one (gravityScore d) = Ok below) items ->
  forall t, for_each score_step items t
            = Ok (fold_left (fun t item => if low_score item then remove_id (nid item) t else t)
                            items t).
Proof.
  induction items as [|x items IH]; intros Hs H t; [reflexivity|].
  inversion Hs as [|? ? Hsx Hsr]; subst.
  inversion H as [|? ? (below & Hx) Hr]; subst.
  cbn [for_each fold_left]. unfold score_step at 1.
  fold (gravityScore x). rewrite Hx. cbn [bind].
  rewrite (low_score_parsed x below Hsx Hx). apply IH; assumption.
Qed.

Lemma for_each_scores_raise (items : list node) :
  Exists (fun d => score_below_one (gravityScore d) = Raise ValueError) items ->
  forall t, for_each score_step items t = Raise ValueError.
Proof.
  induction items as [|x items IH]; intros H t; [inversion H|].
  cbn [for_each]. unfold score_step at 1. fold (gravityScore x).
  destruct (score_below_one (gravityScore x)) as [below | e] eqn:E.
  - cbn [bind]. apply IH. inversion H as [? ? Hx | ? ? Hr]; subst; [congruence | exact Hr].
  - cbn [bind]. f_equal.
    unfold score_below_one in E. destruct (gravityScore x) as [s|]; [|discriminate].
    destruct (nonempty s); [|discriminate].
    destruct (float s); [discriminate | congruence].
Qed.

Lemma css_select_gravityScore_spec (top d : node) :
  In d (Parser.css_select_gravityScore top)
  <-> In d (descendants top) /\ gravityScore d <> None.
Proof.
  unfold Parser.css_select_gravityScore, gravityScore, Parser.getAttribute.
  rewrite filter_In.
  destruct (attr_get (py "gravityScore") (attrib d)); split; intros [H1 H2];
    (split; [exact H1|]); congruence.
Qed.

Lemma low_score_has_score (d : node) : low_score d = true -> gravityScore d <> None.
Proof. unfold low_score. destruct (gravityScore d); [discriminate | discriminate]. Qed.

(** The loop of [remove_negativescores_nodes], when no score raises, is the
    pruning of the spec. *)
Lemma remove_negativescores_nodes_prune (top : node) :
  wf top ->
  Forall (fun d => exists below, score_below_one (gravityScore d) = Ok below)
         (Parser.css_select_gravityScore top) ->
  remove_negativescores_nodes top = Ok (prune low_score top).
Proof.
  intros Hwf Hok. unfold remove_negativescores_nodes.
  change (for_each _ ?l ?t) with (for_each score_step l t).
  rewrite for_each_scores_ok; [|apply Forall_forall; intros d Hd;
                                 apply css_select_gravityScore_spec in Hd; tauto | exact Hok].
  f_equal.
  pose proof (fold_remove_ids low_score nid (Parser.css_select_gravityScore top)
                (fun _ => false) top) as Hf.
  rewrite remove_ids_none in Hf. rewrite Hf. cbn [orb].
  apply prune_remove_ids. intros d Hd.
  destruct (low_score d) eqn:E.
  - apply existsb_exists. exists d. rewrite E, Nat.eqb_refl.
    split; [|reflexivity]. apply css_select_gravityScore_spec.
    split; [exact Hd | apply low_score_has_score; exact E].
  - destruct (existsb _ _) eqn:Ex; [|reflexivity].
    apply existsb_exists in Ex as (x & Hx & Hl).
    apply andb_true_iff in Hl as [Hl Hi]. apply Nat.eqb_eq in Hi.
    apply css_select_gravityScore_spec in Hx as [Hx _].
    assert (x = d) by (apply (wf_nid_inj top); auto using descendants_in_iter).
    congruence.
Qed.

(** What remains after the pruning has no low score. *)
Lemma prune_no_low (low : node -> bool) (n : node) :
  (forall d x, low (set_children x d) = low d) ->
  Forall (fun d => low d = false) (descendants (prune low n)).
Proof.
  intros Hlow. induction n as [j t a tx tl cs IH] using node_ind.
  unfold descendants. cbn [prune children set_children].
  induction cs as [|c cs IHcs]; [constructor|].
  inversion IH as [|? ? Hc Hcs]; subst. cbn [flat_map].
  destruct (low c) eqn:E; cbn [app flat_map]; [apply IHcs; exact Hcs|].
  rewrite iter_unfold. cbn [app]. constructor.
  - destruct c as [j' t' a' tx' tl' cs']. cbn [prune children].
    rewrite (Hlow (Node j' t' a' tx' tl' cs')) . exact E.
  - apply Forall_app. split; [exact Hc | apply IHcs; exact Hcs].
Qed.

Lemma unparsable_raises (d : node) :
  unparsable d <-> score_below_one (gravityScore d) = Raise ValueError.
Proof.
  unfold unparsable, score_below_one. split.
  - intros (s & -> & -> & ->). reflexivity.
  - destruct (gravityScore d) as [s|]; [|discriminate].
    destruct (nonempty s) eqn:En; [|discriminate].
    destruct (float s) eqn:Ef; [discriminate|].
    intros _. exists s. auto.
Qed.

Lemma parsable_returns (d : node) :
  parsable d <-> exists below, score_below_one (gravityScore d) = Ok below.
Proof.
  unfold parsable, score_below_one. split.
  - intros H. destruct (gravityScore d) as [s|]; [|eexists; reflexivity].
    destruct (nonempty s) eqn:En; [|eexists; reflexivity].
    destruct (H s eq_refl En) as (x & ->). eexists; reflexivity.
  - intros (below & H) s Hs Hn. rewrite Hs, Hn in H.
    destruct (float s) as [x|]; [exists x; reflexivity | discriminate].
Qed.

Lemma parsable_or_unparsable (items : list node) :
  Forall parsable items \/ Exists unparsable items.
Proof.
  induction items as [|x items IH]; [left; constructor|].
  destruct (score_below_one (gravityScore x)) as [below|e] eqn:E.
  - destruct IH as [IH | IH]; [left | right; apply Exists_cons_tl; exact IH].
    constructor; [|exact IH]. apply parsable_returns. exists below. exact E.
  - right. apply Exists_cons_hd. apply unparsable_raises. rewrite E. f_equal.
    unfold score_below_one in E. destruct (gravityScore x) as [s|]; [|discriminate].
    destruct (nonempty s); [|discriminate].
    destruct (float s); [discriminate | congruence].
Qed.

Lemma low_score_scored_below_one (d : node) :
  low_score d = true <-> scored_below_one d.
Proof.
  unfold low_score, scored_below_one, score_below_one. split.
  - destruct (gravityScore d) as [s|]; [|discriminate].
    intros H. exists s. split; [reflexivity|].
    destruct (nonempty s); [|left; reflexivity].
    destruct (float s) as [x|]; [|discriminate].
    right. exists x. split; [reflexivity | exact H].
  - intros (s & -> & [-> | (x & Hx & Hlt)]); [reflexivity|].
    rewrite Hx. destruct (nonempty s); [exact Hlt | reflexivity].
Qed.

(** C1, as amended: a missing or empty gravityScore counts as 0; any
    other value is parsed by [float], and a value that [float] rejects
    raises [ValueError] out of the loop, whatever the elements the loop
    runs over, and so out of the pass; the pass raises in no other case;
    when every score parses, the pass detaches, with their subtrees,
    exactly the descendants whose gravityScore is empty or parses to a
    number less than 1. *)
Theorem C1_score_pruning (top : node) :
  wf top ->
  score_below_one None = Ok true
  /\ score_below_one (Some []) = Ok true
  /\ (forall s, nonempty s = true -> float s = None ->
                score_below_one (Some s) = Raise ValueError)
  /\ (forall s x, nonempty s = true -> float s = Some x ->
                  score_below_one (Some s) = Ok (lt_one x))
  /\ (forall items t, Exists unparsable items ->
                      for_each score_step items t = Raise ValueError)
  /\ (Exists unparsable (Parser.css_select_gravityScore top)
      <-> remove_negativescores_nodes top = Raise ValueError)
  /\ (forall e, remove_negativescores_nodes top = Raise e -> e = ValueError)
  /\ (Forall parsable (Parser.css_select_gravityScore top) ->
      remove_negativescores_nodes top = Ok (prune low_score top)
      /\ Forall (fun d => low_score d = false) (descendants (prune low_score top)))
  /\ (forall d, low_score d = true <-> scored_below_one d).
Proof.
  intros Hwf.
  assert (Hraise : forall items t, Exists unparsable items ->
                                   for_each score_step items t = Raise ValueError).
  { intros items t Hex. apply for_each_scores_raise.
    apply Exists_exists in Hex as (d & Hd & Hu). apply Exists_exists.
    exists d. split; [exact Hd | apply unparsable_raises; exact Hu]. }
  assert (Hok : Forall parsable (Parser.css_select_gravityScore top) ->
                remove_negativescores_nodes top = Ok (prune low_score top)).
  { intros Hp. apply remove_negativescores_nodes_prune; [exact Hwf|].
    apply Forall_forall. intros d Hd. apply parsable_returns.
    exact (proj1 (Forall_forall _ _) Hp d Hd). }
  assert (Hcases : forall e, remove_negativescores_nodes top = Raise e ->
                             e = ValueError
                             /\ Exists unparsable (Parser.css_select_gravityScore top)).
  { intros e He.
    destruct (parsable_or_unparsable (Parser.css_select_gravityScore top)) as [Hp | Hex].
    - rewrite (Hok Hp) in He. discriminate.
    - unfold remove_negativescores_nodes in He.
      change (for_each _ ?l ?t) with (for_each score_step l t) in He.
      rewrite (Hraise _ _ Hex) in He. injection He as <-. split; [reflexivity | exact Hex]. }
  split; [reflexivity|]. split; [reflexivity|]. split.
  { intros s Hn Hf. unfold score_below_one. rewrite Hn, Hf. reflexivity. }
  split.
  { intros s x Hn Hf. unfold score_below_one. rewrite Hn, Hf. reflexivity. }
  split; [exact Hraise|]. split.
  { split.
    - intros Hex. unfold remove_negativescores_nodes.
      change (for_each _ ?l ?t) with (for_each score_step l t).
      apply Hraise. exact Hex.
    - intros He. exact (proj2 (Hcases _ He)). }
  split; [intros e He; exact (proj1 (Hcases e He))|]. split.
  { intros Hp. split; [exact (Hok Hp)|].
    apply prune_no_low. intros [j t a tx tl cs] x. reflexivity. }
  exact low_score_scored_below_one.
Qed.

End ScoreProofs.

Lemma wf_scored : wf Examples.scored.
Proof. unfold wf. cbv. repeat constructor; cbn; intuition discriminate. Qed.

Lemma wf_scored_both : wf Examples.scored_both.
Proof. unfold wf. cbv. repeat constructor; cbn; intuition discriminate. Qed.

Lemma C1_score_pruning_witness :
  wf Examples.scored_both
  /\ remove_negativescores_nodes (B := Builtins.ascii_builtins) Examples.scored_both
     = Ok (el 0 "div" [] "" ""
              [el 2 "p" [("gravityscore", "2.5")%string; ("gravityScore", "2.5")%string]
                  "high" "" []]).
Proof.
  split; [exact wf_scored_both|].
  pose proof (C1_score_pruning (B := Builtins.ascii_builtins)
                Examples.scored_both wf_scored_both)
    as (_ & _ & _ & _ & _ & _ & _ & H & _).
  refine (proj1 (H _)).
  repeat constructor; intros s Hs Hn; injection Hs as <-; eexists; reflexivity.
Defined.

(** C1 as stated fails: a gravityScore that is not a number does not count
    as 0; [float] raises and the pass, with it [get_formatted], ends in
    [ValueError], where the claim has the paragraph detached and the text
    of the other returned. *)
Lemma C1_counterexample :
  Builtins.float_of_str (py "abc") = None
  /\ remove_negativescores_nodes (B := Builtins.ascii_builtins) Examples.unparsable_score
     = Raise ValueError
  /\ get_formatted (B := Builtins.ascii_builtins) (Sz := Builtins.tag_serializer)
       false (Some Examples.unparsable_score) None
     = Raise ValueError
  /\ prune (low_score_claimed (B := Builtins.ascii_builtins)) Examples.unparsable_score
     = el 0 "div" [] "" "" [el 2 "p" [] "more text here" "" []].
Proof. repeat split; reflexivity. Qed.

(** ** An empty or absent top node *)

Section EmptyProofs.
Context {B : PyBuiltins} {Sz : Serializer}.

(** C6, as amended: on a top node without children [get_formatted] returns
    the empty text, and the empty HTML unless the HTML is to be kept, when
    it returns what the serializer gives for the node.  On an absent top
    node ([None]) it raises: the exception the parser raises when it is
    handed [None], and [TypeError], from the loop of [convert_to_text] over
    the top node, with a parser that returns on [None]; that loop raises
    [TypeError] on [None] whatever the parser. *)
Theorem C6_empty_or_absent_top_node (keep_article_html : bool)
        (title : option pystr) :
  (forall i t a tx tl,
      get_formatted keep_article_html (Some (Node i t a tx tl [])) title
      = Ok ([], if keep_article_html then article_html (Node i t a tx tl []) else []))
  /\ get_formatted keep_article_html None title
     = Raise (match absent_node with Some e => e | None => TypeError end)
  /\ convert_to_text None title = Raise TypeError.
Proof.
  split.
  - intros i t a tx tl. destruct keep_article_html; reflexivity.
  - split; [|reflexivity].
    unfold get_formatted. destruct absent_node; reflexivity.
Qed.

End EmptyProofs.

(** C6 as stated fails.  With no top node and a parser that raises on
    [None], [get_formatted] ends in the exception of the parser; the loop of
    [convert_to_text] over the top node raises [TypeError] on [None] by
    itself.  With an empty [div] as top node and the HTML kept, the HTML
    returned is the markup of the [div], not the empty string. *)
Lemma C6_counterexample :
  get_formatted (B := Builtins.ascii_builtins) (Sz := Builtins.markup_serializer)
    false None None
  = Raise AttributeError
  /\ convert_to_text (B := Builtins.ascii_builtins) None None = Raise TypeError
  /\ get_formatted (B := Builtins.ascii_builtins) (Sz := Builtins.markup_serializer)
       true (Some Examples.empty_div) None
     = Ok ([], py "<div></div>").
Proof. repeat split; reflexivity. Qed.

(** ** Subsequences *)

Lemma subseq_refl {A : Type} (l : list A) : subseq l l.
Proof. induction l; constructor; assumption. Qed.

Lemma subseq_nil_l {A : Type} (l : list A) : subseq [] l.
Proof. induction l; constructor; assumption. Qed.

Lemma subseq_app {A : Type} (a b c d : list A) :
  subseq a b -> subseq c d -> subseq (a ++ c) (b ++ d).
Proof.
  intros H1 H2. induction H1; cbn [app]; try constructor; assumption.
Qed.

Lemma subseq_trans {A : Type} (a b c : list A) :
  subseq a b -> subseq b c -> subseq a c.
Proof.
  intros H1 H2. revert a H1. induction H2; intros a H1.
  - exact H1.
  - constructor. apply IHsubseq. exact H1.
  - inversion H1; subst.
    + apply subseq_skip. apply IHsubseq. assumption.
    + apply subseq_keep. apply IHsubseq. assumption.
Qed.

Lemma subseq_In {A : Type} (a b : list A) (x : A) :
  subseq a b -> In x a -> In x b.
Proof.
  intros H. induction H; intros Hx.
  - exact Hx.
  - right. apply IHsubseq. exact Hx.
  - destruct Hx as [-> | Hx]; [left; reflexivity | right; apply IHsubseq; exact Hx].
Qed.

Lemma subseq_NoDup {A : Type} (a b : list A) :
  subseq a b -> NoDup b -> NoDup a.
Proof.
  intros H. induction H; intros Hb.
  - constructor.
  - inversion Hb; subst. apply IHsubseq. assumption.
  - inversion Hb as [|? ? Hx Hr]; subst. constructor.
    + intros Hin. apply Hx. exact (subseq_In _ _ x H Hin).
    + apply IHsubseq. exact Hr.
Qed.

Lemma subseq_map {A C : Type} (f : A -> C) (a b : list A) :
  subseq a b -> subseq (map f a) (map f b).
Proof. intros H. induction H; cbn [map]; constructor; assumption. Qed.

Lemma subseq_flat_map {A C : Type} (f g : A -> list C) (l : list A) :
  (forall x, In x l -> subseq (g x) (f x)) ->
  subseq (flat_map g l) (flat_map f l).
Proof.
  induction l as [|x l IH]; intros H; [constructor|].
  cbn [flat_map]. apply subseq_app.
  - apply H. left. reflexivity.
  - apply IH. intros y Hy. apply H. right. exact Hy.
Qed.

Lemma subseq_Forall {A : Type} (P : A -> Prop) (a b : list A) :
  subseq a b -> Forall P b -> Forall P a.
Proof.
  intros H Hb. apply Forall_forall. intros x Hx.
  exact (proj1 (Forall_forall P b) Hb x (subseq_In _ _ x H Hx)).
Qed.

Lemma Forall_flat_map_in {A C : Type} (P : C -> Prop) (f : A -> list C) (l : list A) :
  (forall x, In x l -> Forall P (f x)) -> Forall P (flat_map f l).
Proof.
  intros H. induction l as [|x l IH]; cbn [flat_map]; [constructor|].
  apply Forall_app. split; [apply H; left; reflexivity|].
  apply IH. intros y Hy. apply H. right. exact Hy.
Qed.

(** ** Heads *)

Lemma all_heads_unfold (n : node) :
  all_heads n = head n :: flat_map all_heads (children n).
Proof.
  unfold all_heads. rewrite iter_unfold. cbn [map]. f_equal.
  induction (children n) as [|c cs IH]; [reflexivity|].
  cbn [flat_map]. rewrite map_app, IH. reflexivity.
Qed.

Lemma ids_all_heads (n : node) : ids n = map (fun h => fst (fst h)) (all_heads n).
Proof. unfold ids, all_heads. rewrite map_map. reflexivity. Qed.

Lemma shrinks_refl (t : node) : shrinks t t.
Proof. split; [reflexivity | apply subseq_refl]. Qed.

Lemma shrinks_trans (a b c : node) : shrinks a b -> shrinks b c -> shrinks a c.
Proof.
  intros [H1 S1] [H2 S2]. split; [congruence | exact (subseq_trans _ _ _ S1 S2)].
Qed.

Lemma shrinks_wf (t' t : node) : shrinks t' t -> wf t -> wf t'.
Proof.
  intros [_ S] H. unfold wf in *. rewrite ids_all_heads in *.
  exact (subseq_NoDup _ _ (subseq_map _ _ _ S) H).
Qed.

Lemma shrinks_nid (t' t : node) : shrinks t' t -> nid t' = nid t.
Proof. intros [H _]. unfold head in H. congruence. Qed.

(** The heads of the proper descendants. *)
Lemma shrinks_descendants (t' t : node) :
  shrinks t' t ->
  subseq (flat_map all_heads (children t')) (flat_map all_heads (children t)).
Proof.
  intros [He S]. rewrite !all_heads_unfold, He in S.
  inversion S as [| x l1 l2 S' | x l1 l2 S']; subst; [|exact S'].
  (* the head of [t'] was matched further right: it can be moved to the front *)
  clear S. remember (head t :: flat_map all_heads (children t')) as l eqn:El.
  remember (flat_map all_heads (children t)) as r eqn:Er.
  clear Er. revert El. induction S'; intros El; [discriminate| |].
  - constructor. apply IHS'. exact El.
  - injection El as -> ->. constructor. exact S'.
Qed.

Lemma descendants_heads (n : node) :
  map head (descendants n) = flat_map all_heads (children n).
Proof.
  unfold descendants. induction (children n) as [|c cs IH]; [reflexivity|].
  cbn [flat_map]. rewrite map_app, IH. reflexivity.
Qed.

(** A property of heads that holds below [t] holds below what [t] shrinks
    to. *)
Lemma shrinks_Forall (P : nat * pystr * list (pystr * pystr) -> Prop) (t' t : node) :
  shrinks t' t ->
  Forall (fun d => P (head d)) (descendants t) ->
  Forall (fun d => P (head d)) (descendants t').
Proof.
  intros S H. apply Forall_map. rewrite descendants_heads.
  apply (subseq_Forall P _ _ (shrinks_descendants t' t S)).
  rewrite <- descendants_heads. apply Forall_map. exact H.
Qed.

Lemma shrinks_node (i : nat) (t : pystr) (a : list (pystr * pystr))
      (tx tl tx' tl' : pystr) (cs cs' : list node) :
  subseq (flat_map all_heads cs') (flat_map all_heads cs) ->
  shrinks (Node i t a tx' tl' cs') (Node i t a tx tl cs).
Proof.
  intros H. split; [reflexivity|].
  rewrite !all_heads_unfold. cbn [children head nid tag attrib]. apply subseq_keep. exact H.
Qed.

(** ** Lookup by identity *)

Lemma first_some_find (i : nat) (cs : list node) (d : node) :
  first_some (find_id i) cs = Some d ->
  exists c, In c cs /\ find_id i c = Some d.
Proof.
  induction cs as [|c cs IH]; cbn [first_some]; [discriminate|].
  destruct (find_id i c) as [x|] eqn:E.
  - intros [= <-]. exists c. split; [left; reflexivity | exact E].
  - intros H. destruct (IH H) as (k & Hk & Hf). exists k. split; [right; exact Hk | exact Hf].
Qed.

Lemma find_id_unfold (i : nat) (n : node) :
  find_id i n = if nid n =? i then Some n else first_some (find_id i) (children n).
Proof. destruct n; reflexivity. Qed.

Lemma find_id_in (i : nat) (n : node) :
  forall d, find_id i n = Some d -> In d (iter n) /\ nid d = i.
Proof.
  induction n as [j t a tx tl cs IH] using node_ind. intros d.
  rewrite find_id_unfold. cbn [nid children].
  destruct (j =? i) eqn:E.
  - intros [= <-]. apply Nat.eqb_eq in E. split; [rewrite iter_unfold; left; reflexivity | exact E].
  - intros H. apply first_some_find in H as (c & Hc & Hf).
    rewrite Forall_forall in IH. destruct (IH c Hc d Hf) as [Hin Hid].
    split; [|exact Hid]. apply descendants_in_iter.
    exact (in_children_iter (Node j t a tx tl cs) c d Hc Hin).
Qed.

Lemma first_some_none {A R : Type} (f : A -> option R) (l : list A) :
  (forall x, In x l -> f x = None) -> first_some f l = None.
Proof.
  induction l as [|x l IH]; intros H; [reflexivity|]. cbn [first_some].
  rewrite (H x) by (left; reflexivity). apply IH. intros y Hy. apply H. right. exact Hy.
Qed.

Lemma find_id_absent (i : nat) (n : node) : ~ In i (ids n) -> find_id i n = None.
Proof.
  induction n as [j t a tx tl cs IH] using node_ind. intros H.
  rewrite ids_unfold in H. cbn [nid children] in H.
  rewrite find_id_unfold. cbn [nid children].
  destruct (j =? i) eqn:E.
  - apply Nat.eqb_eq in E. exfalso. apply H. left. exact E.
  - apply first_some_none. intros c Hc. rewrite Forall_forall in IH. apply (IH c Hc).
    intros Hin. apply H. right. apply in_flat_map. exists c. split; assumption.
Qed.

Lemma find_id_present (i : nat) (n : node) :
  In i (ids n) -> exists d, find_id i n = Some d.
Proof.
  induction n as [j t a tx tl cs IH] using node_ind. intros H.
  rewrite ids_unfold in H. cbn [nid children] in H.
  rewrite find_id_unfold. cbn [nid children].
  destruct (j =? i) eqn:E; [eexists; reflexivity|].
  destruct H as [H | H]; [apply Nat.eqb_neq in E; contradiction|].
  clear E. induction cs as [|c cs IHcs]; [contradiction|].
  inversion IH as [|? ? Hc Hcs]; subst. cbn [first_some].
  destruct (find_id i c) as [x|] eqn:Ec; [eexists; reflexivity|].
  cbn [flat_map] in H. apply in_app_or in H as [H | H].
  - destruct (Hc H) as (d & Hd). congruence.
  - exact (IHcs Hcs H).
Qed.

(** In a well-formed tree the lookup of the identity of an element of the
    tree gives that element. *)
Lemma find_id_wf (n d : node) : wf n -> In d (iter n) -> find_id (nid d) n = Some d.
Proof.
  intros Hwf Hd.
  destruct (find_id_present (nid d) n (in_iter_ids n d Hd)) as (x & Hx).
  destruct (find_id_in _ _ _ Hx) as [Hin Hid].
  rewrite Hx. f_equal. exact (wf_nid_inj n x d Hwf Hin Hd Hid).
Qed.

Lemma wf_descendant (n : node) : forall d, wf n -> In d (iter n) -> wf d.
Proof.
  induction n as [j t a tx tl cs IH] using node_ind. intros d Hwf Hd.
  rewrite iter_unfold in Hd. destruct Hd as [<- | Hd]; [exact Hwf|].
  cbn [children] in Hd. apply in_flat_map in Hd as (c & Hc & Hd).
  rewrite Forall_forall in IH. apply (IH c Hc d); [|exact Hd].
  exact (wf_child (Node j t a tx tl cs) c Hwf Hc).
Qed.

(** ** Every pass shrinks the tree *)

Lemma fold_left_shrinks {A : Type} (step : node -> A -> node) (l : list A) :
  (forall t x, shrinks (step t x) t) ->
  forall t, shrinks (fold_left step l t) t.
Proof.
  intros H. induction l as [|x l IH]; intros t; cbn [fold_left].
  - apply shrinks_refl.
  - exact (shrinks_trans _ _ _ (IH (step t x)) (H t x)).
Qed.

Lemma remove_id_shrinks (i : nat) (n : node) : shrinks (remove_id i n) n.
Proof.
  induction n as [j t a tx tl cs IH] using node_ind.
  cbn [remove_id children set_children]. apply shrinks_node.
  induction cs as [|c cs IHcs]; [constructor|].
  inversion IH as [|? ? Hc Hcs]; subst. cbn [flat_map].
  rewrite flat_map_app. apply subseq_app; [|apply IHcs; exact Hcs].
  destruct (nid c =? i); cbn [flat_map]; [apply subseq_nil_l|].
  rewrite app_nil_r. exact (proj2 Hc).
Qed.

Lemma update_id_shrinks (i : nat) (f : node -> node) (n : node) :
  (forall x, shrinks (f x) x) -> shrinks (update_id i f n) n.
Proof.
  intros Hf. induction n as [j t a tx tl cs IH] using node_ind.
  cbn [update_id nid children]. destruct (j =? i); [apply Hf|].
  cbn [set_children]. apply shrinks_node.
  induction cs as [|c cs IHcs]; [constructor|].
  inversion IH as [|? ? Hc Hcs]; subst. cbn [map flat_map].
  apply subseq_app; [exact (proj2 Hc) | apply IHcs; exact Hcs].
Qed.

Lemma set_text_shrinks (x : pystr) (n : node) : shrinks (set_text x n) n.
Proof. destruct n. cbn [set_text]. apply shrinks_node. apply subseq_refl. Qed.

Lemma set_tail_heads (x : pystr) (n : node) : all_heads (set_tail x n) = all_heads n.
Proof. destruct n. reflexivity. Qed.

(** *** stripTags *)

Section StripProofs.
Variable tags : list pystr.

Lemma add_text_heads x st : state_heads (Parser.add_text x st) = state_heads st.
Proof.
  unfold state_heads, Parser.add_text. destruct st as [txt [|l r]]; [reflexivity|].
  cbn [snd rev]. rewrite !flat_map_app. cbn [flat_map].
  rewrite set_tail_heads. reflexivity.
Qed.

Lemma fold_add_child cs : forall st,
  fold_left Parser.add_child cs st = (fst st, rev cs ++ snd st).
Proof.
  induction cs as [|c cs IH]; intros [txt r]; [reflexivity|].
  cbn [fold_left]. rewrite IH. unfold Parser.add_child. cbn [fst snd rev].
  rewrite <- app_assoc. reflexivity.
Qed.

Lemma splice_heads st c :
  state_heads (Parser.splice tags st c)
  = state_heads st ++ flat_map all_heads (emitted tags c).
Proof.
  unfold Parser.splice, emitted. destruct (str_in (tag c) tags).
  - rewrite add_text_heads, fold_add_child. unfold state_heads. cbn [snd].
    rewrite rev_app_distr, rev_involutive, flat_map_app.
    fold (state_heads (Parser.add_text (text c) st)). rewrite add_text_heads.
    reflexivity.
  - unfold state_heads, Parser.add_child. cbn [snd rev].
    rewrite flat_map_app. reflexivity.
Qed.

Lemma fold_splice_heads (g : node -> node) cs : forall st,
  state_heads (fold_left (fun st c => Parser.splice tags st (g c)) cs st)
  = state_heads st ++ flat_map (fun c => flat_map all_heads (emitted tags (g c))) cs.
Proof.
  induction cs as [|c cs IH]; intros st; cbn [fold_left flat_map].
  - rewrite app_nil_r. reflexivity.
  - rewrite IH, splice_heads, <- app_assoc. reflexivity.
Qed.

Lemma stripTags_unfold n :
  Parser.stripTags tags n
  = let st := fold_left (fun st c => Parser.splice tags st (Parser.stripTags tags c))
                        (children n) (text n, []) in
    Node (nid n) (tag n) (attrib n) (fst st) (tail n) (rev (snd st)).
Proof. destruct n; reflexivity. Qed.

Lemma stripTags_head n : head (Parser.stripTags tags n) = head n.
Proof. rewrite stripTags_unfold. destruct n; reflexivity. Qed.

Lemma stripTags_children_heads n :
  flat_map all_heads (children (Parser.stripTags tags n))
  = flat_map (fun c => flat_map all_heads (emitted tags (Parser.stripTags tags c)))
             (children n).
Proof.
  rewrite stripTags_unfold. cbn [children].
  exact (fold_splice_heads (Parser.stripTags tags) (children n) (text n, [])).
Qed.

Lemma stripTags_heads n :
  all_heads (Parser.stripTags tags n)
  = head n :: flat_map (fun c => flat_map all_heads (emitted tags (Parser.stripTags tags c)))
                       (children n).
Proof.
  rewrite all_heads_unfold, stripTags_head, stripTags_children_heads. reflexivity.
Qed.

Lemma emitted_subseq c : subseq (flat_map all_heads (emitted tags c)) (all_heads c).
Proof.
  unfold emitted. rewrite (all_heads_unfold c). destruct (str_in (tag c) tags).
  - apply subseq_skip. apply subseq_refl.
  - cbn [flat_map]. rewrite app_nil_r, all_heads_unfold. apply subseq_refl.
Qed.

Lemma stripTags_shrinks n : shrinks (Parser.stripTags tags n) n.
Proof.
  induction n as [j t a tx tl cs IH] using node_ind.
  split; [apply stripTags_head|].
  rewrite stripTags_heads, all_heads_unfold. apply subseq_keep. cbn [children].
  apply subseq_flat_map. intros c Hc. rewrite Forall_forall in IH.
  exact (subseq_trans _ _ _ (emitted_subseq _) (proj2 (IH c Hc))).
Qed.

(** No element with one of the tags is left below the node. *)
Lemma stripTags_clean n :
  Forall (fun d => str_in (tag d) tags = false) (descendants (Parser.stripTags tags n)).
Proof.
  induction n as [j t a tx tl cs IH] using node_ind.
  apply (Forall_map head (fun h => str_in (snd (fst h)) tags = false)).
  rewrite descendants_heads, stripTags_children_heads. cbn [children].
  apply Forall_flat_map_in. intros c Hc.
  rewrite Forall_forall in IH. specialize (IH c Hc).
  apply (Forall_map head (fun h => str_in (snd (fst h)) tags = false)) in IH.
  rewrite descendants_heads in IH.
  unfold emitted. destruct (str_in (tag (Parser.stripTags tags c)) tags) eqn:E.
  - exact IH.
  - cbn [flat_map]. rewrite app_nil_r, all_heads_unfold.
    constructor; [exact E | exact IH].
Qed.

(** Where no element below the node has one of the tags, nothing changes. *)
Lemma stripTags_id n :
  Forall (fun d => str_in (tag d) tags = false) (descendants n) ->
  Parser.stripTags tags n = n.
Proof.
  induction n as [j t a tx tl cs IH] using node_ind. intros H.
  rewrite stripTags_unfold. cbn [children nid tag attrib text tail].
  assert (E : forall st,
             fold_left (fun st c => Parser.splice tags st (Parser.stripTags tags c)) cs st
             = (fst st, rev cs ++ snd st)).
  { assert (Hc : forall c, In c cs ->
                   Parser.stripTags tags c = c /\ str_in (tag c) tags = false).
    { intros c Hc. rewrite Forall_forall in IH, H. split.
      - apply (IH c Hc). apply Forall_forall. intros d Hd. apply H.
        apply (in_children_iter (Node j t a tx tl cs) c d Hc).
        apply descendants_in_iter. exact Hd.
      - apply H. apply (in_children_iter (Node j t a tx tl cs) c c Hc).
        rewrite iter_unfold. left. reflexivity. }
    clear IH H. induction cs as [|c cs IHcs]; intros [txt r]; [reflexivity|].
    cbn [fold_left]. destruct (Hc c (or_introl eq_refl)) as [E1 E2].
    rewrite E1. unfold Parser.splice at 2. rewrite E2.
    rewrite IHcs by (intros k Hk; apply Hc; right; exact Hk).
    unfold Parser.add_child. cbn [fst snd rev]. rewrite <- app_assoc. reflexivity. }
  rewrite E. cbn [fst snd]. rewrite app_nil_r, rev_involutive. reflexivity.
Qed.

End StripProofs.

(** *** The passes *)

Lemma for_each_shrinks {A : Type} (body : node -> A -> result node) (l : list A) :
  (forall t x t', body t x = Ok t' -> shrinks t' t) ->
  forall t t', for_each body l t = Ok t' -> shrinks t' t.
Proof.
  intros H. induction l as [|x l IH]; intros t t'; cbn [for_each].
  - intros [= <-]. apply shrinks_refl.
  - destruct (body t x) as [t1|e] eqn:E; cbn [bind]; [|discriminate].
    intros Hl. exact (shrinks_trans _ _ _ (IH t1 t' Hl) (H t x t1 E)).
Qed.

Section PassShrinks.
Context {B : PyBuiltins}.

Lemma remove_negativescores_nodes_shrinks top t1 :
  remove_negativescores_nodes top = Ok t1 -> shrinks t1 top.
Proof.
  unfold remove_negativescores_nodes. apply for_each_shrinks.
  intros t x t'.
  destruct (score_below_one (Parser.getAttribute x (py "gravityScore"))) as [below|e];
    cbn [bind]; [|discriminate].
  intros [= <-]. destruct below; [apply remove_id_shrinks | apply shrinks_refl].
Qed.

Lemma links_to_text_shrinks top : shrinks (links_to_text top) top.
Proof. apply stripTags_shrinks. Qed.

Lemma replace_with_text_shrinks top : shrinks (replace_with_text top) top.
Proof. apply stripTags_shrinks. Qed.

Lemma add_newline_to_br_shrinks top : shrinks (add_newline_to_br top) top.
Proof.
  unfold add_newline_to_br. apply fold_left_shrinks.
  intros t e. apply update_id_shrinks. intros x. apply set_text_shrinks.
Qed.

Lemma normalize_item_shrinks t li : shrinks (normalize_item t li) t.
Proof.
  unfold normalize_item. destruct (find_id (nid li) t) as [li_now|]; [|apply shrinks_refl].
  eapply shrinks_trans.
  - apply fold_left_shrinks. intros t' c. apply remove_id_shrinks.
  - apply update_id_shrinks. intros x. apply set_text_shrinks.
Qed.

Lemma add_newline_to_li_shrinks top : shrinks (add_newline_to_li top) top.
Proof.
  unfold add_newline_to_li. apply fold_left_shrinks.
  intros t e. destruct (find_id (nid e) t) as [e_now|]; [|apply shrinks_refl].
  apply fold_left_shrinks. apply normalize_item_shrinks.
Qed.

Lemma remove_empty_tags_shrinks top : shrinks (remove_empty_tags top) top.
Proof.
  unfold remove_empty_tags. apply fold_left_shrinks.
  intros t el. destruct (find_id (nid el) t) as [el_now|]; [|apply shrinks_refl].
  destruct (is_empty_tag el_now); [apply remove_id_shrinks | apply shrinks_refl].
Qed.

Lemma remove_trailing_media_div_shrinks top :
  shrinks (remove_trailing_media_div top) top.
Proof.
  unfold remove_trailing_media_div.
  destruct (length (Parser.getChildren top) <? 3); [apply shrinks_refl|].
  destruct (last (map Some (Parser.getChildren top)) None) as [l|]; [|apply shrinks_refl].
  destruct (2 <=? get_depth l 1); [apply remove_id_shrinks | apply shrinks_refl].
Qed.

End PassShrinks.

(** ** Document order *)

Lemma app_eq_app_cons {A : Type} (a b l1 l2 : list A) (x : A) :
  a ++ b = l1 ++ x :: l2 ->
  (exists l, a = l1 ++ x :: l /\ l2 = l ++ b)
  \/ (exists l, l1 = a ++ l /\ b = l ++ x :: l2).
Proof.
  revert l1. induction a as [|y a IH]; intros l1 H.
  - right. exists l1. split; [reflexivity | exact H].
  - destruct l1 as [|z l1]; cbn [app] in H.
    + injection H as -> <-. left. exists a. split; reflexivity.
    + injection H as -> H. destruct (IH l1 H) as [(l & -> & ->) | (l & -> & ->)].
      * left. exists l. split; reflexivity.
      * right. exists l. split; reflexivity.
Qed.

(** In document order an element is followed by its descendants. *)
Lemma descendants_segment (n : node) :
  forall l1 x l2, descendants n = l1 ++ x :: l2 -> exists l3, l2 = descendants x ++ l3.
Proof.
  induction n as [j t a tx tl cs IH] using node_ind.
  unfold descendants at 1. cbn [children].
  induction cs as [|c cs IHcs]; intros l1 x l2 H.
  - destruct l1; discriminate.
  - inversion IH as [|? ? Hc Hcs]; subst. cbn [flat_map] in H.
    rewrite iter_unfold in H. fold (descendants c) in H.
    destruct l1 as [|y l1]; cbn [app] in H.
    + injection H as <- <-. eexists. reflexivity.
    + injection H as _ H.
      apply app_eq_app_cons in H as [(l & E & ->) | (l & -> & E)].
      * destruct (Hc l1 x l E) as (l3 & ->). exists (l3 ++ flat_map iter cs).
        rewrite app_assoc. reflexivity.
      * exact (IHcs Hcs l x l2 E).
Qed.

Lemma wf_descendants_NoDup (n : node) : wf n -> NoDup (map nid (descendants n)).
Proof.
  unfold wf, ids. rewrite iter_unfold. cbn [map]. intros H. inversion H; assumption.
Qed.

(** In a well-formed tree, what follows an element [d] in document order
    does not have [d] below it. *)
Lemma later_not_ancestor (top d x : node) (l1 l2 : list node) :
  wf top -> descendants top = l1 ++ d :: l2 -> In x l2 -> ~ In (nid d) (ids x).
Proof.
  intros Hwf E Hx Hin.
  apply in_split in Hx as (l2a & l2b & ->).
  assert (E' : descendants top = (l1 ++ d :: l2a) ++ x :: l2b)
    by (rewrite E, <- app_assoc; reflexivity).
  destruct (descendants_segment top _ _ _ E') as (l3 & ->).
  pose proof (wf_descendants_NoDup top Hwf) as Hnd. rewrite E in Hnd.
  rewrite map_app in Hnd. cbn [map] in Hnd.
  apply NoDup_remove_2 in Hnd. apply Hnd. apply in_or_app. right.
  rewrite map_app. apply in_or_app. right. cbn [map].
  unfold ids in Hin. rewrite iter_unfold in Hin. cbn [map] in Hin.
  destruct Hin as [Hin | Hin]; [left; exact Hin|].
  right. rewrite map_app. apply in_or_app. left. exact Hin.
Qed.

(** ** Detaching a set of identities *)

Lemma mem_In (R : list nat) (j : nat) : mem R j = true <-> In j R.
Proof.
  unfold mem. rewrite existsb_exists. split.
  - intros (x & Hx & E). apply Nat.eqb_eq in E. subst. exact Hx.
  - intros H. exists j. split; [exact H | apply Nat.eqb_refl].
Qed.

Lemma mem_app (R1 R2 : list nat) (j : nat) : mem (R1 ++ R2) j = mem R1 j || mem R2 j.
Proof. unfold mem. apply existsb_app. Qed.

Lemma remove_ids_nid (S : nat -> bool) (n : node) : nid (remove_ids S n) = nid n.
Proof. destruct n; reflexivity. Qed.

Lemma remove_ids_children (S : nat -> bool) (n : node) :
  children (remove_ids S n)
  = flat_map (fun c => if S (nid c) then [] else [remove_ids S c]) (children n).
Proof. destruct n; reflexivity. Qed.

Lemma find_id_remove_ids (i : nat) (S : nat -> bool) (n : node) :
  (forall x, In x (descendants n) -> In i (ids x) -> S (nid x) = false) ->
  find_id i (remove_ids S n) = option_map (remove_ids S) (find_id i n).
Proof.
  induction n as [j t a tx tl cs IH] using node_ind. intros H.
  rewrite !find_id_unfold, remove_ids_nid, remove_ids_children. cbn [nid children].
  destruct (j =? i); [reflexivity|].
  assert (Hd : forall c x, In c cs -> In x (iter c) -> In i (ids x) -> S (nid x) = false).
  { intros c x Hc Hx. apply H. exact (in_children_iter (Node j t a tx tl cs) c x Hc Hx). }
  clear H. induction cs as [|c cs IHcs]; [reflexivity|].
  inversion IH as [|? ? Hc Hcs]; subst. cbn [flat_map first_some].
  assert (Hrest : first_some (find_id i)
                    (flat_map (fun c => if S (nid c) then [] else [remove_ids S c]) cs)
                  = option_map (remove_ids S) (first_some (find_id i) cs)).
  { apply IHcs; [exact Hcs|]. intros k x Hk. apply (Hd k x). right. exact Hk. }
  destruct (S (nid c)) eqn:Es.
  - cbn [app]. rewrite Hrest.
    destruct (in_dec Nat.eq_dec i (ids c)) as [Hin | Hout].
    + rewrite (Hd c c) in Es; [discriminate | left; reflexivity | | exact Hin].
      rewrite iter_unfold. left. reflexivity.
    + rewrite (find_id_absent i c Hout). reflexivity.
  - cbn [app first_some]. rewrite Hc.
    + destruct (find_id i c); [reflexivity | exact Hrest].
    + intros x Hx. apply (Hd c x); [left; reflexivity | apply descendants_in_iter; exact Hx].
Qed.

Lemma descendants_remove_ids (S : nat -> bool) (n : node) :
  forall d', In d' (descendants (remove_ids S n)) ->
             exists d, In d (descendants n) /\ d' = remove_ids S d /\ S (nid d) = false.
Proof.
  induction n as [j t a tx tl cs IH] using node_ind. intros d' H.
  unfold descendants in H. rewrite remove_ids_children in H. cbn [children] in H.
  apply in_flat_map in H as (k & Hk & Hd).
  apply in_flat_map in Hk as (c & Hc & Hk).
  destruct (S (nid c)) eqn:Es; [contradiction|].
  destruct Hk as [<- | []].
  rewrite iter_unfold in Hd. destruct Hd as [<- | Hd].
  - exists c. split; [|split; [reflexivity | exact Es]].
    apply (in_children_iter (Node j t a tx tl cs) c c Hc). rewrite iter_unfold. left. reflexivity.
  - rewrite Forall_forall in IH. destruct (IH c Hc d' Hd) as (d & Hin & E & Ed).
    exists d. split; [|split; assumption].
    apply (in_children_iter (Node j t a tx tl cs) c d Hc). apply descendants_in_iter. exact Hin.
Qed.

(** ** Empty-tag pruning *)

Section EmptyTagProofs.

Lemma empty_step_remove_ids (top : node) (R : list nat) (el : node) :
  empty_step (remove_ids (mem R) top) el
  = remove_ids (mem (empty_step_ids top R el)) top.
Proof.
  unfold empty_step, empty_step_ids.
  destruct (find_id (nid el) (remove_ids (mem R) top)) as [el_now|]; [|reflexivity].
  destruct (is_empty_tag el_now); [|reflexivity].
  unfold Parser.remove. rewrite remove_id_remove_ids.
  apply remove_ids_ext. intros d _. unfold mem. cbn [existsb].
  rewrite orb_comm. reflexivity.
Qed.

Lemma fold_empty_step (top : node) (l : list node) :
  forall R, fold_left empty_step l (remove_ids (mem R) top)
            = remove_ids (mem (fold_left (empty_step_ids top) l R)) top.
Proof.
  induction l as [|el l IH]; intros R; cbn [fold_left]; [reflexivity|].
  rewrite empty_step_remove_ids. apply IH.
Qed.

Lemma fold_empty_step_ids_grow (top : node) (l : list node) :
  forall R, exists R', fold_left (empty_step_ids top) l R = R' ++ R
                       /\ incl R' (map nid l).
Proof.
  induction l as [|el l IH]; intros R; cbn [fold_left].
  - exists []. split; [reflexivity | intros x []].
  - destruct (IH (empty_step_ids top R el)) as (R' & E & Hin). rewrite E.
    unfold empty_step_ids.
    destruct (find_id (nid el) (remove_ids (mem R) top)) as [el_now|].
    + destruct (is_empty_tag el_now).
      * exists (R' ++ [nid el]). rewrite <- app_assoc. split; [reflexivity|].
        intros x Hx. apply in_app_or in Hx as [Hx | [<- | []]].
        -- right. apply Hin. exact Hx.
        -- left. reflexivity.
      * exists R'. split; [reflexivity|]. intros x Hx. right. apply Hin. exact Hx.
    + exists R'. split; [reflexivity|]. intros x Hx. right. apply Hin. exact Hx.
Qed.

Lemma remove_empty_tags_fold (top : node) :
  remove_empty_tags top = fold_left empty_step (rev (descendants top)) top.
Proof. reflexivity. Qed.

(** After the pass no element below the top node is an empty tag. *)
Lemma remove_empty_tags_clean (top : node) :
  wf top ->
  Forall (fun d => is_empty_tag d = false) (descendants (remove_empty_tags top)).
Proof.
  intros Hwf. rewrite remove_empty_tags_fold.
  assert (E0 : top = remove_ids (mem []) top).
  { symmetry. rewrite <- (remove_ids_none top) at 2.
    apply remove_ids_ext. intros d _. reflexivity. }
  rewrite E0 at 2. rewrite fold_empty_step.
  set (Rf := fold_left (empty_step_ids top) (rev (descendants top)) []).
  apply Forall_forall. intros d' Hd'.
  apply descendants_remove_ids in Hd' as (d & Hd & -> & Hmem).
  destruct (in_split d (descendants top) Hd) as (l1 & l2 & Es).
  assert (ER : Rf = fold_left (empty_step_ids top) (rev l1)
                      (empty_step_ids top
                         (fold_left (empty_step_ids top) (rev l2) []) d)).
  { unfold Rf. rewrite Es, rev_app_distr. cbn [rev].
    rewrite <- app_assoc, fold_left_app. cbn [app fold_left]. reflexivity. }
  destruct (fold_empty_step_ids_grow top (rev l2) []) as (R2 & E2 & H2).
  rewrite app_nil_r in E2. rewrite E2 in ER.
  destruct (fold_empty_step_ids_grow top (rev l1) (empty_step_ids top R2 d))
    as (R1 & E1 & H1).
  rewrite E1 in ER.
  pose proof (wf_descendants_NoDup top Hwf) as Hnd.
  rewrite Es, map_app in Hnd. cbn [map] in Hnd.
  (* the lookup of [d] when its turn comes *)
  assert (Hfind : find_id (nid d) (remove_ids (mem R2) top)
                  = Some (remove_ids (mem R2) d)).
  { rewrite find_id_remove_ids.
    - rewrite (find_id_wf top d Hwf (descendants_in_iter top d Hd)). reflexivity.
    - intros x Hx Hin. destruct (mem R2 (nid x)) eqn:Em; [|reflexivity].
      exfalso. apply mem_In in Em. apply H2 in Em.
      rewrite map_rev, <- in_rev in Em. apply in_map_iff in Em as (y & Ey & Hy).
      assert (x = y).
      { apply (wf_nid_inj top); auto using descendants_in_iter.
        apply descendants_in_iter. rewrite Es. apply in_or_app. right. right. exact Hy. }
      subst y. exact (later_not_ancestor top d x l1 l2 Hwf Es Hy Hin). }
  assert (E3 : empty_step_ids top R2 d
               = if is_empty_tag (remove_ids (mem R2) d) then nid d :: R2 else R2).
  { unfold empty_step_ids. rewrite Hfind. reflexivity. }
  destruct (is_empty_tag (remove_ids (mem R2) d)) eqn:Ee.
  - exfalso. rewrite ER, E3 in Hmem.
    rewrite mem_app in Hmem. apply orb_false_iff in Hmem as [_ Hmem].
    unfold mem in Hmem. cbn [existsb] in Hmem. rewrite Nat.eqb_refl in Hmem. discriminate.
  - rewrite <- Ee. f_equal. apply remove_ids_ext. intros y Hy.
    rewrite ER, E3, mem_app.
    destruct (mem R1 (nid y)) eqn:Em; [|reflexivity].
    exfalso. apply mem_In in Em. apply H1 in Em. rewrite map_rev, <- in_rev in Em.
    destruct (descendants_segment top l1 d l2 Es) as (l3 & ->).
    apply (NoDup_app_disjoint _ _ (nid y) Hnd Em).
    right. rewrite map_app. apply in_or_app. left. apply in_map. exact Hy.
Qed.

Lemma fold_left_fixed {A S : Type} (step : S -> A -> S) (l : list A) (s : S) :
  (forall x, In x l -> step s x = s) -> fold_left step l s = s.
Proof.
  induction l as [|x l IH]; intros H; [reflexivity|]. cbn [fold_left].
  rewrite (H x) by (left; reflexivity). apply IH. intros y Hy. apply H. right. exact Hy.
Qed.

(** Where nothing below the top node is an empty tag, the pass changes
    nothing. *)
Lemma remove_empty_tags_id (top : node) :
  wf top ->
  Forall (fun d => is_empty_tag d = false) (descendants top) ->
  remove_empty_tags top = top.
Proof.
  intros Hwf H. rewrite remove_empty_tags_fold. apply fold_left_fixed.
  intros el Hel. apply in_rev in Hel. unfold empty_step.
  rewrite (find_id_wf top el Hwf (descendants_in_iter top el Hel)).
  rewrite Forall_forall in H. rewrite (H el Hel). reflexivity.
Qed.

End EmptyTagProofs.

(** ** Mutation by identity *)

Lemma update_id_unfold (i : nat) (f : node -> node) (n : node) :
  update_id i f n
  = if nid n =? i then f n else set_children (map (update_id i f) (children n)) n.
Proof. destruct n; reflexivity. Qed.

Lemma map_id_in {A : Type} (f : A -> A) (l : list A) :
  (forall x, In x l -> f x = x) -> map f l = l.
Proof.
  induction l as [|x l IH]; intros H; [reflexivity|]. cbn [map].
  rewrite (H x) by (left; reflexivity). f_equal. apply IH.
  intros y Hy. apply H. right. exact Hy.
Qed.

Lemma update_id_absent (i : nat) (f : node -> node) (n : node) :
  ~ In i (ids n) -> update_id i f n = n.
Proof.
  induction n as [j t a tx tl cs IH] using node_ind. intros H.
  rewrite ids_unfold in H. cbn [nid children] in H.
  rewrite update_id_unfold. cbn [nid children set_children].
  destruct (j =? i) eqn:E.
  - apply Nat.eqb_eq in E. exfalso. apply H. left. exact E.
  - f_equal. apply map_id_in. intros c Hc. rewrite Forall_forall in IH.
    apply (IH c Hc). intros Hin. apply H. right. apply in_flat_map. exists c. split; assumption.
Qed.

Lemma update_id_nid (i : nat) (f : node -> node) (n : node) :
  (forall x, nid (f x) = nid x) -> nid (update_id i f n) = nid n.
Proof.
  intros Hf. rewrite update_id_unfold. destruct (nid n =? i); [apply Hf|].
  destruct n; reflexivity.
Qed.

Lemma shrinks_ids (t' t : node) : shrinks t' t -> incl (ids t') (ids t).
Proof.
  intros [_ S] x Hx. rewrite ids_all_heads in *.
  exact (subseq_In _ _ x (subseq_map _ _ _ S) Hx).
Qed.

Lemma first_some_map_ext {A R : Type} (f g : A -> option R) (u : A -> A) (l : list A) :
  (forall x, In x l -> f (u x) = g x) ->
  first_some f (map u l) = first_some g l.
Proof.
  induction l as [|x l IH]; intros H; [reflexivity|]. cbn [map first_some].
  rewrite (H x) by (left; reflexivity).
  destruct (g x); [reflexivity|]. apply IH. intros y Hy. apply H. right. exact Hy.
Qed.



(** The lookup of an identity that is neither below nor above the one that
    was mutated. *)
Lemma find_id_update_other (i j : nat) (f : node -> node) (n : node) :
  (forall x, shrinks (f x) x) ->
  (forall y, In y (iter n) -> nid y = j -> ~ In i (ids y)) ->
  (forall x, In x (iter n) -> nid x = i -> ~ In j (ids x)) ->
  find_id j (update_id i f n) = find_id j n.
Proof.
  intros Hf. induction n as [k t a tx tl cs IH] using node_ind. intros H1 H2.
  rewrite update_id_unfold. cbn [nid children].
  destruct (k =? i) eqn:Ei.
  - apply Nat.eqb_eq in Ei.
    assert (Hj : ~ In j (ids (Node k t a tx tl cs))).
    { apply H2; [rewrite iter_unfold; left; reflexivity | exact Ei]. }
    rewrite (find_id_absent j _ Hj). apply find_id_absent.
    intros Hin. apply Hj. exact (shrinks_ids _ _ (Hf _) j Hin).
  - rewrite !find_id_unfold. cbn [set_children nid children].
    destruct (k =? j) eqn:Ej.
    + apply Nat.eqb_eq in Ej. f_equal.
      assert (Hi : ~ In i (ids (Node k t a tx tl cs))).
      { apply H1; [rewrite iter_unfold; left; reflexivity | exact Ej]. }
      pose proof (update_id_absent i f _ Hi) as E.
      rewrite update_id_unfold in E. cbn [nid children set_children] in E.
      rewrite Ei in E. exact E.
    + apply first_some_map_ext. intros c Hc. rewrite Forall_forall in IH.
      apply (IH c Hc).
      * intros y Hy. apply H1. apply descendants_in_iter.
        exact (in_children_iter (Node k t a tx tl cs) c y Hc Hy).
      * intros x Hx. apply H2. apply descendants_in_iter.
        exact (in_children_iter (Node k t a tx tl cs) c x Hc Hx).
Qed.

(** *** [within] *)

Lemma within_refl (t : node) : within t t.
Proof. intros x Hx. exists x. split; [exact Hx | split; [reflexivity | apply incl_refl]]. Qed.

Lemma within_trans (a b c : node) : within a b -> within b c -> within a c.
Proof.
  intros H1 H2 x Hx. destruct (H1 x Hx) as (y & Hy & Ey & Iy).
  destruct (H2 y Hy) as (z & Hz & Ez & Iz).
  exists z. split; [exact Hz | split; [congruence | exact (incl_tran Iy Iz)]].
Qed.

Lemma update_id_within (i : nat) (f : node -> node) (n : node) :
  (forall x, shrinks (f x) x) -> (forall x, within (f x) x) ->
  within (update_id i f n) n.
Proof.
  intros Hs Hf. induction n as [k t a tx tl cs IH] using node_ind.
  intros x' Hx'. pose proof (update_id_shrinks i f (Node k t a tx tl cs) Hs) as Hsh.
  rewrite update_id_unfold in Hx', Hsh. cbn [nid children] in Hx', Hsh.
  destruct (k =? i) eqn:Ei; [exact (Hf _ x' Hx')|].
  rewrite iter_unfold in Hx'. destruct Hx' as [<- | Hx'].
  - exists (Node k t a tx tl cs). split; [rewrite iter_unfold; left; reflexivity|].
    split; [reflexivity | exact (shrinks_ids _ _ Hsh)].
  - cbn [set_children children] in Hx'.
    apply in_flat_map in Hx' as (c' & Hc' & Hx').
    apply in_map_iff in Hc' as (c & <- & Hc).
    rewrite Forall_forall in IH. destruct (IH c Hc x' Hx') as (x & Hx & Ex & Ix).
    exists x. split; [|split; assumption].
    apply descendants_in_iter. exact (in_children_iter (Node k t a tx tl cs) c x Hc Hx).
Qed.

(** *** The normalization of a list item *)


Lemma normalized_shrinks (n : node) : shrinks (normalized n) n.
Proof.
  destruct n as [j t a tx tl cs]. unfold normalized. cbn [set_text set_children].
  apply shrinks_node. apply subseq_nil_l.
Qed.

Lemma normalized_within (n : node) : within (normalized n) n.
Proof.
  intros x' Hx'. destruct n as [j t a tx tl cs].
  unfold normalized in Hx'. cbn [set_text set_children iter children flat_map] in Hx'.
  destruct Hx' as [<- | []].
  exists (Node j t a tx tl cs). split; [rewrite iter_unfold; left; reflexivity|].
  split; [reflexivity|]. intros x [<- | []]. rewrite ids_unfold. left. reflexivity.
Qed.

(** ** List-item normalization *)

Lemma NoDup_flat_map_common {A C : Type} (f : A -> list C) (l : list A) (a b : A) (x : C) :
  NoDup (flat_map f l) -> In a l -> In b l -> In x (f a) -> In x (f b) -> a = b.
Proof.
  induction l as [|y l IH]; intros H Ha Hb Hxa Hxb; [contradiction|].
  cbn [flat_map] in H.
  destruct Ha as [-> | Ha], Hb as [-> | Hb].
  - reflexivity.
  - exfalso. apply (NoDup_app_disjoint _ _ x H Hxa).
    apply in_flat_map. exists b. split; assumption.
  - exfalso. apply (NoDup_app_disjoint _ _ x H Hxb).
    apply in_flat_map. exists a. split; assumption.
  - exact (IH (NoDup_app_r _ _ H) Ha Hb Hxa Hxb).
Qed.

Lemma existsb_keys (l : list node) (j : nat) :
  existsb (fun item => true && (nid item =? j)) l = mem (map nid l) j.
Proof.
  unfold mem. induction l as [|x l IH]; [reflexivity|]. cbn [existsb map].
  rewrite IH, (Nat.eqb_sym (nid x)). reflexivity.
Qed.

Lemma fold_remove_all (l : list node) (t : node) :
  fold_left (fun t c => Parser.remove c t) l t = remove_ids (mem (map nid l)) t.
Proof.
  pose proof (fold_remove_ids (fun _ : node => true) nid l (fun _ => false) t) as H.
  rewrite remove_ids_none in H. cbn beta iota in H. unfold Parser.remove.
  rewrite H. apply remove_ids_ext. intros d _. cbn [orb]. apply existsb_keys.
Qed.

Lemma update_id_ext (i : nat) (f g : node -> node) (n : node) :
  (forall y, In y (iter n) -> nid y = i -> f y = g y) ->
  update_id i f n = update_id i g n.
Proof.
  induction n as [k t a tx tl cs IH] using node_ind. intros H.
  rewrite !update_id_unfold. cbn [nid children].
  destruct (k =? i) eqn:E.
  - apply Nat.eqb_eq in E. apply H; [rewrite iter_unfold; left; reflexivity | exact E].
  - cbn [set_children]. f_equal. apply map_ext_in. intros c Hc.
    rewrite Forall_forall in IH. apply (IH c Hc). intros y Hy. apply H.
    apply descendants_in_iter. exact (in_children_iter (Node k t a tx tl cs) c y Hc Hy).
Qed.

Lemma flat_map_singletons {A C : Type} (F : A -> list C) (V : A -> C) (l : list A) :
  (forall x, In x l -> F x = [V x]) -> flat_map F l = map V l.
Proof.
  induction l as [|x l IH]; intros H; [reflexivity|]. cbn [flat_map map].
  rewrite (H x) by (left; reflexivity). cbn [app]. f_equal.
  apply IH. intros y Hy. apply H. right. exact Hy.
Qed.

Lemma flat_map_all_nil {A C : Type} (F : A -> list C) (l : list A) :
  (forall x, In x l -> F x = []) -> flat_map F l = [].
Proof.
  induction l as [|x l IH]; intros H; [reflexivity|]. cbn [flat_map].
  rewrite (H x) by (left; reflexivity). apply IH. intros y Hy. apply H. right. exact Hy.
Qed.

Lemma self_not_descendant (n : node) : wf n -> ~ In n (descendants n).
Proof.
  intros Hwf Hin. apply (wf_root_fresh n Hwf).
  apply in_descendants in Hin as (c & Hc & Hin).
  apply in_flat_map. exists c. split; [exact Hc | apply in_iter_ids; exact Hin].
Qed.

(** Detaching the children of the element of identity [i] one by one, after
    a mutation [g] of that element, is the mutation that also empties it. *)
Lemma remove_children_at (i : nat) (g : node -> node) (x : node) (n : node) :
  (forall y, g y = set_text (text (g y)) y) ->
  wf n ->
  find_id i n = Some x ->
  (forall y, In y (descendants n) -> In (nid y) (map nid (children x)) ->
             In y (descendants x)) ->
  remove_ids (mem (map nid (children x))) (update_id i g n)
  = update_id i (fun y => set_children [] (g y)) n.
Proof.
  intros Hg. set (K := map nid (children x)).
  induction n as [k t a tx tl cs IH] using node_ind. intros Hwf Hfind Hin.
  rewrite !update_id_unfold. rewrite find_id_unfold in Hfind. cbn [nid children] in *.
  destruct (k =? i) eqn:Ei.
  - injection Hfind as <-. rewrite Hg. cbn [set_text remove_ids children set_children].
    f_equal. apply flat_map_all_nil. intros c Hc.
    assert (Hm : mem K (nid c) = true) by (apply mem_In; unfold K; apply in_map; exact Hc).
    rewrite Hm. reflexivity.
  - cbn [set_children remove_ids children]. f_equal.
    rewrite flat_map_concat_map, map_map, <- flat_map_concat_map.
    apply flat_map_singletons. intros c Hc.
    pose proof (wf_child (Node k t a tx tl cs) c Hwf Hc) as Hwfc.
    destruct (first_some_find i cs x Hfind) as (c0 & Hc0 & Hf0).
    destruct (find_id_in i c0 x Hf0) as [Hx0 Hxi].
    assert (Hsame : forall y, In y (iter c) -> In y (descendants x) -> c = c0).
    { intros y Hy Hyx.
      apply (NoDup_flat_map_common ids cs c c0 (nid y)
               (wf_forest (Node k t a tx tl cs) Hwf) Hc Hc0).
      - apply in_iter_ids. exact Hy.
      - apply in_iter_ids. apply (iter_trans c0 x y Hx0). apply descendants_in_iter. exact Hyx. }
    assert (Hnid : nid (update_id i g c) = nid c).
    { apply update_id_nid. intros y. rewrite Hg. destruct y; reflexivity. }
    rewrite Hnid.
    destruct (mem K (nid c)) eqn:Em.
    + exfalso. apply mem_In in Em.
      assert (Hcx : In c (descendants x)).
      { apply Hin; [|exact Em].
        apply (in_children_iter (Node k t a tx tl cs) c c Hc). rewrite iter_unfold. left. reflexivity. }
      assert (c = c0) by (apply (Hsame c); [rewrite iter_unfold; left; reflexivity | exact Hcx]).
      subst c0. apply (self_not_descendant c Hwfc).
      destruct (in_descendants x c Hcx) as (kx & Hkx & Hck).
      rewrite iter_unfold in Hx0. destruct Hx0 as [<- | Hx0].
      * exact Hcx.
      * apply in_descendants in Hx0 as (c' & Hc' & Hx0).
        apply (in_children_iter c c' c Hc'). apply (iter_trans c' x c Hx0).
        apply descendants_in_iter. exact Hcx.
    + f_equal. destruct (find_id i c) as [x'|] eqn:Efc.
      * destruct (find_id_in i c x' Efc) as [Hx' Hx'i].
        assert (x' = x).
        { apply (wf_nid_inj (Node k t a tx tl cs) x' x Hwf).
          - apply descendants_in_iter. exact (in_children_iter (Node k t a tx tl cs) c x' Hc Hx').
          - apply descendants_in_iter. exact (in_children_iter (Node k t a tx tl cs) c0 x Hc0 Hx0).
          - congruence. }
        subst x'. rewrite Forall_forall in IH. apply (IH c Hc Hwfc Efc).
        intros y Hy. apply Hin.
        apply (in_children_iter (Node k t a tx tl cs) c y Hc). apply descendants_in_iter. exact Hy.
      * assert (Hi : ~ In i (ids c)).
        { intros Hi. destruct (find_id_present i c Hi) as (d & Hd). congruence. }
        rewrite !(update_id_absent i _ c Hi).
        rewrite <- (remove_ids_none c) at 2. apply remove_ids_ext. intros y Hy.
        destruct (mem K (nid y)) eqn:Emy; [|reflexivity].
        exfalso. apply mem_In in Emy.
        assert (Hyx : In y (descendants x)).
        { apply Hin; [|exact Emy].
          apply (in_children_iter (Node k t a tx tl cs) c y Hc). apply descendants_in_iter. exact Hy. }
        assert (c = c0) by (apply (Hsame y); [apply descendants_in_iter; exact Hy | exact Hyx]).
        subst c0. apply Hi. rewrite <- Hxi. apply in_iter_ids. exact Hx0.
Qed.

(** In a well-formed tree the body of the loop over the items is the
    normalization of the spec, applied to the item of that identity. *)
Lemma normalize_item_update (t li : node) :
  wf t -> normalize_item t li = update_id (nid li) normalized t.
Proof.
  intros Hwf. unfold normalize_item.
  destruct (find_id (nid li) t) as [li_now|] eqn:Ef.
  - destruct (find_id_in _ _ _ Ef) as [Hin Hid].
    unfold Parser.getChildren. rewrite fold_remove_all.
    rewrite (remove_children_at (nid li) (set_text (Parser.getText li_now ++ marker)) li_now t).
    + apply update_id_ext. intros y Hy Hyi.
      assert (y = li_now) by (apply (wf_nid_inj t y li_now Hwf Hy Hin); congruence).
      subst y. reflexivity.
    + intros y. destruct y; reflexivity.
    + exact Hwf.
    + exact Ef.
    + intros y Hy Hk. apply in_map_iff in Hk as (c & Ec & Hc).
      assert (Hcx : In c (descendants li_now)).
      { apply (in_children_iter li_now c c Hc). rewrite iter_unfold. left. reflexivity. }
      assert (y = c).
      { apply (wf_nid_inj t y c Hwf (descendants_in_iter t y Hy)); [|congruence].
        apply (iter_trans t li_now c Hin). apply descendants_in_iter. exact Hcx. }
      subst y. exact Hcx.
  - symmetry. apply update_id_absent. intros Hi.
    destruct (find_id_present _ _ Hi) as (d & Hd). congruence.
Qed.

(** Two elements above the same element are one above the other. *)
Lemma ancestors_comparable (n : node) :
  forall x y z, wf n -> In x (iter n) -> In y (iter n) ->
                In z (iter x) -> In z (iter y) ->
                In x (iter y) \/ In y (iter x).
Proof.
  induction n as [k t a tx tl cs IH] using node_ind. intros x y z Hwf Hx Hy Hzx Hzy.
  rewrite iter_unfold in Hx, Hy. cbn [children] in Hx, Hy.
  destruct Hx as [<- | Hx].
  - right. rewrite iter_unfold. cbn [children]. exact Hy.
  - destruct Hy as [<- | Hy].
    + left. rewrite iter_unfold. cbn [children]. right. exact Hx.
    + apply in_flat_map in Hx as (c1 & Hc1 & Hx). apply in_flat_map in Hy as (c2 & Hc2 & Hy).
      assert (c1 = c2).
      { apply (NoDup_flat_map_common ids cs c1 c2 (nid z)
                 (wf_forest (Node k t a tx tl cs) Hwf) Hc1 Hc2).
        - apply in_iter_ids. exact (iter_trans c1 x z Hx Hzx).
        - apply in_iter_ids. exact (iter_trans c2 y z Hy Hzy). }
      subst c2. rewrite Forall_forall in IH.
      exact (IH c1 Hc1 x y z (wf_child (Node k t a tx tl cs) c1 Hwf Hc1) Hx Hy Hzx Hzy).
Qed.

Lemma getElementsByTag_In (n d : node) (t : pystr) :
  In d (Parser.getElementsByTag n t) <-> In d (descendants n) /\ tag d = t.
Proof.
  unfold Parser.getElementsByTag. rewrite filter_In, str_eqb_eq. reflexivity.
Qed.

Lemma in_ids_wf (top w : node) (i : nat) :
  wf top -> In w (iter top) -> In i (ids w) ->
  exists d, In d (iter w) /\ In d (iter top) /\ nid d = i.
Proof.
  intros Hwf Hw Hi. apply in_ids_iter in Hi as (d & Hd & E).
  exists d. split; [exact Hd | split; [exact (iter_trans top w d Hw Hd) | exact E]].
Qed.

Lemma in_iter_cases (n d : node) : In d (iter n) -> d = n \/ In d (descendants n).
Proof. rewrite iter_unfold. intros [<- | H]; [left; reflexivity | right; exact H]. Qed.

Lemma wf_NoDup_descendants (n : node) : wf n -> NoDup (descendants n).
Proof. intros H. exact (NoDup_map_inv nid _ (wf_descendants_NoDup n H)). Qed.

Lemma NoDup_filter_keep {A : Type} (f : A -> bool) (l : list A) :
  NoDup l -> NoDup (filter f l).
Proof.
  induction l as [|x l IH]; intros H; [constructor|].
  inversion H as [|? ? Hx Hl]; subst. cbn [filter].
  destruct (f x); [|exact (IH Hl)].
  constructor; [|exact (IH Hl)]. intros Hin. apply filter_In in Hin as [Hin _]. contradiction.
Qed.

Lemma in_removelast {A : Type} (l : list A) (x : A) : In x (removelast l) -> In x l.
Proof.
  induction l as [|y l IH]; [intros []|].
  destruct l as [|z l]; [intros []|].
  change (removelast (y :: z :: l)) with (y :: removelast (z :: l)).
  intros [<- | H]; [left; reflexivity | right; exact (IH H)].
Qed.



Section ItemProofs.
Variable top : node.
Hypothesis Hwf : wf top.
Hypothesis Hflat : unnested_lists top.

Lemma ul_in u : In u (ul_list top) -> In u (descendants top) /\ tag u = py "ul".
Proof. apply getElementsByTag_In. Qed.

Lemma li_in u li :
  In u (ul_list top) -> In li (li_list u) ->
  In li (descendants u) /\ In li (iter top) /\ tag li = py "li".
Proof.
  intros Hu Hli. apply getElementsByTag_In in Hli as [Hd Ht].
  split; [exact Hd | split; [|exact Ht]].
  apply (iter_trans top u li); [apply descendants_in_iter, ul_in; exact Hu|].
  apply descendants_in_iter. exact Hd.
Qed.

(** An item belongs to one list container. *)
Lemma li_one_list u u' li :
  In u (ul_list top) -> In u' (ul_list top) ->
  In li (li_list u) -> In li (li_list u') -> u = u'.
Proof.
  intros Hu Hu' Hli Hli'.
  destruct (ul_in u Hu) as [Hud Hut]. destruct (ul_in u' Hu') as [Hud' Hut'].
  destruct (li_in u li Hu Hli) as (Hd & _ & _).
  destruct (li_in u' li Hu' Hli') as (Hd' & _ & _).
  destruct (ancestors_comparable top u u' li Hwf
              (descendants_in_iter _ _ Hud) (descendants_in_iter _ _ Hud')
              (descendants_in_iter _ _ Hd) (descendants_in_iter _ _ Hd')) as [H | H];
    apply in_iter_cases in H as [H | H]; try congruence.
  - exfalso. destruct (Hflat u' Hu') as [Hn _].
    assert (Hin : In u (Parser.getElementsByTag u' (py "ul")))
      by (apply getElementsByTag_In; split; assumption).
    rewrite Hn in Hin. exact Hin.
  - exfalso. destruct (Hflat u Hu) as [Hn _].
    assert (Hin : In u' (Parser.getElementsByTag u (py "ul")))
      by (apply getElementsByTag_In; split; assumption).
    rewrite Hn in Hin. exact Hin.
Qed.

(** A list container and an item of another list container. *)
Lemma ul_li_unrelated e u' li :
  In e (ul_list top) -> In u' (ul_list top) -> e <> u' -> In li (li_list u') ->
  unrelated e li.
Proof.
  intros He Hu' Hne Hli.
  destruct (ul_in e He) as [Hed Het]. destruct (ul_in u' Hu') as [Hud' Hut'].
  destruct (li_in u' li Hu' Hli) as (Hd' & Hlt & Hlit).
  assert (Htags : e <> li).
  { intros ->. rewrite Het in Hlit. vm_compute in Hlit. discriminate. }
  split; intros Hin.
  - destruct (in_ids_wf top e (nid li) Hwf (descendants_in_iter _ _ Hed) Hin)
      as (d & Hde & Hdt & E).
    assert (d = li) by (apply (wf_nid_inj top d li Hwf Hdt Hlt E)). subst d.
    apply in_iter_cases in Hde as [Hde | Hde]; [congruence|].
    apply Hne. apply (li_one_list e u' li He Hu'); [|exact Hli].
    apply getElementsByTag_In. split; assumption.
  - destruct (in_ids_wf top li (nid e) Hwf Hlt Hin) as (d & Hdl & Hdt & E).
    assert (d = e) by (apply (wf_nid_inj top d e Hwf Hdt (descendants_in_iter _ _ Hed) E)).
    subst d. apply in_iter_cases in Hdl as [Hdl | Hdl]; [congruence|].
    destruct (Hflat u' Hu') as [Hn _].
    assert (Hx : In e (Parser.getElementsByTag u' (py "ul"))).
    { apply getElementsByTag_In. split; [|exact Het].
      destruct (in_descendants li e Hdl) as (c & Hc & Hec).
      apply in_descendants in Hd' as (c' & Hc' & Hlc).
      apply (in_children_iter u' c' e Hc'). apply (iter_trans c' li e Hlc).
      apply descendants_in_iter. exact Hdl. }
    rewrite Hn in Hx. exact Hx.
Qed.

(** Two items. *)
Lemma li_not_below_li u u' li li' :
  In u (ul_list top) -> In u' (ul_list top) ->
  In li (li_list u) -> In li' (li_list u') -> li <> li' ->
  ~ In (nid li') (ids li).
Proof.
  { intros Hu Hu' Hli Hli' Hne Hin.
    destruct (li_in u li Hu Hli) as (_ & Hlt & Hlit).
    destruct (li_in u' li' Hu' Hli') as (_ & Hlt' & Hlit').
    destruct (in_ids_wf top li (nid li') Hwf Hlt Hin) as (d & Hdl & Hdt & E).
    assert (d = li') by (apply (wf_nid_inj top d li' Hwf Hdt Hlt' E)). subst d.
    apply in_iter_cases in Hdl as [Hdl | Hdl]; [congruence|].
    destruct (Hflat u Hu) as [_ Hn].
    assert (Hx : In li' (Parser.getElementsByTag li (py "li")))
      by (apply getElementsByTag_In; split; assumption).
    rewrite (Hn li Hli) in Hx. exact Hx. }
Qed.

Lemma li_li_unrelated u u' li li' :
  In u (ul_list top) -> In u' (ul_list top) ->
  In li (li_list u) -> In li' (li_list u') -> li <> li' ->
  unrelated li li'.
Proof.
  intros Hu Hu' Hli Hli' Hne. split.
  - exact (li_not_below_li u u' li li' Hu Hu' Hli Hli' Hne).
  - apply (li_not_below_li u' u li' li Hu' Hu Hli' Hli). congruence.
Qed.

Lemma ul_list_NoDup : NoDup (ul_list top).
Proof. apply NoDup_filter_keep, wf_NoDup_descendants, Hwf. Qed.

Lemma li_list_NoDup u : In u (ul_list top) -> NoDup (li_list u).
Proof.
  intros Hu. apply NoDup_filter_keep, wf_NoDup_descendants.
  apply (wf_descendant top u Hwf). apply descendants_in_iter, ul_in. exact Hu.
Qed.

Lemma in_targets uls li :
  In li (targets uls) -> exists u, In u uls /\ In li (removelast (li_list u)).
Proof. unfold targets. intros H. apply in_flat_map in H. exact H. Qed.


(** *** Following an element through the mutations *)

Lemma track_one t w li :
  within t top -> In w (iter top) -> In li (iter top) -> unrelated w li ->
  find_id (nid w) (update_id (nid li) normalized t) = find_id (nid w) t.
Proof.
  intros Hin Hw Hli [H1 H2]. apply find_id_update_other.
  - exact normalized_shrinks.
  - intros y Hy Ey Hc. destruct (Hin y Hy) as (y0 & Hy0 & E0 & I0).
    assert (y0 = w) by (apply (wf_nid_inj top y0 w Hwf Hy0 Hw); congruence). subst y0.
    apply H1. apply I0. exact Hc.
  - intros x Hx Ex Hc. destruct (Hin x Hx) as (x0 & Hx0 & E0 & I0).
    assert (x0 = li) by (apply (wf_nid_inj top x0 li Hwf Hx0 Hli); congruence). subst x0.
    apply H2. apply I0. exact Hc.
Qed.


Lemma update_all_shrinks T : forall t, shrinks (update_all T t) t.
Proof.
  intros t. unfold update_all. apply fold_left_shrinks.
  intros t' li. apply update_id_shrinks. exact normalized_shrinks.
Qed.

Lemma track_all T w :
  In w (iter top) ->
  (forall li, In li T -> In li (iter top) /\ unrelated w li) ->
  forall t, within t top -> find_id (nid w) (update_all T t) = find_id (nid w) t.
Proof.
  intros Hw. induction T as [|li T IH]; intros HT t Ht; [reflexivity|].
  cbn [update_all fold_left]. fold (update_all T (update_id (nid li) normalized t)).
  destruct (HT li (or_introl eq_refl)) as [Hli Hun].
  rewrite IH.
  - apply track_one; assumption.
  - intros li' Hli'. apply HT. right. exact Hli'.
  - apply (within_trans _ t _); [|exact Ht].
    apply update_id_within; [exact normalized_shrinks | exact normalized_within].
Qed.

Lemma fold_normalize_update L : forall t,
  wf t -> fold_left normalize_item L t = update_all L t.
Proof.
  induction L as [|li L IH]; intros t Ht; [reflexivity|].
  cbn [fold_left update_all]. rewrite (normalize_item_update t li Ht).
  apply IH. apply (shrinks_wf _ t); [|exact Ht].
  apply update_id_shrinks. exact normalized_shrinks.
Qed.

Lemma targets_app a b : targets (a ++ b) = targets a ++ targets b.
Proof. unfold targets. apply flat_map_app. Qed.

Lemma update_all_app T1 T2 t : update_all (T1 ++ T2) t = update_all T2 (update_all T1 t).
Proof. unfold update_all. apply fold_left_app. Qed.

(** The loop over the list containers normalizes the targets, one after
    the other. *)
Lemma outer_loop todo : forall done,
  ul_list top = done ++ todo ->
  fold_left outer_step todo (update_all (targets done) top)
  = update_all (targets (done ++ todo)) top.
Proof.
  induction todo as [|e todo IH]; intros done E.
  - rewrite app_nil_r. reflexivity.
  - cbn [fold_left].
    assert (He : In e (ul_list top)) by (rewrite E; apply in_or_app; right; left; reflexivity).
    assert (Hfind : find_id (nid e) (update_all (targets done) top) = Some e).
    { rewrite (track_all (targets done) e).
      - apply (find_id_wf top e Hwf). apply descendants_in_iter, ul_in, He.
      - apply descendants_in_iter, ul_in, He.
      - intros li Hli. apply in_targets in Hli as (u' & Hu' & Hli).
        apply in_removelast in Hli.
        assert (Hu'' : In u' (ul_list top)) by (rewrite E; apply in_or_app; left; exact Hu').
        split; [exact (proj1 (proj2 (li_in u' li Hu'' Hli)))|].
        apply (ul_li_unrelated e u' li He Hu''); [|exact Hli].
        intros <-. pose proof ul_list_NoDup as Hnd. rewrite E in Hnd.
        apply NoDup_remove_2 in Hnd. apply Hnd. apply in_or_app. left. exact Hu'.
      - apply within_refl. }
    unfold outer_step at 2. rewrite Hfind.
    rewrite fold_normalize_update
      by (apply (shrinks_wf _ top); [apply update_all_shrinks | exact Hwf]).
    rewrite <- update_all_app.
    assert (Et : targets done ++ removelast (li_list e) = targets (done ++ [e])).
    { rewrite targets_app. unfold targets at 3. cbn [flat_map]. rewrite app_nil_r. reflexivity. }
    rewrite Et, (IH (done ++ [e])); rewrite <- app_assoc; [reflexivity | exact E].
Qed.

Lemma add_newline_to_li_update_all :
  add_newline_to_li top = update_all (targets (ul_list top)) top.
Proof. exact (outer_loop (ul_list top) [] eq_refl). Qed.


Lemma last_item_kept u items li :
  In u (ul_list top) -> li_list u = items ++ [li] ->
  find_id (nid li) (add_newline_to_li top) = Some li.
Proof.
  intros Hu Eu. rewrite add_newline_to_li_update_all.
  assert (Hli : In li (li_list u)) by (rewrite Eu; apply in_or_app; right; left; reflexivity).
  assert (Hlit : In li (iter top)) by exact (proj1 (proj2 (li_in u li Hu Hli))).
  rewrite (track_all (targets (ul_list top)) li Hlit).
  - exact (find_id_wf top li Hwf Hlit).
  - intros li' HT'. apply in_targets in HT' as (u' & Hu' & Hli2).
    pose proof (in_removelast _ _ Hli2) as Hli3.
    split; [exact (proj1 (proj2 (li_in u' li' Hu' Hli3)))|].
    apply (li_li_unrelated u u' li li' Hu Hu' Hli Hli3).
    intros <-. assert (u = u') by exact (li_one_list u u' li Hu Hu' Hli Hli3). subst u'.
    rewrite Eu, removelast_last in Hli2.
    pose proof (li_list_NoDup u Hu) as Hnd. rewrite Eu in Hnd.
    apply NoDup_remove_2 in Hnd. apply Hnd. rewrite app_nil_r. exact Hli2.
  - apply within_refl.
Qed.

End ItemProofs.

(** ** The list of the spec's example *)

Lemma wf_abc_list : wf Examples.abc_list.
Proof. unfold wf. cbv. repeat constructor; cbn; intuition discriminate. Qed.



Lemma unnested_abc_list : unnested_lists Examples.abc_list.
Proof.
  intros u Hu. vm_compute in Hu. destruct Hu as [<- | []].
  split; [reflexivity|]. intros li Hli. vm_compute in Hli.
  destruct Hli as [<- | [<- | [<- | []]]]; reflexivity.
Qed.


Section ListItemTheorem.
Context {B : PyBuiltins} {Sz : Serializer}.


End ListItemTheorem.



(** ** Running the cleanup again *)

Lemma for_each_fixed {A S : Type} (body : S -> A -> result S) (l : list A) (s : S) :
  (forall x, In x l -> body s x = Ok s) -> for_each body l s = Ok s.
Proof.
  induction l as [|x l IH]; intros H; [reflexivity|]. cbn [for_each].
  rewrite (H x) by (left; reflexivity). cbn [bind].
  apply IH. intros y Hy. apply H. right. exact Hy.
Qed.

Lemma Forall_descendants_heads (P : nat * pystr * list (pystr * pystr) -> Prop) (n : node) :
  Forall (fun d => P (head d)) (descendants n) <-> Forall P (map head (descendants n)).
Proof. symmetry. apply Forall_map. Qed.

Lemma without_last_child_descendants (t d : node) :
  In d (descendants (without_last_child t)) -> In d (descendants t).
Proof.
  unfold without_last_child. destruct t as [j tg a tx tl cs].
  cbn [set_children children]. unfold descendants. cbn [children].
  intros H. apply in_flat_map in H as (c & Hc & Hd).
  apply in_flat_map. exists c. split; [exact (in_removelast _ _ Hc) | exact Hd].
Qed.

Lemma last_split {A : Type} (l : list A) : l <> [] -> exists cs x, l = cs ++ [x].
Proof.
  intros H. destruct (exists_last H) as (cs & x & E). exists cs, x. exact E.
Qed.

Section RerunProofs.
Context {B : PyBuiltins}.

Lemma for_each_scores_parse (items : list node) :
  forall t t', for_each score_step items t = Ok t' ->
               Forall (fun d => exists below, score_below_one (gravityScore d) = Ok below) items.
Proof.
  induction items as [|x items IH]; intros t t' H; [constructor|].
  cbn [for_each] in H. unfold score_step at 1 in H. fold (gravityScore x) in H.
  destruct (score_below_one (gravityScore x)) as [below|e] eqn:E; [|discriminate].
  cbn [bind] in H. constructor; [exists below; exact E | exact (IH _ _ H)].
Qed.

(** After the pass every gravityScore below the top node parses and is not
    less than 1. *)
Lemma remove_negativescores_nodes_kept (top t1 : node) :
  wf top -> remove_negativescores_nodes top = Ok t1 ->
  Forall (fun d => score_kept (head d)) (descendants t1).
Proof.
  intros Hwf H.
  assert (Hparse : Forall (fun d => exists below, score_below_one (gravityScore d) = Ok below)
                          (Parser.css_select_gravityScore top))
    by exact (for_each_scores_parse _ _ _ H).
  pose proof (remove_negativescores_nodes_shrinks top t1 H) as Hsh.
  rewrite (remove_negativescores_nodes_prune top Hwf Hparse) in H. injection H as <-.
  assert (Hp : Forall (fun d => score_parses (head d)) (descendants (prune low_score top))).
  { apply (shrinks_Forall score_parses _ top Hsh).
    apply Forall_forall. intros d Hd. unfold score_parses, head. cbn [snd].
    destruct (attr_get (py "gravityScore") (attrib d)) as [s|] eqn:Ea; [|exact I].
    rewrite Forall_forall in Hparse.
    assert (Hs : In d (Parser.css_select_gravityScore top)).
    { apply css_select_gravityScore_spec. split; [exact Hd|].
      unfold gravityScore, Parser.getAttribute. congruence. }
    destruct (Hparse d Hs) as (below & Hb). exists below.
    unfold gravityScore, Parser.getAttribute in Hb. rewrite Ea in Hb. exact Hb. }
  pose proof (prune_no_low low_score top
                (fun d x => ltac:(destruct d; reflexivity))) as Hl.
  rewrite Forall_forall in Hp, Hl |- *. intros d Hd.
  specialize (Hp d Hd). specialize (Hl d Hd).
  unfold score_parses, score_kept, low_score, gravityScore, Parser.getAttribute, head in *.
  cbn [snd] in *.
  destruct (attr_get (py "gravityScore") (attrib d)) as [s|]; [|exact I].
  destruct Hp as (below & Hb). rewrite Hb in Hl |- *. congruence.
Qed.

Lemma remove_negativescores_nodes_id (t : node) :
  Forall (fun d => score_kept (head d)) (descendants t) ->
  remove_negativescores_nodes t = Ok t.
Proof.
  intros H. unfold remove_negativescores_nodes. apply for_each_fixed.
  intros x Hx. apply filter_In in Hx as [Hx Ha].
  rewrite Forall_forall in H. specialize (H x Hx).
  unfold score_kept, head in H. cbn [snd] in H. unfold Parser.getAttribute.
  destruct (attr_get (py "gravityScore") (attrib x)) as [s|]; [|discriminate].
  rewrite H. reflexivity.
Qed.

Lemma add_newline_to_br_id (t : node) :
  Forall (fun d => str_in (tag d) [py "b"; py "strong"; py "i"; py "br"; py "sup"] = false)
         (descendants t) ->
  add_newline_to_br t = t.
Proof.
  intros H. unfold add_newline_to_br.
  assert (E : Parser.getElementsByTag t (py "br") = []).
  { destruct (Parser.getElementsByTag t (py "br")) as [|d l] eqn:E; [reflexivity|].
    assert (Hd : In d (Parser.getElementsByTag t (py "br"))) by (rewrite E; left; reflexivity).
    apply getElementsByTag_In in Hd as [Hd Ht].
    rewrite Forall_forall in H. specialize (H d Hd). rewrite Ht in H. discriminate. }
  rewrite E. reflexivity.
Qed.

Lemma add_newline_to_li_id (t : node) :
  wf t -> lists_settled t -> add_newline_to_li t = t.
Proof.
  intros Hwf H. unfold add_newline_to_li. apply fold_left_fixed.
  intros e He. fold (ul_list t) in He.
  assert (Hin : In e (iter t)).
  { apply descendants_in_iter. apply getElementsByTag_In in He. tauto. }
  rewrite (find_id_wf t e Hwf Hin). fold (li_list e).
  specialize (H e He). destruct (li_list e) as [|x [|y l]]; [reflexivity | reflexivity |].
  cbn [length] in H. lia.
Qed.

Lemma remove_trailing_media_div_id (t : node) :
  trim_settled t -> remove_trailing_media_div t = t.
Proof.
  intros [H | (cs & l & Ecs & El)]; unfold remove_trailing_media_div, Parser.getChildren.
  - apply Nat.ltb_lt in H. rewrite H. reflexivity.
  - destruct (length (children t) <? 3); [reflexivity|].
    rewrite Ecs, last_map_Some.
    rewrite get_depth_nesting_depth. destruct l as [j tg a tx tl k].
    cbn [children] in El. subst k. reflexivity.
Qed.

Lemma remove_trailing_media_div_descendants (t d : node) :
  wf t -> In d (descendants (remove_trailing_media_div t)) -> In d (descendants t).
Proof.
  intros Hwf. unfold remove_trailing_media_div, Parser.getChildren.
  destruct (length (children t) <? 3); [tauto|].
  destruct (children t) as [|c cs] eqn:Ec; [cbn; tauto|].
  destruct (last_split (c :: cs)) as (cs' & l & E); [discriminate|].
  rewrite E, last_map_Some.
  destruct (2 <=? get_depth l 1); [|tauto].
  unfold Parser.remove. rewrite (remove_id_last_child t l cs' Hwf) by congruence.
  intros H. apply without_last_child_descendants.
  unfold without_last_child. rewrite Ec, E, removelast_last. exact H.
Qed.

(** C4, as amended: when the cleanup of a well-formed top node has given a
    tree in which no list container has more than one item and the trailing
    media trim has nothing to remove (fewer than three direct children, or a
    last direct child without children), the cleanup of that tree gives the
    same tree: no node is removed, no text rewritten, no subtree spliced. *)
Theorem C4_cleanup_again (top cleaned : node) :
  wf top ->
  cleanup top = Ok cleaned ->
  lists_settled cleaned ->
  trim_settled cleaned ->
  cleanup cleaned = Ok cleaned.
Proof.
  intros Hwf Hc Hlists Htrim. unfold cleanup in Hc.
  destruct (remove_negativescores_nodes top) as [t1|e] eqn:E1; [|discriminate].
  cbn [bind] in Hc. injection Hc as Hc.
  set (t2 := links_to_text t1) in *.
  set (t3 := add_newline_to_br t2) in *.
  set (t4 := add_newline_to_li t3) in *.
  set (t5 := replace_with_text t4) in *.
  set (t6 := remove_empty_tags t5) in *.
  (* every pass shrinks the tree *)
  pose proof (remove_negativescores_nodes_shrinks top t1 E1) as S1.
  pose proof (links_to_text_shrinks t1 : shrinks t2 t1) as S2.
  pose proof (add_newline_to_br_shrinks t2 : shrinks t3 t2) as S3.
  pose proof (add_newline_to_li_shrinks t3 : shrinks t4 t3) as S4.
  pose proof (replace_with_text_shrinks t4 : shrinks t5 t4) as S5.
  pose proof (remove_empty_tags_shrinks t5 : shrinks t6 t5) as S6.
  pose proof (remove_trailing_media_div_shrinks t6) as S7. rewrite Hc in S7.
  pose proof (shrinks_trans _ _ _ S2 S1) as S02.
  pose proof (shrinks_trans _ _ _ S3 S02) as S03.
  pose proof (shrinks_trans _ _ _ S4 S03) as S04.
  pose proof (shrinks_trans _ _ _ S5 S04) as S05.
  pose proof (shrinks_trans _ _ _ S6 S05) as S06.
  pose proof (shrinks_trans _ _ _ S7 S06) as S07.
  pose proof (shrinks_wf _ _ S05 Hwf) as Hwf5.
  pose proof (shrinks_wf _ _ S06 Hwf) as Hwf6.
  pose proof (shrinks_wf _ _ S07 Hwf) as Hwfc.
  (* what the first run established *)
  assert (Hscore : Forall (fun d => score_kept (head d)) (descendants cleaned)).
  { apply (shrinks_Forall score_kept cleaned t1).
    - exact (shrinks_trans _ _ _ S7
               (shrinks_trans _ _ _ S6
                  (shrinks_trans _ _ _ S5 (shrinks_trans _ _ _ S4 (shrinks_trans _ _ _ S3 S2))))).
    - exact (remove_negativescores_nodes_kept top t1 Hwf E1). }
  assert (Ha : Forall (fun d => str_in (tag d) [py "a"] = false) (descendants cleaned)).
  { apply (shrinks_Forall (fun h => str_in (snd (fst h)) [py "a"] = false) cleaned t2).
    - exact (shrinks_trans _ _ _ S7
               (shrinks_trans _ _ _ S6
                  (shrinks_trans _ _ _ S5 (shrinks_trans _ _ _ S4 S3)))).
    - exact (stripTags_clean [py "a"] t1). }
  assert (Hb : Forall (fun d => str_in (tag d)
                                  [py "b"; py "strong"; py "i"; py "br"; py "sup"] = false)
                      (descendants cleaned)).
  { apply (shrinks_Forall
             (fun h => str_in (snd (fst h))
                         [py "b"; py "strong"; py "i"; py "br"; py "sup"] = false)
             cleaned t5).
    - exact (shrinks_trans _ _ _ S7 S6).
    - exact (stripTags_clean [py "b"; py "strong"; py "i"; py "br"; py "sup"] t4). }
  assert (He : Forall (fun d => is_empty_tag d = false) (descendants cleaned)).
  { pose proof (remove_empty_tags_clean t5 Hwf5) as H6. fold t6 in H6.
    rewrite Forall_forall in H6 |- *. intros d Hd. apply H6.
    rewrite <- Hc in Hd. exact (remove_trailing_media_div_descendants t6 d Hwf6 Hd). }
  (* the second run *)
  unfold cleanup. rewrite (remove_negativescores_nodes_id cleaned Hscore). cbn [bind].
  f_equal.
  assert (E2 : links_to_text cleaned = cleaned) by exact (stripTags_id [py "a"] cleaned Ha).
  rewrite E2, (add_newline_to_br_id cleaned Hb), (add_newline_to_li_id cleaned Hwfc Hlists).
  assert (E5 : replace_with_text cleaned = cleaned) by exact (stripTags_id _ cleaned Hb).
  rewrite E5, (remove_empty_tags_id cleaned Hwfc He).
  exact (remove_trailing_media_div_id cleaned Htrim).
Qed.

End RerunProofs.

Lemma C4_cleanup_again_witness :
  wf Examples.scored
  /\ cleanup (B := Builtins.ascii_builtins) Examples.scored = Ok Examples.scored_cleaned
  /\ lists_settled Examples.scored_cleaned
  /\ trim_settled Examples.scored_cleaned
  /\ cleanup (B := Builtins.ascii_builtins) Examples.scored_cleaned
     = Ok Examples.scored_cleaned.
Proof.
  assert (Hl : lists_settled Examples.scored_cleaned).
  { intros u Hu. vm_compute in Hu. destruct Hu. }
  assert (Ht : trim_settled Examples.scored_cleaned).
  { left. cbn. lia. }
  split; [exact wf_scored|]. split; [reflexivity|].
  split; [exact Hl|]. split; [exact Ht|].
  exact (C4_cleanup_again (B := Builtins.ascii_builtins)
           Examples.scored Examples.scored_cleaned wf_scored eq_refl Hl Ht).
Defined.

(** C4 as stated fails.  The cleanup of the list A, B, C ends each of the
    first two items with a marker, and the cleanup of the result ends them
    with a second marker.  The cleanup of five paragraphs of which the last
    two have an element inside removes the fifth, and the cleanup of the
    result removes the fourth. *)
Lemma C4_counterexample :
  cleanup (B := Builtins.ascii_builtins) Examples.abc_list = Ok Examples.abc_list_cleaned
  /\ cleanup (B := Builtins.ascii_builtins) Examples.abc_list_cleaned
     = Ok Examples.abc_list_cleaned_twice
  /\ option_map text (find_id 2 Examples.abc_list_cleaned) = Some (py "A\n")
  /\ option_map text (find_id 2 Examples.abc_list_cleaned_twice) = Some (py "A\n\n")
  /\ cleanup (B := Builtins.ascii_builtins) Examples.two_deep_last
     = Ok Examples.two_deep_last_cleaned
  /\ cleanup (B := Builtins.ascii_builtins) Examples.two_deep_last_cleaned
     = Ok Examples.two_deep_last_cleaned_twice
  /\ length (children Examples.two_deep_last_cleaned) = 4
  /\ length (children Examples.two_deep_last_cleaned_twice) = 3.
Proof. repeat split; reflexivity. Qed.

(** [get_formatted] is the cleanup followed by [convert_to_text]. *)
Lemma get_formatted_cleanup {B : PyBuiltins} {Sz : Serializer}
      (top : node) (title : option pystr) :
  get_formatted false (Some top) title
  = (t <- cleanup top ;; Ok (convert_to_text_of t title, [])).
Proof.
  unfold get_formatted, cleanup.
  destruct (remove_negativescores_nodes top) as [t1|e]; reflexivity.
Qed.

(** * Further properties of the module *)

(** ** The extractor *)

Lemma join_nil_iff (sep : pystr) (l : list pystr) :
  Forall (fun p => nonempty p = true) l -> (join sep l = [] <-> l = []).
Proof.
  intros H. split; [|intros ->; reflexivity].
  destruct l as [|x l]; [reflexivity|]. intros E. exfalso.
  inversion H as [|? ? Hx _]; subst. cbn [join] in E.
  destruct x as [|c x]; [discriminate|]. destruct l; discriminate.
Qed.

Lemma flat_map_flat_map {A C D : Type} (f : C -> list D) (g : A -> list C) (l : list A) :
  flat_map f (flat_map g l) = flat_map (fun x => flat_map f (g x)) l.
Proof.
  induction l as [|x l IH]; [reflexivity|]. cbn [flat_map].
  rewrite flat_map_app, IH. reflexivity.
Qed.

Lemma flat_map_map_filter2 {A C D : Type} (y : C -> list D) (h : A -> C)
      (p1 p2 : A -> bool) (l : list A) :
  flat_map y (map h (filter p2 (filter p1 l)))
  = flat_map (fun x => if p1 x then if p2 x then y (h x) else [] else []) l.
Proof.
  induction l as [|x l IH]; [reflexivity|]. cbn [filter flat_map].
  destruct (p1 x); cbn [filter]; [|exact IH].
  destruct (p2 x); cbn [map flat_map]; rewrite IH; reflexivity.
Qed.

Lemma flat_map_eq_in {A C : Type} (f g : A -> list C) (l : list A) :
  (forall x, In x l -> f x = g x) -> flat_map f l = flat_map g l.
Proof.
  induction l as [|x l IH]; intros H; [reflexivity|]. cbn [flat_map].
  rewrite (H x) by (left; reflexivity). f_equal.
  apply IH. intros y Hy. apply H. right. exact Hy.
Qed.

Lemma iter_from_unfold (parent : option node) (n : node) :
  iter_from parent n = (parent, n) :: flat_map (iter_from (Some n)) (children n).
Proof. destruct n; reflexivity. Qed.

Section ExtractorExtras.
Context {B : PyBuiltins}.

Lemma yield_parts_not_title (t s : pystr) :
  Forall (fun part => str_eqb part t = false) (yield_parts (Some t) s).
Proof.
  unfold yield_parts. apply Forall_forall. intros p Hp.
  apply filter_In in Hp as [Hp Ht]. apply filter_In in Hp as [_ Hn].
  destruct (str_eqb p t) eqn:E; [|reflexivity].
  apply str_eqb_eq in E. subst t. rewrite Hn in Ht. discriminate.
Qed.

(** X1: a fragment equal to the title is never yielded by [extract_text],
    and never among the fragments that [convert_to_text] joins. *)
Theorem X1_title_is_never_a_fragment (parent : option node) (n top : node) (t : pystr) :
  Forall (fun part => str_eqb part t = false) (fragments (extract_text parent n (Some t)))
  /\ Forall (fun part => str_eqb part t = false) (retained top (Some t))
  /\ convert_to_text (Some top) (Some t) = Ok (join [10; 10]%N (retained top (Some t))).
Proof.
  split; [|split].
  - cbn [extract_text fragments].
    apply (extract_text_body_all (fun part => str_eqb part t = false)).
    apply yield_parts_not_title.
  - apply retained_all, flattened_elements_all, yield_parts_not_title.
  - cbn [convert_to_text]. rewrite convert_to_text_of_retained. reflexivity.
Qed.

(** X2: no fragment is empty, so the text of [convert_to_text] is empty
    exactly when there is no fragment at all, or one fragment only and that
    of a single word. *)
Theorem X2_empty_text (top : node) (title : option pystr) :
  Forall (fun part => nonempty part = true) (flattened_elements top title)
  /\ (convert_to_text (Some top) title = Ok []
      <-> flattened_elements top title = []
          \/ exists f, flattened_elements top title = [f] /\ length (split_ws f) = 1).
Proof.
  pose proof (flattened_elements_all (fun p => nonempty p = true) top title
                (yield_parts_nonempty title)) as Hne.
  split; [exact Hne|].
  cbn [convert_to_text]. rewrite convert_to_text_of_retained.
  assert (Hr : Forall (fun p => nonempty p = true) (retained top title))
    by (apply retained_all; exact Hne).
  rewrite retained_by_words_eq in Hr |- *.
  unfold retained_by_words in *.
  destruct (flattened_elements top title) as [|f rest] eqn:Ef.
  - split; [intros _; left; reflexivity | reflexivity].
  - destruct (length (split_ws f) =? 1) eqn:Ew.
    + apply Nat.eqb_eq in Ew. split.
      * intros E. injection E as E.
        apply (proj1 (join_nil_iff [10; 10]%N rest Hr)) in E. subst rest.
        right. exists f. split; [reflexivity | exact Ew].
      * intros [H | (g & [= -> ->] & _)]; [discriminate | reflexivity].
    + apply Nat.eqb_neq in Ew. split.
      * intros E. injection E as E.
        apply (proj1 (join_nil_iff [10; 10]%N (f :: rest) Hr)) in E. discriminate.
      * intros [H | (g & [= -> ->] & Hg)]; [discriminate | contradiction].
Qed.

Lemma visit_below (title : option pystr) (n : node) :
  forall parent,
    flat_map (fun pc => if negb (is_excluded (fst pc) (snd pc))
                        then if nonempty (text (snd pc))
                             then yield_parts title (innerTrim (unescape (text (snd pc))))
                             else []
                        else [])
             (iter_from parent n)
    = below title parent n.
Proof.
  induction n as [j t a tx tl cs IH] using node_ind. intros parent.
  rewrite iter_from_unfold. cbn [flat_map fst snd children below].
  f_equal.
  - unfold own_parts. destruct (is_excluded parent (Node j t a tx tl cs)); reflexivity.
  - rewrite flat_map_flat_map. apply flat_map_eq_in. intros c Hc.
    rewrite Forall_forall in IH. exact (IH c Hc (Some (Node j t a tx tl cs))).
Qed.

(** X3: exclusion is not inherited.  [extract_text] yields nothing for an
    excluded node; for any other node it yields, element by element in
    document order, the parts of each element that is not itself excluded:
    below the node an excluded element loses its own text only, and the
    texts of its descendants are still yielded. *)
Theorem X3_exclusion_is_not_inherited (parent : option node) (n : node)
        (title : option pystr) :
  fragments (extract_text parent n title)
  = (if is_excluded parent n then [] else below title parent n)
  /\ (forall p c, is_excluded p c = true ->
                  below title p c = flat_map (below title (Some c)) (children c))
  /\ (forall p c, is_excluded p c = false ->
                  below title p c
                  = (if nonempty (text c)
                     then yield_parts title (innerTrim (unescape (text c))) else [])
                    ++ flat_map (below title (Some c)) (children c)).
Proof.
  split; [|split].
  - cbn [extract_text fragments]. unfold extract_text_body.
    destruct (is_excluded parent n); [reflexivity|].
    rewrite (flat_map_map_filter2 (yield_parts title)
               (fun pc => innerTrim (unescape (text (snd pc))))).
    apply visit_below.
  - intros p c H. destruct c as [j t a tx tl cs]. cbn [below children].
    unfold own_parts. rewrite H. reflexivity.
  - intros p c H. destruct c as [j t a tx tl cs]. cbn [below children text].
    unfold own_parts. rewrite H. reflexivity.
Qed.

(** X4: a figure or figcaption element is excluded wherever it is, and so is
    each of its direct children, whatever their tag, classes and text;
    [extract_text] yields nothing for either. *)
Theorem X4_captions_are_excluded (p n : node) (title : option pystr) :
  In (tag p) EXCLUDED_TAGS -> In n (children p) ->
  (forall parent, is_excluded parent p = true)
  /\ is_excluded (Some p) n = true
  /\ (forall parent, extract_text parent p title = PyGenerator [])
  /\ extract_text (Some p) n title = PyGenerator [].
Proof.
  intros Hp Hn.
  assert (H1 : forall parent, is_excluded parent p = true).
  { intros parent. rewrite is_excluded_orb. unfold _is_tag_excluded.
    apply str_in_In in Hp. rewrite Hp. reflexivity. }
  assert (H2 : is_excluded (Some p) n = true).
  { rewrite is_excluded_orb. unfold _is_tag_excluded.
    assert (Hb : elem_bool p = true).
    { unfold elem_bool. destruct (children p); [contradiction | reflexivity]. }
    apply str_in_In in Hp. rewrite Hb, Hp.
    destruct (str_in (tag n) EXCLUDED_TAGS); reflexivity. }
  split; [exact H1|]. split; [exact H2|]. split.
  - intros parent. apply extract_text_excluded. apply H1.
  - apply extract_text_excluded. exact H2.
Qed.

End ExtractorExtras.

Lemma X4_captions_are_excluded_witness :
  In (tag MoreExamples.figure) EXCLUDED_TAGS
  /\ is_excluded (Some MoreExamples.figure) (el 2 "p" [] "a caption here" "" []) = true.
Proof.
  assert (Hp : In (tag MoreExamples.figure) EXCLUDED_TAGS) by (left; reflexivity).
  split; [exact Hp|].
  exact (proj1 (proj2 (X4_captions_are_excluded (B := Builtins.ascii_builtins)
                         MoreExamples.figure (el 2 "p" [] "a caption here" "" []) None
                         Hp (or_introl eq_refl)))).
Defined.

(** ** The passes *)

(** X5: in [remove_empty_tags] the test on a br whose text is a backslash and
    the letter r never decides: an element is removed exactly when its
    accumulated text is empty and it has no object and no embed below it. *)
Theorem X5_empty_tag_condition (el : node) :
  is_empty_tag el
  = negb (nonempty (Parser.getText el))
    && (length (Parser.getElementsByTag el (py "object")) =? 0)
    && (length (Parser.getElementsByTag el (py "embed")) =? 0).
Proof.
  unfold is_empty_tag, Parser.getTag.
  destruct (Parser.getText el) as [|c s]; cbn [nonempty negb andb].
  - cbn [str_eqb negb]. rewrite orb_true_r. reflexivity.
  - rewrite andb_false_r. reflexivity.
Qed.

Section PassExtras.
Context {B : PyBuiltins} {Sz : Serializer}.

Lemma cleanup_shrinks (top cleaned : node) :
  cleanup top = Ok cleaned -> shrinks cleaned top.
Proof.
  unfold cleanup. intros H.
  destruct (remove_negativescores_nodes top) as [t1|e] eqn:E1; [|discriminate].
  cbn [bind] in H. injection H as <-.
  pose proof (remove_negativescores_nodes_shrinks top t1 E1) as S1.
  eapply shrinks_trans; [apply remove_trailing_media_div_shrinks|].
  eapply shrinks_trans; [apply remove_empty_tags_shrinks|].
  eapply shrinks_trans; [apply replace_with_text_shrinks|].
  eapply shrinks_trans; [apply add_newline_to_li_shrinks|].
  eapply shrinks_trans; [apply add_newline_to_br_shrinks|].
  eapply shrinks_trans; [apply links_to_text_shrinks | exact S1].
Qed.

(** X7: the cleanup only takes elements away.  The top node stays, with its
    identity, tag and attributes; the elements of the cleaned tree are
    elements of the original tree, in their document order, each with its
    identity, tag and attributes; no element is added, moved or duplicated. *)
Theorem X7_cleanup_only_removes (top cleaned : node) :
  cleanup top = Ok cleaned ->
  head cleaned = head top
  /\ subseq (all_heads cleaned) (all_heads top)
  /\ incl (ids cleaned) (ids top)
  /\ (wf top -> wf cleaned).
Proof.
  intros H. pose proof (cleanup_shrinks top cleaned H) as S.
  split; [exact (proj1 S)|]. split; [exact (proj2 S)|].
  split; [exact (shrinks_ids _ _ S) | exact (shrinks_wf _ _ S)].
Qed.

(** X8: what the cleanup establishes.  Below the cleaned top node there is
    no a, b, strong, i, br or sup element, no element that
    [remove_empty_tags] would remove, and no element whose gravityScore is
    less than 1. *)
Theorem X8_cleanup_postconditions (top cleaned : node) :
  wf top ->
  cleanup top = Ok cleaned ->
  Forall (fun d =>
            str_in (tag d) [py "a"; py "b"; py "strong"; py "i"; py "br"; py "sup"] = false
            /\ is_empty_tag d = false
            /\ low_score d = false)
         (descendants cleaned).
Proof.
  intros Hwf Hc. unfold cleanup in Hc.
  destruct (remove_negativescores_nodes top) as [t1|e] eqn:E1; [|discriminate].
  cbn [bind] in Hc. injection Hc as Hc.
  set (t2 := links_to_text t1) in *.
  set (t3 := add_newline_to_br t2) in *.
  set (t4 := add_newline_to_li t3) in *.
  set (t5 := replace_with_text t4) in *.
  set (t6 := remove_empty_tags t5) in *.
  pose proof (remove_negativescores_nodes_shrinks top t1 E1) as S1.
  pose proof (links_to_text_shrinks t1 : shrinks t2 t1) as S2.
  pose proof (add_newline_to_br_shrinks t2 : shrinks t3 t2) as S3.
  pose proof (add_newline_to_li_shrinks t3 : shrinks t4 t3) as S4.
  pose proof (replace_with_text_shrinks t4 : shrinks t5 t4) as S5.
  pose proof (remove_empty_tags_shrinks t5 : shrinks t6 t5) as S6.
  pose proof (remove_trailing_media_div_shrinks t6) as S7. rewrite Hc in S7.
  pose proof (shrinks_trans _ _ _ S7 S6) as S75.
  pose proof (shrinks_trans _ _ _ S75 (shrinks_trans _ _ _ S5 (shrinks_trans _ _ _ S4 S3))) as S72.
  pose proof (shrinks_trans _ _ _ S72 S2) as S71.
  pose proof (shrinks_trans _ _ _ S5 (shrinks_trans _ _ _ S4 (shrinks_trans _ _ _ S3
               (shrinks_trans _ _ _ S2 S1)))) as S50.
  pose proof (shrinks_wf _ _ S50 Hwf) as Hwf5.
  pose proof (shrinks_wf _ _ (shrinks_trans _ _ _ S6 S50) Hwf) as Hwf6.
  assert (Hscore : Forall (fun d => score_kept (head d)) (descendants cleaned)).
  { apply (shrinks_Forall score_kept cleaned t1 S71).
    exact (remove_negativescores_nodes_kept top t1 Hwf E1). }
  assert (Ha : Forall (fun d => str_in (tag d) [py "a"] = false) (descendants cleaned)).
  { apply (shrinks_Forall (fun h => str_in (snd (fst h)) [py "a"] = false) cleaned t2 S72).
    exact (stripTags_clean [py "a"] t1). }
  assert (Hb : Forall (fun d => str_in (tag d)
                                  [py "b"; py "strong"; py "i"; py "br"; py "sup"] = false)
                      (descendants cleaned)).
  { apply (shrinks_Forall
             (fun h => str_in (snd (fst h))
                         [py "b"; py "strong"; py "i"; py "br"; py "sup"] = false)
             cleaned t5 S75).
    exact (stripTags_clean [py "b"; py "strong"; py "i"; py "br"; py "sup"] t4). }
  pose proof (remove_empty_tags_clean t5 Hwf5) as H6. fold t6 in H6.
  rewrite Forall_forall in Hscore, Ha, Hb, H6 |- *. intros d Hd.
  split; [|split].
  - specialize (Ha d Hd). specialize (Hb d Hd).
    unfold str_in in *. cbn [existsb] in *.
    rewrite orb_false_r in Ha. rewrite Ha. exact Hb.
  - apply H6. rewrite <- Hc in Hd.
    exact (remove_trailing_media_div_descendants t6 d Hwf6 Hd).
  - specialize (Hscore d Hd).
    unfold score_kept, low_score, gravityScore, Parser.getAttribute, head in *.
    cbn [snd] in Hscore.
    destruct (attr_get (py "gravityScore") (attrib d)) as [s|]; [|reflexivity].
    rewrite Hscore. reflexivity.
Qed.

(** X9: score pruning that succeeded has nothing left to do: run on its own
    result it returns that result. *)
Theorem X9_score_pruning_once (top t1 : node) :
  wf top ->
  remove_negativescores_nodes top = Ok t1 ->
  remove_negativescores_nodes t1 = Ok t1.
Proof.
  intros Hwf H. apply remove_negativescores_nodes_id.
  exact (remove_negativescores_nodes_kept top t1 Hwf H).
Qed.

End PassExtras.

Lemma X7_cleanup_only_removes_witness :
  cleanup (B := Builtins.ascii_builtins) Examples.scored = Ok Examples.scored_cleaned
  /\ incl (ids Examples.scored_cleaned) (ids Examples.scored).
Proof.
  split; [reflexivity|].
  exact (proj1 (proj2 (proj2 (X7_cleanup_only_removes (B := Builtins.ascii_builtins)
                                Examples.scored Examples.scored_cleaned eq_refl)))).
Defined.

Lemma X8_cleanup_postconditions_witness :
  wf Examples.scored
  /\ Forall (fun d =>
               str_in (tag d) [py "a"; py "b"; py "strong"; py "i"; py "br"; py "sup"] = false
               /\ is_empty_tag d = false
               /\ low_score (B := Builtins.ascii_builtins) d = false)
            (descendants Examples.scored_cleaned).
Proof.
  split; [exact wf_scored|].
  exact (X8_cleanup_postconditions (B := Builtins.ascii_builtins)
           Examples.scored Examples.scored_cleaned wf_scored eq_refl).
Defined.

Lemma X9_score_pruning_once_witness :
  wf Examples.scored
  /\ remove_negativescores_nodes (B := Builtins.ascii_builtins) Examples.scored_cleaned
     = Ok Examples.scored_cleaned.
Proof.
  split; [exact wf_scored|].
  exact (X9_score_pruning_once (B := Builtins.ascii_builtins)
           Examples.scored Examples.scored_cleaned wf_scored eq_refl).
Defined.

Lemma wf_hollow : wf MoreExamples.hollow.
Proof. unfold wf. cbv. repeat constructor; cbn; intuition discriminate. Qed.

Lemma wf_one_item : wf MoreExamples.one_item.
Proof. unfold wf. cbv. repeat constructor; cbn; intuition discriminate. Qed.

(** X10: after [remove_empty_tags] on a well-formed tree no element below the
    top node is one the pass would remove, also not a parent that was left
    empty by the removal of its children; the pass run again changes
    nothing, and it only takes elements away. *)
Theorem X10_empty_tags_are_gone (top : node) :
  wf top ->
  Forall (fun d => is_empty_tag d = false) (descendants (remove_empty_tags top))
  /\ remove_empty_tags (remove_empty_tags top) = remove_empty_tags top
  /\ shrinks (remove_empty_tags top) top.
Proof.
  intros Hwf. pose proof (remove_empty_tags_clean top Hwf) as Hc.
  pose proof (remove_empty_tags_shrinks top) as S.
  split; [exact Hc|]. split; [|exact S].
  apply remove_empty_tags_id; [exact (shrinks_wf _ _ S Hwf) | exact Hc].
Qed.

Lemma X10_empty_tags_are_gone_witness :
  wf MoreExamples.hollow
  /\ remove_empty_tags MoreExamples.hollow
     = el 0 "div" [] "" "" [el 3 "p" [] "some text" "" []]
  /\ remove_empty_tags (remove_empty_tags MoreExamples.hollow)
     = remove_empty_tags MoreExamples.hollow.
Proof.
  split; [exact wf_hollow|]. split; [reflexivity|].
  exact (proj1 (proj2 (X10_empty_tags_are_gone MoreExamples.hollow wf_hollow))).
Defined.

(** X13: [add_newline_to_li] leaves a well-formed tree as it is when no list
    container in it has more than one item: the only item of a list is its
    last. *)
Theorem X13_single_items_untouched (t : node) :
  wf t -> lists_settled t -> add_newline_to_li t = t.
Proof. intros Hwf H. exact (add_newline_to_li_id t Hwf H). Qed.

Lemma X13_single_items_untouched_witness :
  wf MoreExamples.one_item /\ lists_settled MoreExamples.one_item
  /\ add_newline_to_li MoreExamples.one_item = MoreExamples.one_item.
Proof.
  assert (Hl : lists_settled MoreExamples.one_item).
  { intros u Hu. vm_compute in Hu. destruct Hu as [<- | []]. vm_compute. lia. }
  split; [exact wf_one_item|]. split; [exact Hl|].
  exact (X13_single_items_untouched MoreExamples.one_item wf_one_item Hl).
Defined.

(** X15: where the lists of the top node are not nested,
    [add_newline_to_li] leaves the last item of every list container as it
    was, with its text and its children: the loop runs over
    [li_list[:-1]]. *)
Theorem X15_last_item_untouched (top : node) :
  wf top -> unnested_lists top ->
  forall u items li, In u (ul_list top) -> li_list u = items ++ [li] ->
                     find_id (nid li) (add_newline_to_li top) = Some li.
Proof. intros Hwf Hflat u items li. apply last_item_kept; assumption. Qed.

Lemma X15_last_item_untouched_witness :
  wf Examples.abc_list /\ unnested_lists Examples.abc_list
  /\ find_id 4 (add_newline_to_li Examples.abc_list) = Some (el 4 "li" [] "C" "" []).
Proof.
  split; [exact wf_abc_list|]. split; [exact unnested_abc_list|].
  refine (X15_last_item_untouched Examples.abc_list wf_abc_list unnested_abc_list
            Examples.abc_items
            [el 2 "li" [] "A" "" []; el 3 "li" [] "B" "" []] (el 4 "li" [] "C" "" []) _ _).
  - left. reflexivity.
  - reflexivity.
Defined.

(** ** Line breaks *)

Lemma set_text_where_unfold (P : node -> bool) (x : pystr) (n : node) :
  set_text_where P x n
  = set_children
      (map (fun c => if P c then set_text x (set_text_where P x c) else set_text_where P x c)
           (children n)) n.
Proof. destruct n; reflexivity. Qed.

Lemma set_text_where_nid P x n : nid (set_text_where P x n) = nid n.
Proof. destruct n; reflexivity. Qed.

Lemma set_text_nid x n : nid (set_text x n) = nid n.
Proof. destruct n; reflexivity. Qed.

Lemma set_text_set_text x n : set_text x (set_text x n) = set_text x n.
Proof. destruct n; reflexivity. Qed.

Lemma set_text_where_ext (P Q : node -> bool) (x : pystr) (n : node) :
  (forall d, In d (descendants n) -> P d = Q d) ->
  set_text_where P x n = set_text_where Q x n.
Proof.
  induction n as [j t a tx tl cs IH] using node_ind. intros H.
  rewrite !set_text_where_unfold. cbn [children set_children]. f_equal.
  apply map_ext_in. intros c Hc. rewrite Forall_forall in IH.
  rewrite (H c) by (apply (in_children_iter (Node j t a tx tl cs) c c Hc);
                    rewrite iter_unfold; left; reflexivity).
  rewrite (IH c Hc); [reflexivity|].
  intros d Hd. apply H. apply (in_children_iter (Node j t a tx tl cs) c d Hc).
  apply descendants_in_iter. exact Hd.
Qed.

Lemma set_text_where_none (x : pystr) (n : node) :
  set_text_where (fun _ => false) x n = n.
Proof.
  induction n as [j t a tx tl cs IH] using node_ind.
  rewrite set_text_where_unfold. cbn [children set_children]. f_equal.
  apply map_id_in. intros c Hc. rewrite Forall_forall in IH. exact (IH c Hc).
Qed.

Lemma update_id_set_text (i : nat) (x y : pystr) (n : node) :
  nid n <> i ->
  update_id i (set_text x) (set_text y n) = set_text y (update_id i (set_text x) n).
Proof.
  intros H. rewrite !update_id_unfold, set_text_nid.
  apply Nat.eqb_neq in H. rewrite H. destruct n; reflexivity.
Qed.

(** One more identity whose text is set. *)
Lemma update_set_text_where (i : nat) (x : pystr) (S : nat -> bool) (n : node) :
  wf n -> nid n <> i ->
  update_id i (set_text x) (set_text_where (fun d => S (nid d)) x n)
  = set_text_where (fun d => S (nid d) || (nid d =? i)) x n.
Proof.
  induction n as [j t a tx tl cs IH] using node_ind. intros Hwf Hne.
  rewrite update_id_unfold, set_text_where_nid.
  apply Nat.eqb_neq in Hne. rewrite Hne.
  rewrite !set_text_where_unfold. cbn [children set_children]. f_equal.
  rewrite map_map. apply map_ext_in. intros c Hc.
  pose proof (wf_child (Node j t a tx tl cs) c Hwf Hc) as Hwfc.
  rewrite Forall_forall in IH.
  destruct (nid c =? i) eqn:Ei.
  - apply Nat.eqb_eq in Ei. rewrite orb_true_r.
    assert (Er : set_text_where (fun d => S (nid d) || (nid d =? i)) x c
                 = set_text_where (fun d => S (nid d)) x c).
    { apply set_text_where_ext. intros d Hd.
      destruct (nid d =? i) eqn:Ed; [|apply orb_false_r].
      exfalso. apply Nat.eqb_eq in Ed. apply (wf_root_fresh c Hwfc).
      rewrite Ei, <- Ed. apply in_descendants in Hd as (k & Hk & Hd).
      apply in_flat_map. exists k. split; [exact Hk | apply in_iter_ids; exact Hd]. }
    rewrite Er.
    destruct (S (nid c)); rewrite update_id_unfold, ?set_text_nid, set_text_where_nid;
      apply Nat.eqb_eq in Ei; rewrite Ei; [apply set_text_set_text | reflexivity].
  - rewrite orb_false_r. apply Nat.eqb_neq in Ei.
    destruct (S (nid c)).
    + rewrite update_id_set_text by (rewrite set_text_where_nid; exact Ei).
      rewrite (IH c Hc Hwfc Ei). reflexivity.
    + exact (IH c Hc Hwfc Ei).
Qed.

Lemma fold_set_text_where (x : pystr) (L : list node) (n : node) :
  wf n -> (forall e, In e L -> nid e <> nid n) ->
  forall S,
    fold_left (fun t e => update_id (nid e) (set_text x) t) L
              (set_text_where (fun d => S (nid d)) x n)
    = set_text_where (fun d => S (nid d) || mem (map nid L) (nid d)) x n.
Proof.
  intros Hwf. induction L as [|e L IH]; intros HL S; cbn [fold_left].
  - apply set_text_where_ext. intros d _. cbn. rewrite orb_false_r. reflexivity.
  - rewrite update_set_text_where;
      [|exact Hwf | intros E; exact (HL e (or_introl eq_refl) (eq_sym E))].
    rewrite (IH (fun e' He' => HL e' (or_intror He')) (fun j => S j || (j =? nid e))).
    apply set_text_where_ext. intros d _. unfold mem. cbn [map existsb].
    rewrite <- orb_assoc. reflexivity.
Qed.

Lemma add_newline_to_br_where (top : node) :
  wf top -> add_newline_to_br top = set_text_where is_br marker top.
Proof.
  intros Hwf. unfold add_newline_to_br.
  pose proof (fold_set_text_where marker (Parser.getElementsByTag top (py "br")) top Hwf) as H.
  rewrite <- (set_text_where_none marker top) at 2.
  rewrite (H ltac:(intros e He E; apply getElementsByTag_In in He as [He _];
                   apply (wf_root_fresh top Hwf); rewrite <- E;
                   apply in_descendants in He as (k & Hk & He);
                   apply in_flat_map; exists k; split;
                   [exact Hk | apply in_iter_ids; exact He])
             (fun _ => false)).
  apply set_text_where_ext. intros d Hd. cbn [orb]. unfold is_br.
  destruct (str_eqb (tag d) (py "br")) eqn:Et.
  - apply mem_In. apply in_map. apply getElementsByTag_In.
    split; [exact Hd | apply str_eqb_eq; exact Et].
  - destruct (mem _ (nid d)) eqn:Em; [|reflexivity].
    apply mem_In in Em. apply in_map_iff in Em as (e & Ee & He).
    apply getElementsByTag_In in He as [He Hte].
    assert (e = d) by (apply (wf_nid_inj top e d Hwf); auto using descendants_in_iter).
    subst e. apply str_eqb_eq in Hte. congruence.
Qed.

Lemma set_text_where_set_text P x y n :
  set_text_where P x (set_text y n) = set_text y (set_text_where P x n).
Proof. destruct n; reflexivity. Qed.

Lemma set_text_where_twice (x : pystr) (n : node) :
  set_text_where is_br x (set_text_where is_br x n) = set_text_where is_br x n.
Proof.
  induction n as [j t a tx tl cs IH] using node_ind.
  rewrite (set_text_where_unfold is_br x (Node j t a tx tl cs)).
  cbn [children set_children]. rewrite set_text_where_unfold. cbn [children set_children].
  f_equal. rewrite map_map. apply map_ext_in. intros c Hc.
  rewrite Forall_forall in IH. specialize (IH c Hc).
  assert (Eb : forall y, is_br (set_text y (set_text_where is_br x c)) = is_br c)
    by (intros y; destruct c; reflexivity).
  assert (Eb' : is_br (set_text_where is_br x c) = is_br c) by (destruct c; reflexivity).
  destruct (is_br c) eqn:E.
  - rewrite Eb, set_text_where_set_text, IH. apply set_text_set_text.
  - rewrite Eb'. exact IH.
Qed.

Lemma set_text_where_marked (x : pystr) (n : node) :
  Forall (fun d => if is_br d then text d = x else True)
         (descendants (set_text_where is_br x n)).
Proof.
  induction n as [j t a tx tl cs IH] using node_ind.
  rewrite set_text_where_unfold. unfold descendants. cbn [children set_children].
  apply Forall_flat_map_in. intros c' Hc'. apply in_map_iff in Hc' as (c & <- & Hc).
  rewrite Forall_forall in IH. specialize (IH c Hc).
  rewrite iter_unfold. constructor.
  - destruct (is_br c) eqn:E.
    + destruct c as [j' t' a' tx' tl' cs']. cbn. cbn in E. rewrite E. reflexivity.
    + replace (is_br (set_text_where is_br x c)) with (is_br c) by (destruct c; reflexivity).
      rewrite E. exact I.
  - destruct (is_br c); [|exact IH].
    replace (children (set_text x (set_text_where is_br x c)))
      with (children (set_text_where is_br x c))
      by (destruct c; reflexivity).
    exact IH.
Qed.

(** X11: on a well-formed tree [add_newline_to_br] sets the text of every br
    element below the top node to the newline marker and changes nothing
    else: not the top node itself, no other element's text, no tail, no
    child; run again it changes nothing. *)
Theorem X11_line_breaks_marked (top : node) :
  wf top ->
  add_newline_to_br top = set_text_where is_br marker top
  /\ Forall (fun d => if is_br d then text d = marker else True)
            (descendants (add_newline_to_br top))
  /\ add_newline_to_br (add_newline_to_br top) = add_newline_to_br top.
Proof.
  intros Hwf. pose proof (add_newline_to_br_where top Hwf) as E.
  split; [exact E|]. split.
  - rewrite E. apply set_text_where_marked.
  - rewrite (add_newline_to_br_where (add_newline_to_br top))
      by exact (shrinks_wf _ _ (add_newline_to_br_shrinks top) Hwf).
    rewrite E. apply set_text_where_twice.
Qed.

Lemma wf_two_breaks : wf MoreExamples.two_breaks.
Proof. unfold wf. cbv. repeat constructor; cbn; intuition discriminate. Qed.

Lemma X11_line_breaks_marked_witness :
  wf MoreExamples.two_breaks
  /\ add_newline_to_br MoreExamples.two_breaks
     = el 0 "div" [] "" ""
          [el 1 "p" [] "first" "" [el 2 "br" [] "\n" "second" []]; el 3 "br" [] "\n" "" []].
Proof.
  split; [exact wf_two_breaks|].
  exact (proj1 (X11_line_breaks_marked MoreExamples.two_breaks wf_two_breaks)).
Defined.

(** ** Unwrapping anchors and inline tags *)

Lemma text_of_unfold (n : node) :
  text_of n = text n ++ flat_map (fun c => text_of c ++ tail c) (children n).
Proof. destruct n; reflexivity. Qed.

Lemma text_of_set_tail (x : pystr) (n : node) : text_of (set_tail x n) = text_of n.
Proof. destruct n; reflexivity. Qed.

Lemma tail_set_tail (x : pystr) (n : node) : tail (set_tail x n) = x.
Proof. destruct n; reflexivity. Qed.

Section StripTextProofs.
Variable tags : list pystr.

Lemma add_text_text x st : state_text (Parser.add_text x st) = state_text st ++ x.
Proof.
  unfold state_text, Parser.add_text. destruct st as [txt [|l r]]; cbn [fst snd rev].
  - cbn [flat_map]. rewrite !app_nil_r. reflexivity.
  - rewrite !flat_map_app. cbn [flat_map].
    rewrite text_of_set_tail, tail_set_tail, !app_nil_r, <- !app_assoc. reflexivity.
Qed.

Lemma add_child_text st c :
  state_text (Parser.add_child st c) = state_text st ++ text_of c ++ tail c.
Proof.
  unfold state_text, Parser.add_child. cbn [fst snd rev].
  rewrite flat_map_app. cbn [flat_map]. rewrite app_nil_r, <- app_assoc. reflexivity.
Qed.

Lemma fold_add_child_text cs : forall st,
  state_text (fold_left Parser.add_child cs st)
  = state_text st ++ flat_map (fun c => text_of c ++ tail c) cs.
Proof.
  induction cs as [|c cs IH]; intros st; cbn [fold_left flat_map].
  - rewrite app_nil_r. reflexivity.
  - rewrite IH, add_child_text, <- !app_assoc. reflexivity.
Qed.

Lemma splice_text st c :
  state_text (Parser.splice tags st c) = state_text st ++ text_of c ++ tail c.
Proof.
  unfold Parser.splice. destruct (str_in (tag c) tags).
  - rewrite add_text_text, fold_add_child_text, add_text_text, (text_of_unfold c),
      <- !app_assoc. reflexivity.
  - apply add_child_text.
Qed.

Lemma stripTags_tail n : tail (Parser.stripTags tags n) = tail n.
Proof. rewrite stripTags_unfold. destruct n; reflexivity. Qed.

Lemma fold_splice_text cs :
  Forall (fun c => text_of (Parser.stripTags tags c) = text_of c) cs ->
  forall st,
    state_text (fold_left (fun st c => Parser.splice tags st (Parser.stripTags tags c)) cs st)
    = state_text st ++ flat_map (fun c => text_of c ++ tail c) cs.
Proof.
  induction cs as [|c cs IH]; intros H st; cbn [fold_left flat_map].
  - rewrite app_nil_r. reflexivity.
  - inversion H as [|? ? Hc Hcs]; subst.
    rewrite (IH Hcs), splice_text, Hc, stripTags_tail, <- !app_assoc. reflexivity.
Qed.

(** Unwrapping keeps all the text, in its order. *)
Lemma stripTags_text_of n : text_of (Parser.stripTags tags n) = text_of n.
Proof.
  induction n as [j t a tx tl cs IH] using node_ind.
  rewrite stripTags_unfold. cbn [children nid tag attrib text tail].
  set (st := fold_left _ cs (tx, [])).
  change (text_of (Node j t a (fst st) tl (rev (snd st)))) with (state_text st).
  unfold st. rewrite (fold_splice_text cs IH), text_of_unfold.
  unfold state_text. cbn [fst snd rev flat_map children text]. rewrite app_nil_r. reflexivity.
Qed.

Lemma stripTags_twice n :
  Parser.stripTags tags (Parser.stripTags tags n) = Parser.stripTags tags n.
Proof. apply stripTags_id, stripTags_clean. Qed.

End StripTextProofs.

(** X12: [links_to_text] leaves no a element below the top node and
    [replace_with_text] no b, strong, i, br or sup element; both keep the top
    node and all the text inside it, in document order; either run again
    changes nothing. *)
Theorem X12_unwrapping_keeps_the_text (top : node) :
  (Forall (fun d => str_eqb (tag d) (py "a") = false) (descendants (links_to_text top))
   /\ text_of (links_to_text top) = text_of top
   /\ head (links_to_text top) = head top
   /\ links_to_text (links_to_text top) = links_to_text top)
  /\ (Forall (fun d => str_in (tag d) [py "b"; py "strong"; py "i"; py "br"; py "sup"] = false)
             (descendants (replace_with_text top))
      /\ text_of (replace_with_text top) = text_of top
      /\ head (replace_with_text top) = head top
      /\ replace_with_text (replace_with_text top) = replace_with_text top).
Proof.
  unfold links_to_text, replace_with_text. split.
  - split; [|split; [apply stripTags_text_of | split; [apply stripTags_head | apply stripTags_twice]]].
    pose proof (stripTags_clean [py "a"] top) as H.
    rewrite Forall_forall in H |- *. intros d Hd. specialize (H d Hd).
    unfold str_in in H. cbn [existsb] in H. rewrite orb_false_r in H. exact H.
  - split; [apply stripTags_clean|].
    split; [apply stripTags_text_of | split; [apply stripTags_head | apply stripTags_twice]].
Qed.

(** ** What the extractor does not read *)

Section FrameProofs.
Context {B : PyBuiltins}.

Lemma is_excluded_same_parent (p q : option node) (n m : node) :
  same_parent p q -> tag n = tag m -> attrib n = attrib m -> text n = text m ->
  is_excluded p n = is_excluded q m.
Proof.
  intros Hp Ht Ha Hx. rewrite !is_excluded_orb.
  unfold _is_tag_excluded, _has_ads, _looks_like_object_description,
    _looks_like_page_navigation, _has_ignored_class, _ignored_by_content,
    classes_intersect, classes.
  rewrite Ht, Ha, Hx.
  destruct p as [a|], q as [b|]; cbn in Hp; try contradiction; [|reflexivity].
  destruct Hp as [Et Eb]. rewrite Et, Eb. reflexivity.
Qed.

Lemma strip_tails_unfold (n : node) :
  strip_tails n = Node (nid n) (tag n) (attrib n) (text n) [] (map strip_tails (children n)).
Proof. destruct n; reflexivity. Qed.

Lemma same_parent_strip_tails (n : node) : same_parent (Some (strip_tails n)) (Some n).
Proof.
  destruct n as [j t a tx tl cs]. cbn. split; [reflexivity|].
  unfold elem_bool. cbn [children]. destruct cs; reflexivity.
Qed.

(** What the extractor reads of the elements of a subtree does not depend
    on the tails. *)
Lemma visit_keys_strip_tails (n : node) :
  forall p q, same_parent p q ->
              map visit_key (iter_from p (strip_tails n)) = map visit_key (iter_from q n).
Proof.
  induction n as [j t a tx tl cs IH] using node_ind. intros p q Hpq.
  rewrite strip_tails_unfold, !iter_from_unfold.
  cbn [map children nid tag attrib text]. f_equal.
  - unfold visit_key. cbn [fst snd text]. f_equal.
    apply is_excluded_same_parent; [exact Hpq | reflexivity..].
  - pose proof (same_parent_strip_tails (Node j t a tx tl cs)) as Hs.
    rewrite strip_tails_unfold in Hs. cbn [children nid tag attrib text] in Hs.
    revert Hs. generalize (Node j t a tx [] (map strip_tails cs)).
    generalize (Node j t a tx tl cs). intros n0 n1 Hs.
    induction cs as [|c cs IHcs]; [reflexivity|].
    inversion IH as [|? ? Hc Hcs]; subst. cbn [map flat_map].
    rewrite !map_app, (Hc (Some n1) (Some n0) Hs), (IHcs Hcs). reflexivity.
Qed.

Lemma extract_text_body_keys (p q : option node) (n m : node) (title : option pystr) :
  map visit_key (iter_from p n) = map visit_key (iter_from q m) ->
  extract_text_body p n title = extract_text_body q m title.
Proof.
  intros H. unfold extract_text_body.
  assert (Hroot : is_excluded p n = is_excluded q m).
  { rewrite (iter_from_unfold p n), (iter_from_unfold q m) in H. cbn [map] in H.
    unfold visit_key at 1 3 in H. cbn [fst snd] in H. congruence. }
  rewrite Hroot. destruct (is_excluded q m); [reflexivity|].
  rewrite !(flat_map_map_filter2 (yield_parts title)
              (fun pc => innerTrim (unescape (text (snd pc))))).
  revert H. generalize (iter_from p n) (iter_from q m). intros l1.
  induction l1 as [|x l1 IHl]; intros [|y l2] H; try discriminate; [reflexivity|].
  cbn [map] in H.
  pose proof (f_equal (fun l => fst (hd (true, []) l)) H) as He.
  pose proof (f_equal (fun l => snd (hd (true, []) l)) H) as Hx.
  pose proof (f_equal (@tl _) H) as Ht.
  cbn [hd tl visit_key fst snd] in He, Hx, Ht. cbn [flat_map].
  rewrite He, Hx, (IHl l2 Ht). reflexivity.
Qed.

Lemma flattened_elements_strip_tails (top : node) (title : option pystr) :
  flattened_elements (strip_tails top) title = flattened_elements top title.
Proof.
  unfold flattened_elements.
  assert (Ec : children (strip_tails top) = map strip_tails (children top))
    by (destruct top; reflexivity).
  rewrite Ec. clear Ec.
  pose proof (same_parent_strip_tails top) as Hs.
  induction (children top) as [|c cs IH]; [reflexivity|].
  cbn [map filter truthy extract_text flat_map fragments].
  f_equal; [|exact IH].
  apply extract_text_body_keys. apply visit_keys_strip_tails. exact Hs.
Qed.

Lemma flattened_elements_set_text (x : pystr) (top : node) (title : option pystr) :
  flattened_elements (set_text x top) title = flattened_elements top title.
Proof.
  unfold flattened_elements.
  assert (Ec : children (set_text x top) = children top) by (destruct top; reflexivity).
  rewrite Ec. clear Ec.
  assert (Hs : same_parent (Some (set_text x top)) (Some top)).
  { destruct top as [j t a tx tl cs]. cbn. split; [reflexivity|].
    unfold elem_bool. reflexivity. }
  induction (children top) as [|c cs IH]; [reflexivity|].
  cbn [map filter truthy extract_text flat_map fragments].
  f_equal; [|exact IH].
  apply extract_text_body_keys. rewrite !iter_from_unfold. cbn [map]. f_equal.
  unfold visit_key. cbn [fst snd]. f_equal.
  apply is_excluded_same_parent; [exact Hs | reflexivity..].
Qed.

(** X14: [convert_to_text] reads the text of the elements below the top node
    and nothing else: the top node's own text (what comes before its first
    child) does not reach the output, and no tail does, neither the top
    node's nor that of any element below it. *)
Theorem X14_own_text_and_tails_unread (top : node) (title : option pystr) (x : pystr) :
  convert_to_text (Some (set_text x top)) title = convert_to_text (Some top) title
  /\ convert_to_text (Some (strip_tails top)) title = convert_to_text (Some top) title.
Proof.
  cbn [convert_to_text]. unfold convert_to_text_of.
  rewrite flattened_elements_set_text, flattened_elements_strip_tails.
  split; reflexivity.
Qed.

End FrameProofs.
